(** * merklediff: serializer, hash-tree builder and diff engine

    A shallow embedding of the hashing/tree core of merklediff
    (internal/tree/serializer.go, pkg/hasher/hasher.go, pkg/tree/node.go,
    pkg/tree/tree.go, pkg/tree/diff.go) together with the properties the
    specification states about it. *)

From Stdlib Require Import ZArith List Bool Lia Sorted Permutation.
From Stdlib.Strings Require Import Byte String Ascii.
From Stdlib Require Import DecimalString.
Import ListNotations.

Local Open Scope Z_scope.

(** ** Byte slices *)

(** A Go [[]byte] whose contents are never mutated after creation. *)
Definition bytes := list byte.

Definition byteZ (b : byte) : Z := Z.of_N (Byte.to_N b).

Definition Zbyte (z : Z) : byte :=
  match Byte.of_N (Z.to_N (z mod 256)) with
  | Some b => b
  | None => x00
  end.

(** bytes.Equal *)
Fixpoint bytes_Equal (a b : bytes) : bool :=
  match a, b with
  | [], [] => true
  | x :: a', y :: b' => Byte.eqb x y && bytes_Equal a' b'
  | _, _ => false
  end.

(** bytes.Compare: lexicographic order on unsigned bytes. *)
Fixpoint bytes_Compare (a b : bytes) : Z :=
  match a, b with
  | [], [] => 0
  | [], _ :: _ => -1
  | _ :: _, [] => 1
  | x :: a', y :: b' =>
      if byteZ x <? byteZ y then -1
      else if byteZ y <? byteZ x then 1
      else bytes_Compare a' b'
  end.

(** len(b) as a Go int. *)
Definition len {A : Type} (l : list A) : Z := Z.of_nat (List.length l).

(** []byte(s) for a string literal. *)
Definition bytes_of_string (s : string) : bytes := list_byte_of_string s.

(** Big-endian encoding of the low [n] bytes of [x]; for a negative [x]
    these are the bytes of its two's complement. *)
Fixpoint be_bytes (n : nat) (x : Z) : bytes :=
  match n with
  | O => []
  | S n' => Zbyte (Z.shiftr x (8 * Z.of_nat n')) :: be_bytes n' x
  end.

(** Go's [error] values are represented by their message. *)
Definition error := string.

(** strconv-style decimal rendering, as produced by the [%d] verb. *)
Definition itoa (z : Z) : string := NilZero.string_of_int (Z.to_int z).

(** ** pkg/hasher: SHA-256

    [SHA256Hasher.Hash] is [sha256.Sum256] of the Go standard library.
    The digest is written out here after FIPS 180-4 so that node hashes
    can be evaluated on concrete inputs. *)

Module SHA256.

Definition w32 (x : Z) : Z := x mod 4294967296.
Definition add32 (x y : Z) : Z := w32 (x + y).
Definition rotr (n x : Z) : Z :=
  w32 (Z.lor (Z.shiftr x n) (Z.shiftl x (32 - n))).
Definition shr (n x : Z) : Z := Z.shiftr x n.
Definition not32 (x : Z) : Z := Z.lxor x 4294967295.

Definition Ch (x y z : Z) : Z := Z.lxor (Z.land x y) (Z.land (not32 x) z).
Definition Maj (x y z : Z) : Z :=
  Z.lxor (Z.lxor (Z.land x y) (Z.land x z)) (Z.land y z).
Definition Sigma0 (x : Z) : Z := Z.lxor (Z.lxor (rotr 2 x) (rotr 13 x)) (rotr 22 x).
Definition Sigma1 (x : Z) : Z := Z.lxor (Z.lxor (rotr 6 x) (rotr 11 x)) (rotr 25 x).
Definition sigma0 (x : Z) : Z := Z.lxor (Z.lxor (rotr 7 x) (rotr 18 x)) (shr 3 x).
Definition sigma1 (x : Z) : Z := Z.lxor (Z.lxor (rotr 17 x) (rotr 19 x)) (shr 10 x).

(** The first primes, by trial division against the primes found so far. *)
Fixpoint primes (fuel : nat) (cand : Z) (found : list Z) (need : nat) : list Z :=
  match need, fuel with
  | O, _ => rev found
  | _, O => rev found
  | S need', S fuel' =>
      if forallb (fun p => negb (cand mod p =? 0)) found
      then primes fuel' (cand + 1) (cand :: found) need'
      else primes fuel' (cand + 1) found need
  end.

(** Largest [r] below [2 ^ bits] with [r ^ e <= n], found bit by bit. *)
Fixpoint iroot (bits : nat) (e n r : Z) : Z :=
  match bits with
  | O => r
  | S b =>
      let r' := r + 2 ^ Z.of_nat b in
      iroot b e n (if r' ^ e <=? n then r' else r)
  end.

(** FIPS 180-4, 4.2.2: the first 32 bits of the fractional parts of the
    cube roots of the first 64 primes. *)
Definition K : list Z :=
  Eval vm_compute in
    map (fun p => w32 (iroot 40 3 (p * 2 ^ 96) 0)) (primes 400 2 [] 64).

(** FIPS 180-4, 5.3.3: the first 32 bits of the fractional parts of the
    square roots of the first 8 primes. *)
Definition H0 : list Z :=
  Eval vm_compute in
    map (fun p => w32 (iroot 40 2 (p * 2 ^ 64) 0)) (primes 100 2 [] 8).

Fixpoint be_value (acc : Z) (bs : bytes) : Z :=
  match bs with
  | [] => acc
  | b :: bs' => be_value (acc * 256 + byteZ b) bs'
  end.

(** Message padding: 0x80, zeros up to 56 mod 64, 64-bit bit length. *)
Definition pad (msg : bytes) : bytes :=
  let l := len msg in
  let zeros := Z.to_nat ((55 - l) mod 64) in
  msg ++ [x80] ++ repeat x00 zeros ++ be_bytes 8 (8 * l).

(** Splits a byte string into big-endian 32-bit words. *)
Fixpoint words (bs : bytes) : list Z :=
  match bs with
  | a :: b :: c :: d :: rest => be_value 0 [a; b; c; d] :: words rest
  | _ => []
  end.

(** Splits the word stream into 16-word blocks. *)
Fixpoint blocks (fuel : nat) (ws : list Z) : list (list Z) :=
  match fuel with
  | O => []
  | S f =>
      match ws with
      | [] => []
      | _ => firstn 16 ws :: blocks f (skipn 16 ws)
      end
  end.

Record regs := Regs { ra : Z; rb : Z; rc : Z; rd : Z; re : Z; rf : Z; rg : Z; rh : Z }.

Definition round (r : regs) (k w : Z) : regs :=
  let t1 := add32 (add32 (add32 (add32 (rh r) (Sigma1 (re r))) (Ch (re r) (rf r) (rg r))) k) w in
  let t2 := add32 (Sigma0 (ra r)) (Maj (ra r) (rb r) (rc r)) in
  Regs (add32 t1 t2) (ra r) (rb r) (rc r) (add32 (rd r) t1) (re r) (rf r) (rg r).

(** The message schedule is kept as a sliding window of sixteen words. *)
Definition next_w (win : list Z) : Z :=
  add32 (add32 (add32 (sigma1 (nth 14 win 0)) (nth 9 win 0)) (sigma0 (nth 1 win 0)))
        (nth 0 win 0).

Fixpoint rounds (ks : list Z) (win : list Z) (r : regs) : regs :=
  match ks with
  | [] => r
  | k :: ks' =>
      rounds ks' (tl win ++ [next_w win]) (round r k (nth 0 win 0))
  end.

Definition regs_of (h : list Z) : regs :=
  Regs (nth 0 h 0) (nth 1 h 0) (nth 2 h 0) (nth 3 h 0)
       (nth 4 h 0) (nth 5 h 0) (nth 6 h 0) (nth 7 h 0).

Definition compress (h : list Z) (block : list Z) : list Z :=
  let r := rounds K block (regs_of h) in
  [ add32 (nth 0 h 0) (ra r); add32 (nth 1 h 0) (rb r);
    add32 (nth 2 h 0) (rc r); add32 (nth 3 h 0) (rd r);
    add32 (nth 4 h 0) (re r); add32 (nth 5 h 0) (rf r);
    add32 (nth 6 h 0) (rg r); add32 (nth 7 h 0) (rh r) ].

Definition Sum256 (data : bytes) : bytes :=
  let ws := words (pad data) in
  let h := fold_left compress (blocks (List.length ws) ws) H0 in
  flat_map (be_bytes 4) h.

End SHA256.

(** hasher.SHA256Hasher.Hash *)
Definition Hash (data : bytes) : bytes := SHA256.Sum256 data.

(** ** Outcomes of calls that may panic *)

Inductive result (A : Type) : Type :=
| Ok (a : A)
| Panic (e : error).
Arguments Ok {A} a.
Arguments Panic {A} e.

(** ** internal/tree/serializer.go *)

(** A float is represented by its IEEE-754 bit pattern. *)
Record float64 := F64 { bits64 : Z }.
Record float32 := F32 { bits32 : Z }.

(** math.Float64bits *)
Definition Float64bits (f : float64) : Z := bits64 f mod 2 ^ 64.

(** The conversion [float64(val)] of a [float32]: exact widening of the
    binary32 pattern (a NaN keeps its payload and becomes quiet). *)
Definition float64_of_float32 (f : float32) : float64 :=
  let b := bits32 f mod 2 ^ 32 in
  let s := Z.shiftl (Z.shiftr b 31) 63 in
  let e := Z.land (Z.shiftr b 23) 255 in
  let m := Z.land b 8388607 in
  if e =? 255 then
    if m =? 0 then F64 (Z.lor s (Z.shiftl 2047 52))
    else F64 (Z.lor (Z.lor s (Z.shiftl 2047 52)) (Z.lor (Z.shiftl 1 51) (Z.shiftl m 29)))
  else if e =? 0 then
    if m =? 0 then F64 s
    else
      let k := Z.log2 m in
      F64 (Z.lor (Z.lor s (Z.shiftl (k + 874) 52)) (Z.shiftl (m - 2 ^ k) (52 - k)))
  else F64 (Z.lor (Z.lor s (Z.shiftl (e + 896) 52)) (Z.shiftl m 29)).

(** Go's [int] is taken to be 64 bits wide; sums and products of [int]
    and [int64] wrap. *)
Definition wrap64 (z : Z) : Z := (z + 2 ^ 63) mod 2 ^ 64 - 2 ^ 63.

(** A [time.Time]: the instant as seconds and nanoseconds since the Unix
    epoch, the reading of the monotonic clock if the value carries one, and
    the name of its location. *)
Record Time := mkTime {
  unixSec : Z;
  nsec : Z;
  monotonic : option Z;
  location : bytes
}.

(** Time.UnixNano: [t.unixSec()*1e9 + int64(t.nsec())] in [int64]
    arithmetic; neither the monotonic reading nor the location enters. *)
Definition UnixNano (t : Time) : Z := wrap64 (unixSec t * 1000000000 + nsec t).

(** The dynamic types a value of type [any] is switched on in
    [serializeValue].  [VOther] stands for every type outside the
    enumerated cases and carries its [fmt.Sprintf("%v", val)] rendering. *)
Inductive Value : Type :=
| VNil
| VString (val : bytes)
| VInt (val : Z)
| VInt64 (val : Z)
| VInt32 (val : Z)
| VFloat64 (val : float64)
| VFloat32 (val : float32)
| VBool (val : bool)
| VBytes (val : bytes)
| VTime (val : Time)
| VOther (rendering : bytes).

(** A value of an integer type the switch of [serializeValue] has no case
    for (int8, int16, uint, uint8, ...; pgx hands out an int16 for a
    smallint column): it is among the other types, and [%v] renders an
    integer in decimal. *)
Definition VInt16 (val : Z) : Value := VOther (bytes_of_string (itoa val)).

(** The serializer owns one [bytes.Buffer] that every call writes to. *)
Record Serializer := mkSerializer { buf : bytes }.

Definition NewSerializer : Serializer := mkSerializer [].

(** Methods with a pointer receiver are state transformers. *)
Definition SerM (A : Type) : Type := Serializer -> A * Serializer.

Definition ser_ret {A : Type} (a : A) : SerM A := fun s => (a, s).
Definition ser_bind {A B : Type} (m : SerM A) (k : A -> SerM B) : SerM B :=
  fun s => let (a, s') := m s in k a s'.

Declare Scope ser_scope.
Delimit Scope ser_scope with ser.
Notation "x <- m ;; k" := (ser_bind m (fun x => k))
  (at level 61, m at next level, right associativity) : ser_scope.
Notation "m ;; k" := (ser_bind m (fun _ => k))
  (at level 61, right associativity) : ser_scope.
Local Open Scope ser_scope.

Definition buf_Reset : SerM unit := fun _ => (tt, mkSerializer []).
Definition buf_WriteByte (b : byte) : SerM unit :=
  fun s => (tt, mkSerializer (buf s ++ [b])).
Definition buf_Write (p : bytes) : SerM unit :=
  fun s => (tt, mkSerializer (buf s ++ p)).
Definition buf_Bytes : SerM bytes := fun s => (buf s, s).

Definition uint32 (x : Z) : Z := x mod 2 ^ 32.
Definition uint64 (x : Z) : Z := x mod 2 ^ 64.

(** enc = binary.BigEndian *)
Definition PutUint32 (v : Z) : bytes := be_bytes 4 v.
Definition PutUint64 (v : Z) : bytes := be_bytes 8 v.

Definition writeType (t : byte) : SerM unit := buf_WriteByte t.

Definition writeBytes (b : bytes) : SerM unit :=
  let lenBuf := PutUint32 (uint32 (len b)) in
  buf_Write lenBuf ;; buf_Write b.

Definition writeInt64 (i : Z) : SerM unit :=
  buf_Write (PutUint64 (uint64 i)).

Definition writeFloat64 (f : float64) : SerM unit :=
  buf_Write (PutUint64 (Float64bits f)).

Definition serializeValue (v : Value) : SerM unit :=
  match v with
  | VNil => writeType x00
  | VString val => writeType x01 ;; writeBytes val
  | VInt val => writeType x02 ;; writeInt64 val
  | VInt64 val => writeType x02 ;; writeInt64 val
  | VInt32 val => writeType x02 ;; writeInt64 val
  | VFloat64 val => writeType x03 ;; writeFloat64 val
  | VFloat32 val => writeType x03 ;; writeFloat64 (float64_of_float32 val)
  | VBool val => writeType x04 ;; (if val then buf_WriteByte x01 else buf_WriteByte x00)
  | VBytes val => writeType x05 ;; writeBytes val
  | VTime val => writeType x06 ;; writeInt64 (UnixNano val)
  | VOther rendering => writeType x01 ;; writeBytes rendering
  end.

(** [for _, v := range values { s.serializeValue(v) }] *)
Fixpoint serializeValues (values : list Value) : SerM unit :=
  match values with
  | [] => ser_ret tt
  | v :: rest => serializeValue v ;; serializeValues rest
  end.

Definition SerializeRow (values : list Value) : SerM bytes :=
  buf_Reset ;;
  serializeValues values ;;
  out <- buf_Bytes ;;
  ser_ret out.

(** ** internal/tree/builder.go *)

Record NodeBuilder := mkNodeBuilder { NB_Serializer : Serializer }.

Definition NewNodeBuilder : NodeBuilder := mkNodeBuilder NewSerializer.

Definition SerializeRowValues (values : list Value) (b : NodeBuilder)
  : bytes * NodeBuilder :=
  let (out, s) := SerializeRow values (NB_Serializer b) in
  (out, mkNodeBuilder s).

(** ** pkg/types *)

Record Row := mkRow { Key : bytes; Values : list Value }.

(** ** pkg/tree/node.go *)

(** A value of type [*MerkleNode]: the nil pointer, or a node with its
    fields.  Nodes are built bottom-up and never changed once they are
    linked under a parent, so a child pointer is represented by the child. *)
Inductive MerkleNode : Type :=
| Nil
| Node (hash startKey endKey : bytes) (left right : MerkleNode) (level : Z).

Definition NewNode (hash startKey endKey : bytes) : MerkleNode :=
  let hashed := Hash hash in
  Node hashed startKey endKey Nil Nil 0.

(** The accessors dereference their receiver; on [Nil] the Go call panics,
    and the value given here is never used by the code below, which calls
    them on nodes it has checked against nil.  GetChunkSize is the one
    accessor that is called on a pointer its caller may not have checked,
    so its panic is part of the model. *)
Definition GetHash (n : MerkleNode) : bytes :=
  match n with Node h _ _ _ _ _ => h | Nil => [] end.
Definition GetStartKey (n : MerkleNode) : bytes :=
  match n with Node _ s _ _ _ _ => s | Nil => [] end.
Definition GetEndKey (n : MerkleNode) : bytes :=
  match n with Node _ _ e _ _ _ => e | Nil => [] end.
Definition GetLeft (n : MerkleNode) : MerkleNode :=
  match n with Node _ _ _ l _ _ => l | Nil => Nil end.
Definition GetRight (n : MerkleNode) : MerkleNode :=
  match n with Node _ _ _ _ r _ => r | Nil => Nil end.
Definition GetLevel (n : MerkleNode) : Z :=
  match n with Node _ _ _ _ _ lv => lv | Nil => 0 end.

Definition SetLeft (left : MerkleNode) (n : MerkleNode) : MerkleNode :=
  match n with Node h s e _ r lv => Node h s e left r lv | Nil => Nil end.
Definition SetRight (right : MerkleNode) (n : MerkleNode) : MerkleNode :=
  match n with Node h s e l _ lv => Node h s e l right lv | Nil => Nil end.
Definition SetLevel (level : Z) (n : MerkleNode) : MerkleNode :=
  match n with Node h s e l r _ => Node h s e l r level | Nil => Nil end.

Definition is_nil (n : MerkleNode) : bool :=
  match n with Nil => true | Node _ _ _ _ _ _ => false end.

(** The run-time panic of a field access through the nil pointer. *)
Definition nilDereference : error :=
  "runtime error: invalid memory address or nil pointer dereference"%string.

Definition Node_GetChunkSize (n : MerkleNode) : result Z :=
  match n with
  | Nil => Panic nilDereference
  | Node _ startKey _ _ _ _ => Ok (len startKey)
  end.

Definition IsLeaf (n : MerkleNode) : bool :=
  is_nil (GetLeft n) && is_nil (GetRight n).

Definition IsInternal (n : MerkleNode) : bool :=
  negb (is_nil (GetLeft n)) && negb (is_nil (GetRight n)).

(** ** pkg/tree/tree.go *)

Record MerkleTree := mkMerkleTree { root : MerkleNode; nodeBuilder : NodeBuilder }.

Definition NewMerkleTree (root : MerkleNode) : MerkleTree :=
  mkMerkleTree root NewNodeBuilder.

Definition GetRoot (t : MerkleTree) : MerkleNode := root t.

Definition GetChunkSize (t : MerkleTree) : result Z :=
  if is_nil (root t) then Ok 0 else Node_GetChunkSize (root t).

(** The body of the pairing branch of [buildTreeLevels]. *)
Definition makeParent (left right : MerkleNode) : MerkleNode :=
  let combined := GetHash left ++ GetHash right in
  let parent := NewNode combined (GetStartKey left) (GetEndKey right) in
  let parent := SetLeft left parent in
  let parent := SetRight right parent in
  let level := GetLevel left in
  let level := if level <? GetLevel right then GetLevel right else level in
  SetLevel (level + 1) parent.

(** One pass of the inner loop, [for i := 0; i < len(nodes); i += 2]. *)
Fixpoint nextLevel (nodes : list MerkleNode) : list MerkleNode :=
  match nodes with
  | l :: r :: rest => makeParent l r :: nextLevel rest
  | [last] => [last]
  | [] => []
  end.

(** The outer loop, [for len(nodes) > 1 { ...; nodes = nextLevel }], run
    for at most [fuel] passes. *)
Fixpoint levelsLoop (fuel : nat) (nodes : list MerkleNode) : list MerkleNode :=
  match fuel with
  | O => nodes
  | S fuel' =>
      if 1 <? len nodes then levelsLoop fuel' (nextLevel nodes) else nodes
  end.

(** [len(nodes)] passes always reach the loop's exit (see
    [levelsLoop_exits]); [nodes[0]] panics on an empty slice. *)
Definition buildTreeLevels (nodes : list MerkleNode) : result MerkleNode :=
  match levelsLoop (List.length nodes) nodes with
  | n :: _ => Ok n
  | [] => Panic "runtime error: index out of range [0] with length 0"%string
  end.

(** The leaf loop of [buildTreeFromRows]; the node builder's serializer is
    shared by all rows. *)
Fixpoint rowLeaves (rows : list Row) (nb : NodeBuilder)
  : list MerkleNode * NodeBuilder :=
  match rows with
  | [] => ([], nb)
  | row :: rest =>
      let (serializedValue, nb1) := SerializeRowValues (Values row) nb in
      let node := SetLevel 0 (NewNode serializedValue (Key row) (Key row)) in
      let (nodes, nb2) := rowLeaves rest nb1 in
      (node :: nodes, nb2)
  end.

Definition buildTreeFromRows (rows : list Row) (nb : NodeBuilder)
  : result MerkleNode * NodeBuilder :=
  if len rows =? 0 then (Ok Nil, nb)
  else
    let (nodes, nb') := rowLeaves rows nb in
    (buildTreeLevels nodes, nb').

(** fmt.Sprintf("chunk-%d", i) *)
Definition chunkKey (i : Z) : bytes :=
  bytes_of_string (String.append "chunk-"%string (itoa i)).

(** The leaf loop of [buildTreeFromChunks], from index [i] on. *)
Fixpoint chunkLeaves (i : Z) (chunks : list bytes) : list MerkleNode :=
  match chunks with
  | [] => []
  | chunk :: rest =>
      let key := chunkKey i in
      SetLevel 0 (NewNode chunk key key) :: chunkLeaves (i + 1) rest
  end.

Definition buildTreeFromChunks (chunks : list bytes) : result MerkleNode :=
  if len chunks =? 0 then Ok Nil
  else buildTreeLevels (chunkLeaves 0 chunks).

Definition result_map {A B : Type} (f : A -> B) (r : result A) : result B :=
  match r with Ok a => Ok (f a) | Panic e => Panic e end.

Definition NewMerkleTreeFromRows (rows : list Row) : result MerkleTree :=
  let nodeBuilder := NewNodeBuilder in
  let (root, nodeBuilder') := buildTreeFromRows rows nodeBuilder in
  result_map (fun r => mkMerkleTree r nodeBuilder') root.

Definition NewMerkleTreeFromChunks (chunks : list bytes) : result MerkleTree :=
  let root := buildTreeFromChunks chunks in
  result_map (fun r => mkMerkleTree r NewNodeBuilder) root.

(** The part of the [types.RowReader] interface the builder calls.  A
    reader is a value of some state type [R]; [Next] advances it. *)
Class RowReader (R : Type) : Type := {
  Next : R -> bool * R;
  CurrentRow : R -> Row;
  Err : R -> option error
}.

(** The loop [for r.Next() { ... nodes = append(nodes, node) }], run for at
    most [fuel] calls of [Next]; [None] when the reader has not reported
    the end of the rows by then.  A leaf takes the key slice of the
    reader's row as it is, without a copy: the model gives it the bytes
    the slice holds when the leaf is made and does not follow a reader
    that overwrites them afterwards. *)
Fixpoint readerLeaves {R : Type} `{RowReader R} (fuel : nat) (r : R)
  (nb : NodeBuilder) (nodes : list MerkleNode)
  : option (list MerkleNode * NodeBuilder * R) :=
  match fuel with
  | O => None
  | S fuel' =>
      let (more, r1) := Next r in
      if more then
        let row := CurrentRow r1 in
        let (serializedValue, nb1) := SerializeRowValues (Values row) nb in
        let node := SetLevel 0 (NewNode serializedValue (Key row) (Key row)) in
        readerLeaves fuel' r1 nb1 (nodes ++ [node])
      else Some (nodes, nb, r1)
  end.

(** BuildTreeFromReader returns a tree pointer and an error; both may
    be nil.  The reader is returned in the state the call leaves it in. *)
Definition BuildTreeFromReader {R : Type} `{RowReader R} (fuel : nat) (r : R)
  : option (result (option MerkleTree * option error) * R) :=
  let nodeBuilder := NewNodeBuilder in
  match readerLeaves fuel r nodeBuilder [] with
  | None => None
  | Some (nodes, nodeBuilder', r') =>
      match Err r' with
      | Some err => Some (Ok (None, Some err), r')
      | None =>
          if len nodes =? 0 then
            Some (Ok (Some (mkMerkleTree Nil nodeBuilder'), None), r')
          else
            Some (result_map (fun root => (Some (mkMerkleTree root nodeBuilder'), None))
                             (buildTreeLevels nodes), r')
      end
  end.

(** ** pkg/tree/diff.go *)

Definition DiffType := string.
Definition DiffTypeAdded : DiffType := "added"%string.
Definition DiffTypeRemoved : DiffType := "removed"%string.
Definition DiffTypeChanged : DiffType := "changed"%string.

Record KeyRange := mkKeyRange {
  KR_Start : bytes;
  KR_End : bytes;
  KR_Type : DiffType
}.

(** The trees of a diff are the results of the constructors above, never
    nil pointers. *)
Record Diff := mkDiff {
  treeA : MerkleTree;
  treeB : MerkleTree;
  ranges : list KeyRange
}.

Definition NewDiff (treeA treeB : MerkleTree) : Diff := mkDiff treeA treeB [].

Definition minKey (a b : bytes) : bytes :=
  if bytes_Compare a b <? 0 then a else b.

Definition maxKey (a b : bytes) : bytes :=
  if 0 <? bytes_Compare a b then a else b.

Fixpoint compareTreesRecursive (treeANode treeBNode : MerkleNode)
  (differences : list KeyRange) {struct treeANode} : list KeyRange :=
  match treeANode, treeBNode with
  | Nil, Nil => differences
  | Nil, Node _ _ _ _ _ _ =>
      (* only in B (added) *)
      differences ++ [mkKeyRange (GetStartKey treeBNode) (GetEndKey treeBNode) DiffTypeAdded]
  | Node _ _ _ _ _ _, Nil =>
      (* only in A (removed) *)
      differences ++ [mkKeyRange (GetStartKey treeANode) (GetEndKey treeANode) DiffTypeRemoved]
  | Node _ _ _ leftA rightA _, Node _ _ _ leftB rightB _ =>
      if bytes_Equal (GetHash treeANode) (GetHash treeBNode) then differences
      else if IsLeaf treeANode && IsLeaf treeBNode then
        differences ++ [mkKeyRange (GetStartKey treeANode) (GetEndKey treeANode) DiffTypeChanged]
      else if negb (Bool.eqb (IsLeaf treeANode) (IsLeaf treeBNode)) then
        differences ++ [mkKeyRange (minKey (GetStartKey treeANode) (GetStartKey treeBNode))
                                   (maxKey (GetEndKey treeANode) (GetEndKey treeBNode))
                                   DiffTypeChanged]
      else
        let differences := compareTreesRecursive leftA leftB differences in
        compareTreesRecursive rightA rightB differences
  end.

(** fmt.Errorf("chunk size mismatch: %d vs %d", a, b) *)
Definition chunkSizeMismatch (a b : Z) : error :=
  String.append "chunk size mismatch: "
    (String.append (itoa a) (String.append " vs " (itoa b))).

(** Compare has a pointer receiver and may panic: the model returns the
    outcome together with the receiver as the call leaves it.  A panic of
    GetChunkSize ends the call; the two calls in the panic message return
    what the two calls in the condition returned. *)
Definition Compare (d : Diff) : result unit * Diff :=
  match GetChunkSize (treeA d), GetChunkSize (treeB d) with
  | Panic e, _ => (Panic e, d)
  | Ok _, Panic e => (Panic e, d)
  | Ok sizeA, Ok sizeB =>
      if negb (sizeA =? sizeB) then
        (Panic (chunkSizeMismatch sizeA sizeB), d)
      else
        let differences :=
          compareTreesRecursive (GetRoot (treeA d)) (GetRoot (treeB d)) [] in
        (Ok tt, mkDiff (treeA d) (treeB d) differences)
  end.

Definition GetTreeA (d : Diff) : MerkleTree := treeA d.
Definition GetTreeB (d : Diff) : MerkleTree := treeB d.
Definition GetRanges (d : Diff) : list KeyRange := ranges d.

(** [NewDiff] followed by [Compare] on two freshly built trees; a panic of
    either build is passed on. *)
Definition diffTrees (a b : result MerkleTree) : result unit * list KeyRange :=
  match a, b with
  | Ok ta, Ok tb =>
      let (out, d) := Compare (NewDiff ta tb) in (out, GetRanges d)
  | Panic e, _ => (Panic e, [])
  | _, Panic e => (Panic e, [])
  end.

(** ** Auxiliary notions used to state the properties *)

(** A reader over an in-memory slice that reports [failure] once the rows
    are exhausted; it plays the part of the repository's CSV and Postgres
    readers in the examples. *)
Record SliceReader := mkSliceReader {
  pending : list Row;
  current : Row;
  failure : option error
}.

#[export] Instance SliceReader_RowReader : RowReader SliceReader := {
  Next r :=
    match pending r with
    | row :: rest => (true, mkSliceReader rest row (failure r))
    | [] => (false, r)
    end;
  CurrentRow r := current r;
  Err r := match pending r with [] => failure r | _ :: _ => None end
}.

(** [yields r rows r']: iterating [r] produces exactly [rows] and then
    [Next] returns false, leaving the reader in state [r']. *)
Inductive yields {R : Type} `{RowReader R} : R -> list Row -> R -> Prop :=
| yields_end (r r' : R) :
    Next r = (false, r') -> yields r [] r'
| yields_row (r r1 r' : R) (rows : list Row) :
    Next r = (true, r1) -> yields r1 rows r' ->
    yields r (CurrentRow r1 :: rows) r'.

(** [subnode m n]: [m] is [n] or a node below it. *)
Inductive subnode (m : MerkleNode) : MerkleNode -> Prop :=
| subnode_here h s e l r lv :
    m = Node h s e l r lv -> subnode m (Node h s e l r lv)
| subnode_left h s e l r lv :
    subnode m l -> subnode m (Node h s e l r lv)
| subnode_right h s e l r lv :
    subnode m r -> subnode m (Node h s e l r lv).

(** The node invariants of the data model, for one node. *)
Definition node_invariant (n : MerkleNode) : Prop :=
  match n with
  | Nil => False
  | Node h s e Nil Nil lv => lv = 0 /\ s = e
  | Node h s e (Node _ _ _ _ _ _ as l) (Node _ _ _ _ _ _ as r) lv =>
      h = Hash (GetHash l ++ GetHash r)
      /\ s = GetStartKey l
      /\ e = GetEndKey r
      /\ lv = 1 + Z.max (GetLevel l) (GetLevel r)
  | Node _ _ _ _ _ _ => False
  end.

(** A leaf as the builders make it. *)
Definition leafNode (payload key : bytes) : MerkleNode :=
  Node (Hash payload) key key Nil Nil 0.

(** A subtree is well formed when it is present and each of its nodes
    satisfies the node invariants. *)
Definition tree_invariant (n : MerkleNode) : Prop :=
  n <> Nil /\ forall m, subnode m n -> node_invariant m.

(** The leaf [buildTreeFromRows] and [BuildTreeFromReader] make for a row. *)
Definition rowLeaf (row : Row) : MerkleNode :=
  leafNode (fst (SerializeRow (Values row) NewSerializer)) (Key row).

Definition hex_digit (z : Z) : ascii :=
  ascii_of_nat (Z.to_nat (if z <? 10 then 48 + z else 87 + z)).

(** hex.EncodeToString *)
Fixpoint hex_EncodeToString (bs : bytes) : string :=
  match bs with
  | [] => EmptyString
  | b :: bs' =>
      String (hex_digit (byteZ b / 16))
        (String (hex_digit (byteZ b mod 16)) (hex_EncodeToString bs'))
  end.

(** A chunk given as a string literal, as in the repository's tests. *)
Definition chunk (s : string) : bytes := bytes_of_string s.

(** The repository's rows written as in its CSV tests. *)
Definition rowOf (key : string) (values : list Value) : Row :=
  mkRow (bytes_of_string key) values.

(** Inputs of the examples. *)
Definition sampleRows : list Row :=
  [ mkRow (bytes_of_string "k1") [VInt 1; VString (bytes_of_string "ann")];
    mkRow (bytes_of_string "k2") [VInt 2; VNil];
    mkRow (bytes_of_string "k3") [VBool true] ].

Definition failingReader : SliceReader :=
  mkSliceReader sampleRows (mkRow [] []) (Some "unexpected EOF"%string).

(** The childless nodes of a subtree, from left to right. *)
Fixpoint leaves (n : MerkleNode) : list MerkleNode :=
  match n with
  | Nil => []
  | Node _ _ _ Nil Nil _ => [n]
  | Node _ _ _ l r _ => leaves l ++ leaves r
  end.

(** The number of nodes of a subtree. *)
Fixpoint nodeCount (n : MerkleNode) : Z :=
  match n with
  | Nil => 0
  | Node _ _ _ l r _ => 1 + nodeCount l + nodeCount r
  end.

(** The first node of a level has level [k] and no node is above it. *)
Definition levelsBelow (k : Z) (nodes : list MerkleNode) : Prop :=
  GetLevel (hd Nil nodes) = k /\ Forall (fun n => GetLevel n <= k) nodes.

(** The kind a range gets when the two trees change places. *)
Definition swapType (t : DiffType) : DiffType :=
  if String.eqb t DiffTypeAdded then DiffTypeRemoved
  else if String.eqb t DiffTypeRemoved then DiffTypeAdded
  else t.

(** Two subtrees with the same branching. *)
Inductive sameShape : MerkleNode -> MerkleNode -> Prop :=
| sameShape_leaf ha sa ea lva hb sb eb lvb :
    sameShape (Node ha sa ea Nil Nil lva) (Node hb sb eb Nil Nil lvb)
| sameShape_node ha sa ea la ra lva hb sb eb lb rb lvb :
    sameShape la lb -> sameShape ra rb ->
    sameShape (Node ha sa ea la ra lva) (Node hb sb eb lb rb lvb).

(** [subseq l m]: [l] is [m] with some elements left out. *)
Inductive subseq {A : Type} : list A -> list A -> Prop :=
| subseq_nil : subseq [] []
| subseq_skip x l m : subseq l m -> subseq l (x :: m)
| subseq_take x l m : subseq l m -> subseq (x :: l) (x :: m).

(** The changed range of every position at which two leaf lists carry
    different hashes, in order. *)
Definition changedLeaves (la lb : list MerkleNode) : list KeyRange :=
  flat_map (fun p =>
              if bytes_Equal (GetHash (fst p)) (GetHash (snd p)) then []
              else [mkKeyRange (GetStartKey (fst p)) (GetEndKey (fst p)) DiffTypeChanged])
           (combine la lb).

(** The same for rows: the positions whose rows hash differently. *)
Definition changedRows (ra rb : list Row) : list KeyRange :=
  changedLeaves (map rowLeaf ra) (map rowLeaf rb).

(** The bytes one value adds to the buffer. *)
Definition encodeValue (v : Value) : bytes :=
  buf (snd (serializeValue v NewSerializer)).

(** Values as Go can hold them: integers within their width, float bit
    patterns within theirs, and strings and byte slices whose length fits
    the 4-byte length prefix. *)
Definition wfValue (v : Value) : Prop :=
  match v with
  | VNil | VBool _ | VTime _ => True
  | VString s | VBytes s | VOther s => len s < 2 ^ 32
  | VInt z | VInt64 z => - 2 ^ 63 <= z < 2 ^ 63
  | VInt32 z => - 2 ^ 31 <= z < 2 ^ 31
  | VFloat64 f => 0 <= bits64 f < 2 ^ 64
  | VFloat32 f => 0 <= bits32 f < 2 ^ 32
  end.

(** The time without monotonic reading and without location that has the
    same UnixNano. *)
Definition canonTime (t : Time) : Time :=
  mkTime (UnixNano t / 1000000000) (UnixNano t mod 1000000000) None [].

(** What the encoding keeps of a value: integers of the three widths with
    a case become 64-bit integers, a [float32] becomes the [float64] it
    converts to, a value of an unlisted type becomes its rendering as a
    string, and a time keeps its UnixNano only. *)
Definition canon (v : Value) : Value :=
  match v with
  | VInt z | VInt32 z => VInt64 z
  | VFloat64 f => VFloat64 (F64 (Float64bits f))
  | VFloat32 f => VFloat64 (F64 (Float64bits (float64_of_float32 f)))
  | VOther s => VString s
  | VTime t => VTime (canonTime t)
  | _ => v
  end.

(** ** internal/chunker.go *)

Record Chunker := mkChunker { chunkSize : Z }.

Definition NewChunker (chunkSize : Z) : Chunker := mkChunker chunkSize.

(** The slice expression [data[start:end]]; it panics unless
    [0 <= start <= end <= len(data)]. *)
Definition slice (data : bytes) (start end_ : Z) : result bytes :=
  if (0 <=? start) && (start <=? end_) && (end_ <=? len data)
  then Ok (firstn (Z.to_nat (end_ - start)) (skipn (Z.to_nat start) data))
  else Panic "runtime error: slice bounds out of range"%string.

(** The loop [for i := range chunks], from index [i] on, for [n] more
    chunks. *)
Fixpoint chunkLoop (c : Chunker) (data : bytes) (i : Z) (n : nat)
  : result (list bytes) :=
  match n with
  | O => Ok []
  | S n' =>
      let start := Z.min (wrap64 (i * chunkSize c)) (len data) in
      let end_ := Z.min (wrap64 (start + chunkSize c)) (len data) in
      match slice data start end_ with
      | Panic e => Panic e
      | Ok ch =>
          match chunkLoop c data (i + 1) n' with
          | Panic e => Panic e
          | Ok rest => Ok (ch :: rest)
          end
      end
  end.

Definition Chunk (c : Chunker) (data : bytes) : result (list bytes) :=
  if len data =? 0 then Ok []
  else if chunkSize c <=? 0 then Ok [data]
  else
    let chunkCount :=
      Z.quot (wrap64 (wrap64 (len data + chunkSize c) - 1)) (chunkSize c) in
    if chunkCount <? 0 then Panic "runtime error: makeslice: len out of range"%string
    else chunkLoop c data 0 (Z.to_nat chunkCount).

(** The [j]-th window of [cs] bytes of the data. *)
Definition window (cs : nat) (data : bytes) (j : nat) : bytes :=
  firstn cs (skipn (j * cs) data).

(** ** pkg/reader: CollectRows *)



(** ** internal/tree/builder.go: StreamingBuilder *)

Record LeafData := mkLeafData { LD_Key : bytes; LD_SerializedData : bytes }.

Record StreamingBuilder := mkStreamingBuilder {
  SB_serializer : Serializer;
  SB_batchSize : Z;
  SB_leaves : list LeafData
}.

Definition NewStreamingBuilder (batchSize : Z) : StreamingBuilder :=
  let batchSize := if batchSize <=? 0 then 1000 else batchSize in
  mkStreamingBuilder NewSerializer batchSize [].

Definition AddRow (row : Row) (b : StreamingBuilder) : StreamingBuilder :=
  let (serializedValue, s) := SerializeRow (Values row) (SB_serializer b) in
  mkStreamingBuilder s (SB_batchSize b)
                     (SB_leaves b ++ [mkLeafData (Key row) serializedValue]).

Definition GetLeaves (b : StreamingBuilder) : list LeafData := SB_leaves b.
Definition GetSerializer (b : StreamingBuilder) : Serializer := SB_serializer b.

(** Rows of the examples: two snapshots that differ in the second row. *)
Definition snapshotA : list Row :=
  [ rowOf "id1" [VInt 1; VString (bytes_of_string "ann")];
    rowOf "id2" [VInt 2; VString (bytes_of_string "bob")];
    rowOf "id3" [VInt 3; VString (bytes_of_string "cy")] ].

Definition snapshotB : list Row :=
  [ rowOf "id1" [VInt 1; VString (bytes_of_string "ann")];
    rowOf "id2" [VInt 2; VString (bytes_of_string "rob")];
    rowOf "id3" [VInt 3; VString (bytes_of_string "cy")] ].

(** ** pkg/types: schema *)

Inductive ColumnType : Type :=
| ColumnTypeUnknown
| ColumnTypeString
| ColumnTypeInt
| ColumnTypeFloat
| ColumnTypeBool
| ColumnTypeBytes
| ColumnTypeTimestamp.

Record Column := mkColumn { Col_Name : bytes; Col_Type : ColumnType }.

Record Schema := mkSchema { Columns : list Column; KeyColumns : list Z }.

(** ** cmd/merklediff/main.go: from ranges to changes *)

(** A Go map with string keys, as the list of its bindings, each key once.
    Ranging over a map visits the bindings in an order Go leaves open; the
    order of the list stands for one such order. *)
Definition GoMap (V : Type) : Type := list (bytes * V).

(** [v, ok := m[k]] *)
Fixpoint mapGet {V : Type} (m : GoMap V) (k : bytes) : option V :=
  match m with
  | [] => None
  | (k', v) :: m' => if bytes_Equal k' k then Some v else mapGet m' k
  end.

(** [m[k] = v] *)
Fixpoint mapSet {V : Type} (m : GoMap V) (k : bytes) (v : V) : GoMap V :=
  match m with
  | [] => [(k, v)]
  | (k', v') :: m' =>
      if bytes_Equal k' k then (k, v) :: m' else (k', v') :: mapSet m' k v
  end.

(** [m[k]] for a [map[string]bool]: false when the key is absent. *)
Definition mapBool (m : GoMap bool) (k : bytes) : bool :=
  match mapGet m k with Some b => b | None => false end.

Definition mapKeys {V : Type} (m : GoMap V) : list bytes := map fst m.

(** sort.Strings and sort.Slice with a comparison of string keys, as an
    insertion sort.  Go's sort is not stable; the slices sorted below never
    hold two elements with the same key, so that the sorted slice is the
    same. *)
Fixpoint insertSorted {A : Type} (key : A -> bytes) (x : A) (l : list A) : list A :=
  match l with
  | [] => [x]
  | y :: l' =>
      if bytes_Compare (key x) (key y) <? 0 then x :: y :: l'
      else y :: insertSorted key x l'
  end.

Definition sortByKey {A : Type} (key : A -> bytes) (l : list A) : list A :=
  fold_right (insertSorted key) [] l.

Definition toTreeRows (rows : list Row) : list Row :=
  map (fun r => mkRow (Key r) (Values r)) rows.

Definition buildRowMap (rows : list Row) : GoMap Row :=
  fold_left (fun m r => mapSet m (Key r) r) rows [].

(** [k >= start && k <= end] on strings *)
Definition inKeyRange (start end_ k : bytes) : bool :=
  (0 <=? bytes_Compare k start) && (bytes_Compare k end_ <=? 0).

(** One iteration of the two loops of keysInRange, on the pair of [keys]
    and [seen]. *)
Definition keysInRange_step (start end_ : bytes)
  (st : list bytes * GoMap bool) (k : bytes) : list bytes * GoMap bool :=
  let (keys, seen) := st in
  if inKeyRange start end_ k && negb (mapBool seen k)
  then (keys ++ [k], mapSet seen k true)
  else st.

Definition keysInRange (start end_ : bytes) (mapA mapB : GoMap Row) : list bytes :=
  let st := fold_left (keysInRange_step start end_) (mapKeys mapA) ([], []) in
  let st := fold_left (keysInRange_step start end_) (mapKeys mapB) st in
  sortByKey (fun k => k) (fst st).

Record Field := mkField { From : Value; To : Value }.

Record Change := mkChange {
  Ch_Type : string;
  Ch_Key : bytes;
  Ch_Fields : GoMap Field;
  Ch_Values : list Value
}.

(** rowsEqual and fieldDiff compare values by [fmt.Sprintf("%v", v)],
    which is the parameter [render]. *)
Fixpoint valuesEqual (render : Value -> bytes) (va vb : list Value) : bool :=
  match va, vb with
  | x :: va', y :: vb' =>
      if negb (bytes_Equal (render x) (render y)) then false
      else valuesEqual render va' vb'
  | _, _ => true
  end.

Definition rowsEqual (render : Value -> bytes) (a b : Row) : bool :=
  if negb (len (Values a) =? len (Values b)) then false
  else valuesEqual render (Values a) (Values b).

(** fmt.Sprintf("col%d", i) *)
Definition colName (i : Z) : bytes :=
  bytes_of_string (String.append "col"%string (itoa i)).

Fixpoint fieldDiffLoop (render : Value -> bytes) (schema : Schema) (i : Z)
  (va vb : list Value) (fields : GoMap Field) : GoMap Field :=
  match va, vb with
  | x :: va', y :: vb' =>
      let fields :=
        if negb (bytes_Equal (render x) (render y)) then
          let name :=
            if i <? len (Columns schema)
            then Col_Name (nth (Z.to_nat i) (Columns schema) (mkColumn [] ColumnTypeUnknown))
            else colName i in
          mapSet fields name (mkField x y)
        else fields in
      fieldDiffLoop render schema (i + 1) va' vb' fields
  | _, _ => fields
  end.

Definition fieldDiff (render : Value -> bytes) (schema : Schema) (a b : Row)
  : GoMap Field :=
  fieldDiffLoop render schema 0 (Values a) (Values b) [].

(** The body of the inner loop of collectChanges, on the pair of
    [processed] and [changes]. *)
Definition collectChanges_key (render : Value -> bytes) (schema : Schema)
  (mapA mapB : GoMap Row) (st : GoMap bool * list Change) (key : bytes)
  : GoMap bool * list Change :=
  let (processed, changes) := st in
  if mapBool processed key then st
  else
    let processed := mapSet processed key true in
    match mapGet mapA key, mapGet mapB key with
    | None, Some rowB =>
        (processed, changes ++ [mkChange "added" key [] (Values rowB)])
    | Some rowA, None =>
        (processed, changes ++ [mkChange "removed" key [] (Values rowA)])
    | Some rowA, Some rowB =>
        if negb (rowsEqual render rowA rowB)
        then (processed,
              changes ++ [mkChange "changed" key (fieldDiff render schema rowA rowB) []])
        else (processed, changes)
    | None, None => (processed, changes)
    end.

Definition collectChanges_range (render : Value -> bytes) (schema : Schema)
  (mapA mapB : GoMap Row) (st : GoMap bool * list Change) (r : KeyRange)
  : GoMap bool * list Change :=
  fold_left (collectChanges_key render schema mapA mapB)
            (keysInRange (KR_Start r) (KR_End r) mapA mapB) st.

(** The loops over the keys only in B and only in A. *)
Definition collectChanges_only (kind : string) (processed : GoMap bool)
  (other : GoMap Row) (changes : list Change) (binding : bytes * Row) : list Change :=
  let (key, row) := binding in
  if negb (mapBool processed key) then
    match mapGet other key with
    | None => changes ++ [mkChange kind key [] (Values row)]
    | Some _ => changes
    end
  else changes.

Definition collectChanges (render : Value -> bytes) (ranges : list KeyRange)
  (mapA mapB : GoMap Row) (schema : Schema) : list Change :=
  let (processed, changes) :=
    fold_left (collectChanges_range render schema mapA mapB) ranges ([], []) in
  let changes := fold_left (collectChanges_only "added" processed mapA) mapB changes in
  let changes := fold_left (collectChanges_only "removed" processed mapB) mapA changes in
  sortByKey Ch_Key changes.

Record DiffSummary := mkDiffSummary {
  Added : Z; Removed : Z; Changed : Z; Total : Z
}.

Definition summarize_step (s : DiffSummary) (c : Change) : DiffSummary :=
  if String.eqb (Ch_Type c) "added" then mkDiffSummary (Added s + 1) (Removed s) (Changed s) (Total s)
  else if String.eqb (Ch_Type c) "removed" then mkDiffSummary (Added s) (Removed s + 1) (Changed s) (Total s)
  else if String.eqb (Ch_Type c) "changed" then mkDiffSummary (Added s) (Removed s) (Changed s + 1) (Total s)
  else s.

Definition summarize (changes : list Change) : DiffSummary :=
  let s := fold_left summarize_step changes (mkDiffSummary 0 0 0 0) in
  mkDiffSummary (Added s) (Removed s) (Changed s) (Added s + Removed s + Changed s).

(** The change the switch of collectChanges makes for a key, if any. *)
Definition changeFor (render : Value -> bytes) (schema : Schema)
  (mapA mapB : GoMap Row) (key : bytes) : option Change :=
  match mapGet mapA key, mapGet mapB key with
  | None, Some rowB => Some (mkChange "added" key [] (Values rowB))
  | Some rowA, None => Some (mkChange "removed" key [] (Values rowA))
  | Some rowA, Some rowB =>
      if negb (rowsEqual render rowA rowB)
      then Some (mkChange "changed" key (fieldDiff render schema rowA rowB) [])
      else None
  | None, None => None
  end.

(** Whether a key lies in one of the ranges, in string order. *)
Definition inSomeRange (ranges : list KeyRange) (k : bytes) : bool :=
  existsb (fun r => inKeyRange (KR_Start r) (KR_End r) k) ranges.

(** Strictly ascending keys. *)
Definition keyLt {A : Type} (key : A -> bytes) (x y : A) : Prop :=
  bytes_Compare (key x) (key y) < 0.

Definition optList {A : Type} (o : option A) : list A :=
  match o with Some x => [x] | None => [] end.

(** What one iteration of the loops over the keys only in B and only in A
    appends. *)
Definition onlyChange (kind : string) (processed : GoMap bool)
  (other : GoMap Row) (binding : bytes * Row) : list Change :=
  if negb (mapBool processed (fst binding)) then
    match mapGet other (fst binding) with
    | None => [mkChange kind (fst binding) [] (Values (snd binding))]
    | Some _ => []
    end
  else [].

(** The invariant of the loop over the ranges: every change belongs to a
    processed key and is the change of that key, no key has two changes,
    and no processed key misses its change. *)
Definition changesInv (render : Value -> bytes) (schema : Schema)
  (mapA mapB : GoMap Row) (st : GoMap bool * list Change) : Prop :=
  (forall c, In c (snd st) ->
     mapBool (fst st) (Ch_Key c) = true
     /\ changeFor render schema mapA mapB (Ch_Key c) = Some c)
  /\ NoDup (map Ch_Key (snd st))
  /\ (forall k c, mapBool (fst st) k = true ->
        changeFor render schema mapA mapB k = Some c -> In c (snd st)).

(** The part of DiffResult that is computed from the rows. *)
Record DiffResult := mkDiffResult {
  RowCountA : Z;
  RowCountB : Z;
  Identical : bool;
  Changes : list Change;
  Summary : DiffSummary
}.

(** runDiff and runPostgresDiff between CollectRows and the output: build
    the trees, compare them, collect the changes.  A panic of Compare ends
    the command. *)
Definition diffRows (render : Value -> bytes) (schemaA : Schema)
  (rowsA rowsB : list Row) : result DiffResult :=
  match NewMerkleTreeFromRows (toTreeRows rowsA),
        NewMerkleTreeFromRows (toTreeRows rowsB) with
  | Ok treeA, Ok treeB =>
      let diff := NewDiff treeA treeB in
      let (out, diff) := Compare diff in
      match out with
      | Panic e => Panic e
      | Ok _ =>
          let rowMapA := buildRowMap rowsA in
          let rowMapB := buildRowMap rowsB in
          let changes := collectChanges render (GetRanges diff) rowMapA rowMapB schemaA in
          Ok (mkDiffResult (len rowsA) (len rowsB) (len changes =? 0) changes
                           (summarize changes))
      end
  | Panic e, _ => Panic e
  | _, Panic e => Panic e
  end.

(** The length of the first key of a row list, 0 for no rows: the chunk
    size of the tree built from it. *)
Definition firstKeyLen (rows : list Row) : Z :=
  match rows with [] => 0 | r :: _ => len (Key r) end.

(** A rendering of values for the examples: text as it is, integers in
    decimal. *)
Definition renderSample (v : Value) : bytes :=
  match v with
  | VString s => s
  | VInt n => bytes_of_string (itoa n)
  | VInt64 n => bytes_of_string (itoa n)
  | VOther s => s
  | _ => []
  end.

(** The three values of Change.Type. *)
Definition knownType (c : Change) : Prop :=
  Ch_Type c = "added"%string \/ Ch_Type c = "removed"%string \/ Ch_Type c = "changed"%string.

(** The schema of the snapshots of the examples. *)
Definition sampleSchema : Schema :=
  mkSchema [mkColumn (bytes_of_string "id") ColumnTypeInt;
            mkColumn (bytes_of_string "name") ColumnTypeString] [0].

(** A subtree without its keys: its shape, its hashes and its levels. *)
Fixpoint eraseKeys (n : MerkleNode) : MerkleNode :=
  match n with
  | Nil => Nil
  | Node h _ _ l r lv => Node h [] [] (eraseKeys l) (eraseKeys r) lv
  end.

Arguments Hash : simpl never.

(** ** Sanity checks of the embedding *)

(** 1.5 and the smallest subnormal, widened from binary32 to binary64. *)
Example float32_widening :
  float64_of_float32 (F32 0x3fc00000) = F64 0x3ff8000000000000
  /\ float64_of_float32 (F32 0x00000001) = F64 0x36a0000000000000
  /\ float64_of_float32 (F32 0xff800000) = F64 0xfff0000000000000.
Proof. repeat split. Qed.

Example sha256_constants :
  nth 0 SHA256.K 0 = 0x428a2f98 /\ nth 63 SHA256.K 0 = 0xc67178f2
  /\ List.length SHA256.K = 64%nat
  /\ nth 0 SHA256.H0 0 = 0x6a09e667 /\ nth 7 SHA256.H0 0 = 0x5be0cd19.
Proof. repeat split. Qed.

Example sha256_abc :
  hex_EncodeToString (Hash (bytes_of_string "abc"))
  = "ba7816bf8f01cfea414140de5dae2223b00361a396177a9cb410ff61f20015ad"%string.
Proof. vm_compute. reflexivity. Qed.

Example sha256_empty :
  hex_EncodeToString (Hash [])
  = "e3b0c44298fc1c149afbf4c8996fb92427ae41e4649b934ca495991b7852b855"%string.
Proof. vm_compute. reflexivity. Qed.

(** A 56-byte message, which needs a second block for the padding. *)
Example sha256_two_blocks :
  hex_EncodeToString
    (Hash (bytes_of_string "abcdbcdecdefdefgefghfghighijhijkijkljklmklmnlmnomnopnopq"))
  = "248d6a61d20638b8e5c026930c3e6039a33ce45964ff2167f6ecedd419db06c1"%string.
Proof. vm_compute. reflexivity. Qed.

(** TestGetChunkSize_FromTree *)
Example chunk_size_from_tree :
  match NewMerkleTreeFromChunks [chunk "a"; chunk "b"] with
  | Ok t => GetChunkSize t
  | Panic e => Panic e
  end = Ok 7.
Proof. vm_compute. reflexivity. Qed.

(** TestDiff_ChangedLeaf *)
Example diff_changed_leaf :
  diffTrees (NewMerkleTreeFromChunks [chunk "a"; chunk "b"])
            (NewMerkleTreeFromChunks [chunk "a"; chunk "x"])
  = (Ok tt, [mkKeyRange (chunk "chunk-1") (chunk "chunk-1") DiffTypeChanged]).
Proof. vm_compute. reflexivity. Qed.

(** TestDiff_StructurallyDifferentTrees *)
Example diff_structurally_different :
  diffTrees (NewMerkleTreeFromChunks [chunk "a"])
            (NewMerkleTreeFromChunks [chunk "a"; chunk "b"])
  = (Ok tt, [mkKeyRange (chunk "chunk-0") (chunk "chunk-1") DiffTypeChanged]).
Proof. vm_compute. reflexivity. Qed.

(** TestDiff_ImbalancedTrees_OneSideDeeper *)
Example diff_one_side_deeper :
  diffTrees (NewMerkleTreeFromChunks [chunk "a"; chunk "b"; chunk "c"])
            (NewMerkleTreeFromChunks [chunk "a"; chunk "b"; chunk "x"])
  = (Ok tt, [mkKeyRange (chunk "chunk-2") (chunk "chunk-2") DiffTypeChanged]).
Proof. vm_compute. reflexivity. Qed.

(** ** Byte-slice equality *)

Lemma bytes_Equal_refl (a : bytes) : bytes_Equal a a = true.
Proof.
  induction a as [|x a IH]; simpl; [reflexivity|].
  rewrite Byte.byte_dec_lb by reflexivity. exact IH.
Qed.

Lemma bytes_Equal_eq (a b : bytes) : bytes_Equal a b = true -> a = b.
Proof.
  revert b. induction a as [|x a IH]; intros [|y b] E; simpl in E;
    try discriminate; [reflexivity|].
  apply andb_true_iff in E. destruct E as [Exy Eab].
  apply Byte.byte_dec_bl in Exy. apply IH in Eab. congruence.
Qed.

Lemma bytes_Equal_neq (a b : bytes) : a <> b -> bytes_Equal a b = false.
Proof.
  intros N. destruct (bytes_Equal a b) eqn:E; [|reflexivity].
  exfalso. apply N. now apply bytes_Equal_eq.
Qed.

(** ** Serializer *)

Lemma SerializeRow_resets (values : list Value) (s : Serializer) :
  SerializeRow values s = SerializeRow values NewSerializer.
Proof. reflexivity. Qed.

Lemma SerializeRowValues_fresh (values : list Value) (nb : NodeBuilder) :
  fst (SerializeRowValues values nb) = fst (SerializeRow values NewSerializer).
Proof.
  unfold SerializeRowValues. rewrite (SerializeRow_resets values (NB_Serializer nb)).
  destruct (SerializeRow values NewSerializer). reflexivity.
Qed.

(** C6: for every list of values and every state the serializer may be in,
    SerializeRow returns the bytes a fresh serializer returns; in particular
    a second call on the serializer left by the first call returns the same
    bytes as the first. *)
Theorem SerializeRow_deterministic (values : list Value) (s1 s2 : Serializer) :
  fst (SerializeRow values s1) = fst (SerializeRow values s2)
  /\ fst (SerializeRow values (snd (SerializeRow values s1)))
     = fst (SerializeRow values s1)
  /\ fst (SerializeRow values s1) = fst (SerializeRow values NewSerializer).
Proof.
  split; [|split].
  - now rewrite (SerializeRow_resets values s1), (SerializeRow_resets values s2).
  - now rewrite (SerializeRow_resets values (snd (SerializeRow values s1))),
      (SerializeRow_resets values s1).
  - now rewrite (SerializeRow_resets values s1).
Qed.

(** C7, evaluated: the integer 1 held as an int, an int64 or an int32 is
    serialized as tag 2 and its 8-byte big-endian value, and the text "1"
    as tag 1, a 4-byte big-endian length and its byte, so these differ; the
    integer 1 held as an int16, or as any other integer type the switch
    has no case for, takes the default branch and is serialized to the very
    bytes of the text "1", as every such integer is to the bytes of its
    decimal text. *)
Theorem serialize_integer_1_against_text (s : Serializer) :
  fst (SerializeRow [VInt 1] s) = [x02; x00; x00; x00; x00; x00; x00; x00; x01]
  /\ fst (SerializeRow [VInt64 1] s) = [x02; x00; x00; x00; x00; x00; x00; x00; x01]
  /\ fst (SerializeRow [VInt32 1] s) = [x02; x00; x00; x00; x00; x00; x00; x00; x01]
  /\ fst (SerializeRow [VString (bytes_of_string "1")] s)
     = [x01; x00; x00; x00; x01; x31]
  /\ fst (SerializeRow [VInt 1] s)
     <> fst (SerializeRow [VString (bytes_of_string "1")] s)
  /\ fst (SerializeRow [VInt16 1] s) = [x01; x00; x00; x00; x01; x31]
  /\ fst (SerializeRow [VInt16 1] s)
     = fst (SerializeRow [VString (bytes_of_string "1")] s)
  /\ (forall n : Z,
        fst (SerializeRow [VInt16 n] s)
        = fst (SerializeRow [VString (bytes_of_string (itoa n))] s)).
Proof.
  rewrite !(SerializeRow_resets _ s).
  split; [vm_compute; reflexivity|]. split; [vm_compute; reflexivity|].
  split; [vm_compute; reflexivity|]. split; [vm_compute; reflexivity|].
  split; [vm_compute; discriminate|]. split; [vm_compute; reflexivity|].
  split; [vm_compute; reflexivity|].
  intros n. rewrite !(SerializeRow_resets _ s). reflexivity.
Qed.

(** ** The level-by-level reduction *)

Lemma list_pair_ind {A : Type} (P : list A -> Prop) :
  P [] -> (forall x, P [x]) -> (forall x y l, P l -> P (x :: y :: l)) ->
  forall l, P l.
Proof.
  intros H0 H1 H2.
  assert (both : forall l, P l /\ forall x, P (x :: l)).
  { induction l as [|y l [IHl IHyl]]; split; auto. }
  intro l. apply both.
Qed.

Lemma nextLevel_length (nodes : list MerkleNode) :
  List.length (nextLevel nodes) = Nat.div2 (S (List.length nodes)).
Proof.
  induction nodes as [|x|x y l IH] using list_pair_ind; simpl in *; auto.
Qed.

Lemma div2_S_shrinks (n : nat) : (2 <= n)%nat -> (Nat.div2 (S n) < n)%nat.
Proof.
  intros Hn. pose proof (Nat.div2_odd (S n)) as E.
  destruct (Nat.odd (S n)); simpl Nat.b2n in E; lia.
Qed.

Lemma nextLevel_nonempty (nodes : list MerkleNode) :
  nodes <> [] -> nextLevel nodes <> [].
Proof.
  destruct nodes as [|x [|y l]]; simpl; intros H; try discriminate.
  now elim H.
Qed.

Lemma levelsLoop_nonempty (fuel : nat) (nodes : list MerkleNode) :
  nodes <> [] -> levelsLoop fuel nodes <> [].
Proof.
  revert nodes. induction fuel as [|fuel IH]; simpl; intros nodes H; [exact H|].
  destruct (1 <? len nodes); [|exact H].
  apply IH. now apply nextLevel_nonempty.
Qed.

(** The outer loop terminates: [len(nodes)] passes are enough to bring the
    slice down to at most one node. *)
Lemma levelsLoop_exits (fuel : nat) (nodes : list MerkleNode) :
  (List.length nodes <= fuel)%nat ->
  (List.length (levelsLoop fuel nodes) <= 1)%nat.
Proof.
  revert nodes. induction fuel as [|fuel IH]; simpl; intros nodes Hlen.
  - lia.
  - unfold len. destruct (Z.ltb_spec 1 (Z.of_nat (List.length nodes))) as [Hgt|Hle].
    + apply IH. rewrite nextLevel_length.
      assert (2 <= List.length nodes)%nat by lia.
      pose proof (div2_S_shrinks (List.length nodes)). lia.
    + lia.
Qed.

(** More fuel than needed does not change the outcome. *)
Lemma levelsLoop_done (fuel : nat) (nodes : list MerkleNode) :
  (List.length nodes <= 1)%nat -> levelsLoop fuel nodes = nodes.
Proof.
  intros H. destruct fuel; simpl; [reflexivity|].
  unfold len. destruct (Z.ltb_spec 1 (Z.of_nat (List.length nodes))); [lia|reflexivity].
Qed.

Lemma buildTreeLevels_returns (nodes : list MerkleNode) :
  nodes <> [] ->
  exists n, buildTreeLevels nodes = Ok n
            /\ levelsLoop (List.length nodes) nodes = [n].
Proof.
  intros Hne. unfold buildTreeLevels.
  pose proof (levelsLoop_exits (List.length nodes) nodes (le_n _)) as Hexit.
  pose proof (levelsLoop_nonempty (List.length nodes) nodes Hne) as Hnonempty.
  destruct (levelsLoop (List.length nodes) nodes) as [|n [|n' rest]].
  - now elim Hnonempty.
  - exists n. split; reflexivity.
  - simpl in Hexit. lia.
Qed.

(** ** Node invariants *)

Lemma leaf_invariant (payload key : bytes) :
  tree_invariant (SetLevel 0 (NewNode payload key key)).
Proof.
  split; [discriminate|]. simpl. intros m Hm.
  inversion Hm as [? ? ? ? ? ? E|? ? ? ? ? ? Hsub|? ? ? ? ? ? Hsub]; subst.
  - simpl. split; reflexivity.
  - inversion Hsub.
  - inversion Hsub.
Qed.

Lemma makeParent_invariant (l r : MerkleNode) :
  tree_invariant l -> tree_invariant r -> tree_invariant (makeParent l r).
Proof.
  intros [Hl Hsl] [Hr Hsr].
  destruct l as [|hl sl el ll rl lvl]; [now elim Hl|].
  destruct r as [|hr sr er lr rr lvr]; [now elim Hr|].
  split; [discriminate|]. unfold makeParent. simpl.
  intros m Hm.
  inversion Hm as [? ? ? ? ? ? E|? ? ? ? ? ? Hsub|? ? ? ? ? ? Hsub]; subst.
  - cbn [node_invariant GetHash GetStartKey GetEndKey GetLevel].
    repeat split. destruct (Z.ltb_spec lvl lvr); lia.
  - now apply Hsl.
  - now apply Hsr.
Qed.

Lemma nextLevel_invariant (nodes : list MerkleNode) :
  Forall tree_invariant nodes -> Forall tree_invariant (nextLevel nodes).
Proof.
  induction nodes as [|x|x y l IH] using list_pair_ind; simpl; intros H; auto.
  inversion H as [|? ? Hx Hrest]; subst.
  inversion Hrest as [|? ? Hy Hl]; subst.
  constructor; [now apply makeParent_invariant | now apply IH].
Qed.

Lemma levelsLoop_invariant (fuel : nat) (nodes : list MerkleNode) :
  Forall tree_invariant nodes -> Forall tree_invariant (levelsLoop fuel nodes).
Proof.
  revert nodes. induction fuel as [|fuel IH]; simpl; intros nodes H; [exact H|].
  destruct (1 <? len nodes); [|exact H].
  apply IH. now apply nextLevel_invariant.
Qed.

Lemma buildTreeLevels_invariant (nodes : list MerkleNode) (n : MerkleNode) :
  Forall tree_invariant nodes -> buildTreeLevels nodes = Ok n -> tree_invariant n.
Proof.
  intros H. unfold buildTreeLevels.
  pose proof (levelsLoop_invariant (List.length nodes) nodes H) as Hall.
  destruct (levelsLoop (List.length nodes) nodes) as [|n' rest]; [discriminate|].
  intros E. injection E as <-. now inversion Hall.
Qed.

(** ** Leaves *)

Lemma rowLeaves_map (rows : list Row) (nb : NodeBuilder) :
  fst (rowLeaves rows nb) = map rowLeaf rows.
Proof.
  revert nb. induction rows as [|row rest IH]; intros nb; simpl; [reflexivity|].
  pose proof (SerializeRowValues_fresh (Values row) nb) as Hser.
  destruct (SerializeRowValues (Values row) nb) as [ser nb1]. simpl in Hser.
  specialize (IH nb1). destruct (rowLeaves rest nb1) as [nodes nb2].
  simpl in *. subst. reflexivity.
Qed.

Lemma rowLeaf_invariant (row : Row) : tree_invariant (rowLeaf row).
Proof. apply (leaf_invariant _ (Key row)). Qed.

Lemma rowLeaves_invariant (rows : list Row) :
  Forall tree_invariant (map rowLeaf rows).
Proof.
  induction rows; simpl; constructor; auto using rowLeaf_invariant.
Qed.

Lemma chunkLeaves_invariant (chunks : list bytes) (i : Z) :
  Forall tree_invariant (chunkLeaves i chunks).
Proof.
  revert i. induction chunks as [|c rest IH]; intros i; simpl; constructor.
  - apply leaf_invariant.
  - apply IH.
Qed.

Lemma chunkLeaves_length (chunks : list bytes) (i : Z) :
  List.length (chunkLeaves i chunks) = List.length chunks.
Proof. revert i. induction chunks; intros i; simpl; auto. Qed.

Lemma len_zero_nil {A : Type} (l : list A) : (len l =? 0) = true -> l = [].
Proof.
  destruct l; [reflexivity|]. unfold len. simpl List.length.
  intros E. apply Z.eqb_eq in E. lia.
Qed.

Lemma len_pos_cons {A : Type} (l : list A) : (len l =? 0) = false -> l <> [].
Proof. intros E ->. discriminate. Qed.

(** Building from rows never panics, and the root is the reduction of the
    row leaves. *)
Lemma NewMerkleTreeFromRows_returns (rows : list Row) :
  exists t, NewMerkleTreeFromRows rows = Ok t
    /\ (rows = [] -> GetRoot t = Nil)
    /\ (rows <> [] -> buildTreeLevels (map rowLeaf rows) = Ok (GetRoot t)).
Proof.
  unfold NewMerkleTreeFromRows, buildTreeFromRows.
  destruct (len rows =? 0) eqn:E.
  - apply len_zero_nil in E. subst. eexists. split; [reflexivity|].
    split; [reflexivity|]. intros H. now elim H.
  - apply len_pos_cons in E.
    pose proof (rowLeaves_map rows NewNodeBuilder) as Hmap.
    destruct (rowLeaves rows NewNodeBuilder) as [nodes nb']. simpl in Hmap. subst nodes.
    destruct (buildTreeLevels_returns (map rowLeaf rows)) as [n [Hn _]].
    { destruct rows; [now elim E | discriminate]. }
    rewrite Hn. eexists. split; [reflexivity|].
    split; [intros ->; now elim E | reflexivity].
Qed.

Lemma NewMerkleTreeFromChunks_returns (chunks : list bytes) :
  exists t, NewMerkleTreeFromChunks chunks = Ok t
    /\ (chunks = [] -> GetRoot t = Nil)
    /\ (chunks <> [] -> buildTreeLevels (chunkLeaves 0 chunks) = Ok (GetRoot t)).
Proof.
  unfold NewMerkleTreeFromChunks, buildTreeFromChunks.
  destruct (len chunks =? 0) eqn:E.
  - apply len_zero_nil in E. subst. eexists. split; [reflexivity|].
    split; [reflexivity|]. intros H. now elim H.
  - apply len_pos_cons in E.
    destruct (buildTreeLevels_returns (chunkLeaves 0 chunks)) as [n [Hn _]].
    { destruct chunks; [now elim E | discriminate]. }
    rewrite Hn. eexists. split; [reflexivity|].
    split; [intros ->; now elim E | reflexivity].
Qed.

(** ** Building from a reader *)

Lemma readerLeaves_yields {R : Type} `{RowReader R} (r r' : R) (rows : list Row) :
  yields r rows r' ->
  forall fuel nb nodes, (List.length rows < fuel)%nat ->
  exists nb', readerLeaves fuel r nb nodes = Some (nodes ++ map rowLeaf rows, nb', r').
Proof.
  induction 1 as [r r' Hend | r r1 r' rows Hnext Hrest IH];
    intros fuel nb nodes Hfuel.
  - destruct fuel as [|fuel]; [simpl in Hfuel; lia|].
    simpl. rewrite Hend. exists nb. now rewrite app_nil_r.
  - destruct fuel as [|fuel]; [simpl in Hfuel; lia|].
    simpl. rewrite Hnext.
    pose proof (SerializeRowValues_fresh (Values (CurrentRow r1)) nb) as Hser.
    destruct (SerializeRowValues (Values (CurrentRow r1)) nb) as [ser nb1].
    simpl in Hser. subst ser.
    destruct (IH fuel nb1 (nodes ++ [rowLeaf (CurrentRow r1)])) as [nb' Hnb'].
    { simpl in Hfuel. lia. }
    exists nb'. simpl map. unfold rowLeaf in *.
    unfold leafNode in *. simpl in Hnb'. simpl.
    rewrite Hnb'. now rewrite <- app_assoc.
Qed.

Lemma readerLeaves_invariant {R : Type} `{RowReader R} (fuel : nat) :
  forall (r : R) nb nodes nodes' nb' r',
  Forall tree_invariant nodes ->
  readerLeaves fuel r nb nodes = Some (nodes', nb', r') ->
  Forall tree_invariant nodes'.
Proof.
  induction fuel as [|fuel IH]; intros r nb nodes nodes' nb' r' Hall; simpl;
    [discriminate|].
  destruct (Next r) as [more r1]. destruct more.
  - destruct (SerializeRowValues (Values (CurrentRow r1)) nb) as [ser nb1].
    apply IH. apply Forall_app. split; [exact Hall|].
    constructor; [apply leaf_invariant | constructor].
  - intros E. injection E as <- <- <-. exact Hall.
Qed.

(** C8: every node of a tree returned by one of the builders (from rows,
    from chunks, from a reader) satisfies the node invariants: a node
    without children has level 0 and equal start and end keys, and every
    other node has exactly two children, the hash of the concatenation of
    their hashes, the start key of the left child, the end key of the right
    child and level 1 + max of the children's levels.  Building from rows or
    chunks always returns a tree. *)
Theorem built_trees_satisfy_node_invariants :
  (forall rows : list Row,
      exists t, NewMerkleTreeFromRows rows = Ok t
        /\ forall m, subnode m (GetRoot t) -> node_invariant m)
  /\ (forall chunks : list bytes,
      exists t, NewMerkleTreeFromChunks chunks = Ok t
        /\ forall m, subnode m (GetRoot t) -> node_invariant m)
  /\ (forall (R : Type) (RR : RowReader R) (fuel : nat) (r r' : R)
             (t : MerkleTree) (e : option error),
      BuildTreeFromReader fuel r = Some (Ok (Some t, e), r') ->
      forall m, subnode m (GetRoot t) -> node_invariant m).
Proof.
  split; [|split].
  - intros rows.
    destruct (NewMerkleTreeFromRows_returns rows) as [t [Ht [Hnil Hbuild]]].
    exists t. split; [exact Ht|]. intros m Hm.
    destruct rows as [|row rest].
    + rewrite Hnil in Hm by reflexivity. inversion Hm.
    + assert (Hb : buildTreeLevels (map rowLeaf (row :: rest)) = Ok (GetRoot t))
        by (apply Hbuild; discriminate).
      apply buildTreeLevels_invariant in Hb; [|apply rowLeaves_invariant].
      now apply Hb.
  - intros chunks.
    destruct (NewMerkleTreeFromChunks_returns chunks) as [t [Ht [Hnil Hbuild]]].
    exists t. split; [exact Ht|]. intros m Hm.
    destruct chunks as [|c rest].
    + rewrite Hnil in Hm by reflexivity. inversion Hm.
    + assert (Hb : buildTreeLevels (chunkLeaves 0 (c :: rest)) = Ok (GetRoot t))
        by (apply Hbuild; discriminate).
      apply buildTreeLevels_invariant in Hb; [|apply chunkLeaves_invariant].
      now apply Hb.
  - intros R RR fuel r r' t e. unfold BuildTreeFromReader.
    destruct (readerLeaves fuel r NewNodeBuilder []) as [[[nodes nb'] r1]|] eqn:Hread;
      [|discriminate].
    apply readerLeaves_invariant in Hread; [|constructor].
    destruct (Err r1); [discriminate|].
    destruct (len nodes =? 0).
    + intros E. injection E as <- _ _. intros m Hm. inversion Hm.
    + destruct (buildTreeLevels nodes) as [n|msg] eqn:Hb; simpl; [|discriminate].
      intros E. injection E as <- _ _.
      apply buildTreeLevels_invariant in Hb; [|exact Hread].
      intros m Hm. now apply Hb.
Qed.

Lemma built_trees_satisfy_node_invariants_witness :
  (exists t, NewMerkleTreeFromRows sampleRows = Ok t
     /\ node_invariant (GetRoot t)
     /\ node_invariant (GetLeft (GetRoot t))
     /\ node_invariant (GetRight (GetRoot t)))
  /\ (exists t r',
       BuildTreeFromReader 4 (mkSliceReader sampleRows (mkRow [] []) None)
       = Some (Ok (Some t, None), r')
       /\ node_invariant (GetRoot t)).
Proof.
  split.
  - destruct (proj1 built_trees_satisfy_node_invariants sampleRows) as [t [Ht Hinv]].
    exists t. split; [exact Ht|].
    assert (Hshape : exists h s e hl sl el ll rl lvl hr sr er lr rr lvr lv,
               GetRoot t
               = Node h s e (Node hl sl el ll rl lvl) (Node hr sr er lr rr lvr) lv).
    { vm_compute in Ht. injection Ht as <-. simpl. repeat eexists. }
    destruct Hshape as (h & s & e & hl & sl & el & ll & rl & lvl
                          & hr & sr & er & lr & rr & lvr & lv & Hroot).
    rewrite Hroot in *. cbn [GetLeft GetRight].
    split; [|split]; apply Hinv.
    + now apply subnode_here.
    + apply subnode_left. now apply subnode_here.
    + apply subnode_right. now apply subnode_here.
  - assert (Hrun : exists t r',
               BuildTreeFromReader 4 (mkSliceReader sampleRows (mkRow [] []) None)
               = Some (Ok (Some t, None), r')
               /\ exists h s e l r lv, GetRoot t = Node h s e l r lv).
    { vm_compute. repeat eexists. }
    destruct Hrun as (t & r' & Ht & h & s & e & l & r & lv & Hroot).
    exists t, r'. split; [exact Ht|].
    apply (proj2 (proj2 built_trees_satisfy_node_invariants) _ _ _ _ _ _ _ Ht).
    rewrite Hroot. now apply subnode_here.
Defined.

(** C9: when the reader, after yielding its rows, reports an error,
    BuildTreeFromReader returns that error and a nil tree; when it yields no
    row and reports no error, BuildTreeFromReader returns a tree with an
    absent root and no error; and no call returns both a tree and an
    error. *)
Theorem BuildTreeFromReader_error_or_empty
  (R : Type) (RR : RowReader R) (r r' : R) (rows : list Row) (fuel : nat) :
  yields r rows r' -> (List.length rows < fuel)%nat ->
  (forall err, Err r' = Some err ->
     BuildTreeFromReader fuel r = Some (Ok (None, Some err), r'))
  /\ (Err r' = None -> rows = [] ->
     exists nb, BuildTreeFromReader fuel r
                = Some (Ok (Some (mkMerkleTree Nil nb), None), r'))
  /\ (forall t err r'',
     BuildTreeFromReader fuel r <> Some (Ok (Some t, Some err), r'')).
Proof.
  intros Hyields Hfuel.
  destruct (readerLeaves_yields r r' rows Hyields fuel NewNodeBuilder [] Hfuel)
    as [nb' Hread].
  unfold BuildTreeFromReader. rewrite Hread. simpl app.
  split; [|split].
  - intros err Herr. rewrite Herr. reflexivity.
  - intros Hnone ->. rewrite Hnone. simpl. exists nb'. reflexivity.
  - intros t err r''. destruct (Err r'); [discriminate|].
    destruct (len (map rowLeaf rows) =? 0); [discriminate|].
    destruct (buildTreeLevels (map rowLeaf rows)); simpl; discriminate.
Qed.

Lemma SliceReader_yields (rows : list Row) (cur : Row) (f : option error) :
  yields (mkSliceReader rows cur f) rows
         (mkSliceReader [] (fold_left (fun _ row => row) rows cur) f).
Proof.
  revert cur. induction rows as [|row rest IH]; intros cur.
  - apply yields_end. reflexivity.
  - exact (yields_row (mkSliceReader (row :: rest) cur f) (mkSliceReader rest row f)
                      _ rest eq_refl (IH row)).
Qed.

Lemma BuildTreeFromReader_error_or_empty_witness :
  BuildTreeFromReader 4 failingReader
  = Some (Ok (None, Some "unexpected EOF"%string),
          mkSliceReader [] (mkRow (bytes_of_string "k3") [VBool true])
                        (Some "unexpected EOF"%string)).
Proof.
  refine (proj1 (BuildTreeFromReader_error_or_empty SliceReader _ failingReader
                   (mkSliceReader [] (mkRow (bytes_of_string "k3") [VBool true])
                                  (Some "unexpected EOF"%string))
                   sampleRows 4 _ _) _ _).
  - exact (SliceReader_yields sampleRows (mkRow [] []) (Some "unexpected EOF"%string)).
  - simpl. lia.
  - reflexivity.
Defined.

(** ** Diff engine *)

Lemma compareTreesRecursive_same (n : MerkleNode) (differences : list KeyRange) :
  compareTreesRecursive n n differences = differences.
Proof.
  destruct n as [|h s e l r lv]; simpl; [reflexivity|].
  now rewrite bytes_Equal_refl.
Qed.

(** With its nil check the tree's GetChunkSize always returns. *)
Lemma GetChunkSize_returns (t : MerkleTree) :
  GetChunkSize t = Ok (if is_nil (root t) then 0 else len (GetStartKey (root t))).
Proof. unfold GetChunkSize. destruct (root t); reflexivity. Qed.

Lemma Compare_sizes (d : Diff) (a b : Z) :
  GetChunkSize (treeA d) = Ok a -> GetChunkSize (treeB d) = Ok b ->
  Compare d
  = if negb (a =? b) then (Panic (chunkSizeMismatch a b), d)
    else (Ok tt, mkDiff (treeA d) (treeB d)
                   (compareTreesRecursive (GetRoot (treeA d)) (GetRoot (treeB d)) [])).
Proof. intros Ha Hb. unfold Compare. now rewrite Ha, Hb. Qed.

Lemma Compare_same_tree (t : MerkleTree) :
  Compare (NewDiff t t) = (Ok tt, mkDiff t t []).
Proof.
  rewrite (Compare_sizes (NewDiff t t) _ _ (GetChunkSize_returns t) (GetChunkSize_returns t)).
  unfold NewDiff. simpl treeA. simpl treeB.
  rewrite Z.eqb_refl. simpl negb. cbv iota.
  now rewrite compareTreesRecursive_same.
Qed.

(** C2: whenever the key lengths recorded at the two roots disagree,
    Compare panics with the chunk-size-mismatch error, leaves the diff
    untouched, and its range list is empty. *)
Theorem Compare_key_length_mismatch_panics (ta tb : MerkleTree) :
  GetChunkSize ta <> GetChunkSize tb ->
  exists sizeA sizeB,
    GetChunkSize ta = Ok sizeA /\ GetChunkSize tb = Ok sizeB /\ sizeA <> sizeB
    /\ Compare (NewDiff ta tb)
       = (Panic (chunkSizeMismatch sizeA sizeB), NewDiff ta tb)
    /\ GetRanges (snd (Compare (NewDiff ta tb))) = [].
Proof.
  intros Hneq.
  pose proof (GetChunkSize_returns ta) as Ha. pose proof (GetChunkSize_returns tb) as Hb.
  set (a := if is_nil (root ta) then 0 else len (GetStartKey (root ta))) in *.
  set (b := if is_nil (root tb) then 0 else len (GetStartKey (root tb))) in *.
  assert (Hab : a <> b) by (intros E; apply Hneq; now rewrite Ha, Hb, E).
  exists a, b. split; [exact Ha|]. split; [exact Hb|]. split; [exact Hab|].
  rewrite (Compare_sizes (NewDiff ta tb) a b Ha Hb).
  apply Z.eqb_neq in Hab. rewrite Hab. simpl. split; reflexivity.
Qed.

Lemma Compare_key_length_mismatch_panics_witness :
  Compare (NewDiff (NewMerkleTree (leafNode [] (bytes_of_string "a")))
                   (NewMerkleTree (leafNode [] (bytes_of_string "bb"))))
    = (Panic "chunk size mismatch: 1 vs 2"%string,
       NewDiff (NewMerkleTree (leafNode [] (bytes_of_string "a")))
               (NewMerkleTree (leafNode [] (bytes_of_string "bb"))))
  /\ GetRanges (snd (Compare
       (NewDiff (NewMerkleTree (leafNode [] (bytes_of_string "a")))
                (NewMerkleTree (leafNode [] (bytes_of_string "bb")))))) = [].
Proof.
  destruct (Compare_key_length_mismatch_panics
              (NewMerkleTree (leafNode [] (bytes_of_string "a")))
              (NewMerkleTree (leafNode [] (bytes_of_string "bb"))))
    as (sizeA & sizeB & Ha & Hb & _ & Hc & Hr).
  - vm_compute. discriminate.
  - vm_compute in Ha. vm_compute in Hb.
    injection Ha as <-. injection Hb as <-. split; [exact Hc | exact Hr].
Defined.

(** C10: the node's GetChunkSize, called on an absent node, panics on the
    nil pointer; the tree's GetChunkSize returns 0 for an absent root and
    so never makes that call; building from empty input gives a tree with
    an absent root, and comparing two of them returns normally with no
    ranges. *)
Theorem Compare_empty_trees :
  Node_GetChunkSize Nil = Panic nilDereference
  /\ (forall nb, GetChunkSize (mkMerkleTree Nil nb) = Ok 0)
  /\ NewMerkleTreeFromRows [] = Ok (mkMerkleTree Nil NewNodeBuilder)
  /\ NewMerkleTreeFromChunks [] = Ok (mkMerkleTree Nil NewNodeBuilder)
  /\ (forall nbA nbB,
        Compare (NewDiff (mkMerkleTree Nil nbA) (mkMerkleTree Nil nbB))
        = (Ok tt, mkDiff (mkMerkleTree Nil nbA) (mkMerkleTree Nil nbB) []))
  /\ diffTrees (NewMerkleTreeFromRows []) (NewMerkleTreeFromRows []) = (Ok tt, [])
  /\ diffTrees (NewMerkleTreeFromChunks []) (NewMerkleTreeFromChunks []) = (Ok tt, []).
Proof.
  repeat split.
Qed.

(** C4: for every non-empty list of rows, the tree built from it has a
    root, and comparing it with a second tree built from the same rows
    returns normally with zero ranges. *)
Theorem self_diff_yields_no_ranges (rows : list Row) :
  rows <> [] ->
  exists t, NewMerkleTreeFromRows rows = Ok t
    /\ GetRoot t <> Nil
    /\ Compare (NewDiff t t) = (Ok tt, mkDiff t t [])
    /\ diffTrees (NewMerkleTreeFromRows rows) (NewMerkleTreeFromRows rows) = (Ok tt, []).
Proof.
  intros Hne.
  destruct (NewMerkleTreeFromRows_returns rows) as [t [Ht [_ Hbuild]]].
  exists t. split; [exact Ht|]. split; [|split].
  - apply Hbuild in Hne.
    apply buildTreeLevels_invariant in Hne; [|apply rowLeaves_invariant].
    apply Hne.
  - apply Compare_same_tree.
  - rewrite Ht. unfold diffTrees. now rewrite Compare_same_tree.
Qed.

Lemma self_diff_yields_no_ranges_witness :
  exists t, NewMerkleTreeFromRows sampleRows = Ok t
    /\ GetRoot t <> Nil
    /\ Compare (NewDiff t t) = (Ok tt, mkDiff t t [])
    /\ diffTrees (NewMerkleTreeFromRows sampleRows) (NewMerkleTreeFromRows sampleRows)
       = (Ok tt, []).
Proof.
  apply (self_diff_yields_no_ranges sampleRows). discriminate.
Defined.

(** C3: from three rows a, b, c the builder makes the leaves la, lb, lc;
    the first pass pairs la and lb under a level-1 parent and carries lc
    over as it is; the second pass joins the two.  The root has level 2,
    start key a.key and end key c.key, and its right child is the leaf lc
    itself: hash of c's payload, both keys c.key, level 0, no children. *)
Theorem odd_carry_three_leaves (a b c : Row) :
  fst (rowLeaves [a; b; c] NewNodeBuilder) = [rowLeaf a; rowLeaf b; rowLeaf c]
  /\ nextLevel [rowLeaf a; rowLeaf b; rowLeaf c]
     = [makeParent (rowLeaf a) (rowLeaf b); rowLeaf c]
  /\ rowLeaf c
     = Node (Hash (fst (SerializeRow (Values c) NewSerializer))) (Key c) (Key c) Nil Nil 0
  /\ exists t, NewMerkleTreeFromRows [a; b; c] = Ok t
     /\ GetRoot t = makeParent (makeParent (rowLeaf a) (rowLeaf b)) (rowLeaf c)
     /\ GetLevel (GetRoot t) = 2
     /\ GetStartKey (GetRoot t) = Key a
     /\ GetEndKey (GetRoot t) = Key c
     /\ GetLeft (GetRoot t) = makeParent (rowLeaf a) (rowLeaf b)
     /\ GetLevel (GetLeft (GetRoot t)) = 1
     /\ GetStartKey (GetLeft (GetRoot t)) = Key a
     /\ GetEndKey (GetLeft (GetRoot t)) = Key b
     /\ GetRight (GetRoot t) = rowLeaf c.
Proof.
  split; [apply rowLeaves_map|].
  split; [reflexivity|].
  split; [reflexivity|].
  destruct (NewMerkleTreeFromRows_returns [a; b; c]) as [t [Ht [_ Hbuild]]].
  exists t. split; [exact Ht|].
  assert (Hroot : GetRoot t = makeParent (makeParent (rowLeaf a) (rowLeaf b)) (rowLeaf c)).
  { assert (Hb : buildTreeLevels (map rowLeaf [a; b; c]) = Ok (GetRoot t))
      by (apply Hbuild; discriminate).
    change (buildTreeLevels (map rowLeaf [a; b; c]))
      with (Ok (makeParent (makeParent (rowLeaf a) (rowLeaf b)) (rowLeaf c))) in Hb.
    now injection Hb. }
  rewrite Hroot. repeat split.
Qed.

(** The structure-mismatch branch: a childless node against a node with two
    children, with different hashes. *)
Lemma compare_leaf_vs_parent (hA kA eA : bytes) (lvA : Z) (l r : MerkleNode)
  (differences : list KeyRange) :
  l <> Nil -> r <> Nil ->
  hA <> GetHash (makeParent l r) ->
  compareTreesRecursive (Node hA kA eA Nil Nil lvA) (makeParent l r) differences
  = differences ++ [mkKeyRange (minKey kA (GetStartKey l)) (maxKey eA (GetEndKey r))
                               DiffTypeChanged].
Proof.
  intros Hl Hr Hhash.
  destruct l as [|hl sl el ll rl lvl]; [now elim Hl|].
  destruct r as [|hr sr er lr rr lvr]; [now elim Hr|].
  unfold makeParent in *. simpl in *.
  now rewrite (bytes_Equal_neq _ _ Hhash).
Qed.

(** C5, as the code has it: a tree built from one row against a tree built
    from two rows, when the two roots' start keys have the same length and
    the root hashes differ, compares to exactly one changed range, from the
    smaller of the two start keys to the larger of the two end keys. *)
Theorem leaf_vs_internal_root_one_changed_range (a b c : Row) (tA tB : MerkleTree) :
  NewMerkleTreeFromRows [a] = Ok tA ->
  NewMerkleTreeFromRows [b; c] = Ok tB ->
  len (GetStartKey (GetRoot tA)) = len (GetStartKey (GetRoot tB)) ->
  GetHash (GetRoot tA) <> GetHash (GetRoot tB) ->
  IsLeaf (GetRoot tA) = true
  /\ IsLeaf (GetRoot tB) = false
  /\ GetStartKey (GetRoot tA) = Key a /\ GetEndKey (GetRoot tA) = Key a
  /\ GetStartKey (GetRoot tB) = Key b /\ GetEndKey (GetRoot tB) = Key c
  /\ Compare (NewDiff tA tB)
     = (Ok tt,
        mkDiff tA tB
          [mkKeyRange (minKey (GetStartKey (GetRoot tA)) (GetStartKey (GetRoot tB)))
                      (maxKey (GetEndKey (GetRoot tA)) (GetEndKey (GetRoot tB)))
                      DiffTypeChanged]).
Proof.
  intros HtA HtB.
  destruct (NewMerkleTreeFromRows_returns [a]) as [tA' [HtA' [_ HbuildA]]].
  destruct (NewMerkleTreeFromRows_returns [b; c]) as [tB' [HtB' [_ HbuildB]]].
  rewrite HtA in HtA'. injection HtA' as <-.
  rewrite HtB in HtB'. injection HtB' as <-.
  assert (HrA : GetRoot tA = rowLeaf a).
  { assert (Hb : buildTreeLevels (map rowLeaf [a]) = Ok (GetRoot tA))
      by (apply HbuildA; discriminate).
    change (buildTreeLevels (map rowLeaf [a])) with (Ok (rowLeaf a)) in Hb.
    now injection Hb. }
  assert (HrB : GetRoot tB = makeParent (rowLeaf b) (rowLeaf c)).
  { assert (Hb : buildTreeLevels (map rowLeaf [b; c]) = Ok (GetRoot tB))
      by (apply HbuildB; discriminate).
    change (buildTreeLevels (map rowLeaf [b; c]))
      with (Ok (makeParent (rowLeaf b) (rowLeaf c))) in Hb.
    now injection Hb. }
  intros Hlen Hhash.
  rewrite (Compare_sizes (NewDiff tA tB) _ _
             (GetChunkSize_returns tA) (GetChunkSize_returns tB)).
  unfold NewDiff.
  simpl treeA. simpl treeB. unfold GetRoot in *.
  rewrite HrA, HrB in *.
  repeat (split; [reflexivity|]).
  change (is_nil (rowLeaf a)) with false.
  change (is_nil (makeParent (rowLeaf b) (rowLeaf c))) with false.
  cbv iota. rewrite Hlen, Z.eqb_refl. simpl negb. cbv iota.
  unfold rowLeaf at 1 3 4 6. unfold leafNode.
  rewrite compare_leaf_vs_parent; [reflexivity|discriminate|discriminate|exact Hhash].
Qed.

Lemma leaf_vs_internal_root_one_changed_range_witness :
  exists tA tB,
    NewMerkleTreeFromRows [rowOf "2" [VInt 2]] = Ok tA
    /\ NewMerkleTreeFromRows [rowOf "1" [VInt 1]; rowOf "3" [VInt 3]] = Ok tB
    /\ Compare (NewDiff tA tB)
       = (Ok tt,
          mkDiff tA tB
            [mkKeyRange (bytes_of_string "1") (bytes_of_string "3") DiffTypeChanged]).
Proof.
  destruct (NewMerkleTreeFromRows_returns [rowOf "2" [VInt 2]]) as [tA [HtA _]].
  destruct (NewMerkleTreeFromRows_returns [rowOf "1" [VInt 1]; rowOf "3" [VInt 3]])
    as [tB [HtB _]].
  exists tA, tB. split; [exact HtA|]. split; [exact HtB|].
  assert (Hlen : len (GetStartKey (GetRoot tA)) = len (GetStartKey (GetRoot tB))).
  { pose proof HtA as EA. pose proof HtB as EB.
    vm_compute in EA. vm_compute in EB.
    injection EA as <-. injection EB as <-. reflexivity. }
  assert (Hhash : GetHash (GetRoot tA) <> GetHash (GetRoot tB)).
  { pose proof HtA as EA. pose proof HtB as EB.
    vm_compute in EA. vm_compute in EB.
    injection EA as <-. injection EB as <-. vm_compute. discriminate. }
  destruct (leaf_vs_internal_root_one_changed_range _ _ _ tA tB HtA HtB Hlen Hhash)
    as (_ & _ & HsA & HeA & HsB & HeB & Hcmp).
  rewrite Hcmp, HsA, HeA, HsB, HeB. reflexivity.
Defined.

(** C5 as stated fails in two ways: with start keys of different lengths
    Compare panics and no range is produced; and a one-chunk tree whose
    chunk is the concatenation of the two leaf hashes of a two-chunk tree
    has the same root hash as that tree, so no range is produced. *)
Lemma leaf_vs_internal_root_counterexample :
  diffTrees (NewMerkleTreeFromRows [rowOf "a" [VInt 1]])
            (NewMerkleTreeFromRows [rowOf "bb" [VInt 1]; rowOf "cc" [VInt 2]])
    = (Panic "chunk size mismatch: 1 vs 2"%string, [])
  /\ result_map (fun t => IsLeaf (GetRoot t))
       (NewMerkleTreeFromChunks [Hash (chunk "a") ++ Hash (chunk "b")]) = Ok true
  /\ result_map (fun t => IsLeaf (GetRoot t))
       (NewMerkleTreeFromChunks [chunk "a"; chunk "b"]) = Ok false
  /\ diffTrees (NewMerkleTreeFromChunks [Hash (chunk "a") ++ Hash (chunk "b")])
               (NewMerkleTreeFromChunks [chunk "a"; chunk "b"])
    = (Ok tt, [])
  /\ List.length
       (snd (diffTrees (NewMerkleTreeFromChunks [Hash (chunk "a") ++ Hash (chunk "b")])
                       (NewMerkleTreeFromChunks [chunk "a"; chunk "b"]))) <> 1%nat.
Proof.
  repeat split; try (vm_compute; reflexivity).
  vm_compute. discriminate.
Qed.

(** An absent root against a present one: the guard of Compare lets the
    pair through only when the present root's start key is empty. *)
Lemma Compare_absent_against_present (nbA nbB : NodeBuilder)
  (h s e : bytes) (l r : MerkleNode) (lv : Z) :
  let tA := mkMerkleTree Nil nbA in
  let tB := mkMerkleTree (Node h s e l r lv) nbB in
  (s <> [] ->
     Compare (NewDiff tA tB) = (Panic (chunkSizeMismatch 0 (len s)), NewDiff tA tB))
  /\ (s = [] ->
     Compare (NewDiff tA tB) = (Ok tt, mkDiff tA tB [mkKeyRange s e DiffTypeAdded])).
Proof.
  split.
  - intros Hs. destruct s as [|b s']; [now elim Hs|]. reflexivity.
  - intros ->. reflexivity.
Qed.

(** Two present roots with equal hashes and equal key lengths compare to
    no range, whatever lies below them. *)
Lemma Compare_equal_root_hashes (tA tB : MerkleTree) :
  GetRoot tA <> Nil -> GetRoot tB <> Nil ->
  GetChunkSize tA = GetChunkSize tB ->
  GetHash (GetRoot tA) = GetHash (GetRoot tB) ->
  Compare (NewDiff tA tB) = (Ok tt, mkDiff tA tB []).
Proof.
  intros HA HB Hsize Hhash.
  rewrite (Compare_sizes (NewDiff tA tB) _ _
             (GetChunkSize_returns tA) (GetChunkSize_returns tB)).
  rewrite !GetChunkSize_returns in Hsize. injection Hsize as Hsize.
  rewrite Hsize, Z.eqb_refl. unfold NewDiff. simpl treeA. simpl treeB.
  simpl negb. cbv iota.
  unfold GetRoot in *.
  destruct (root tA) as [|hA sA eA lA rA lvA]; [now elim HA|].
  destruct (root tB) as [|hB sB eB lB rB lvB]; [now elim HB|].
  simpl in Hhash. subst hB. simpl. now rewrite bytes_Equal_refl.
Qed.

(** C1, evaluated: comparing the tree built from no rows with the tree
    built from one row keyed "k1" panics on the chunk-size check (0 against
    2) and records no range, although the recursive comparison, had it been
    reached, appends the added range for an absent left side. *)
Theorem empty_vs_nonempty_tree_panics :
  diffTrees (NewMerkleTreeFromRows [])
            (NewMerkleTreeFromRows [rowOf "k1" [VInt 1]])
    = (Panic "chunk size mismatch: 0 vs 2"%string, [])
  /\ diffTrees (NewMerkleTreeFromChunks [])
               (NewMerkleTreeFromChunks [chunk "a"])
    = (Panic "chunk size mismatch: 0 vs 7"%string, [])
  /\ (forall h s e l r lv differences,
        compareTreesRecursive Nil (Node h s e l r lv) differences
        = differences ++ [mkKeyRange s e DiffTypeAdded]).
Proof.
  repeat split; vm_compute; reflexivity.
Qed.

(** ** Shape of the built tree *)

Lemma Hash_length (data : bytes) : List.length (Hash data) = 32%nat.
Proof.
  unfold Hash, SHA256.Sum256.
  set (blocks := SHA256.blocks _ _).
  assert (H8 : forall bs h, List.length h = 8%nat ->
                            List.length (fold_left SHA256.compress bs h) = 8%nat).
  { induction bs as [|b bs IH]; intros h Hh; simpl; [exact Hh|].
    apply IH. reflexivity. }
  specialize (H8 blocks SHA256.H0 eq_refl).
  destruct (fold_left SHA256.compress blocks SHA256.H0)
    as [|a [|b [|c [|d [|e [|f [|g [|h [|i rest]]]]]]]]]; try discriminate.
  reflexivity.
Qed.

Lemma tree_invariant_inv (h s e : bytes) (l r : MerkleNode) (lv : Z) :
  tree_invariant (Node h s e l r lv) ->
  (l = Nil /\ r = Nil /\ lv = 0 /\ s = e)
  \/ (tree_invariant l /\ tree_invariant r
      /\ h = Hash (GetHash l ++ GetHash r)
      /\ s = GetStartKey l /\ e = GetEndKey r
      /\ lv = 1 + Z.max (GetLevel l) (GetLevel r)).
Proof.
  intros [_ Hall].
  pose proof (Hall _ (subnode_here _ h s e l r lv eq_refl)) as Hroot.
  destruct l as [|hl sl el ll rl lvl], r as [|hr sr er lr rr lvr];
    cbn [node_invariant] in Hroot; try contradiction.
  - left. tauto.
  - right. repeat split; try tauto; try discriminate.
    + intros m Hm. apply Hall. now apply subnode_left.
    + intros m Hm. apply Hall. now apply subnode_right.
Qed.

(** Induction over a well-formed subtree. *)
Lemma tree_invariant_ind (P : MerkleNode -> Prop) :
  (forall h k, P (Node h k k Nil Nil 0)) ->
  (forall l r, tree_invariant l -> tree_invariant r -> P l -> P r ->
               P (Node (Hash (GetHash l ++ GetHash r)) (GetStartKey l) (GetEndKey r)
                       l r (1 + Z.max (GetLevel l) (GetLevel r)))) ->
  forall n, tree_invariant n -> P n.
Proof.
  intros Hleaf Hnode.
  induction n as [|h s e l IHl r IHr lv]; intros Hinv.
  - destruct Hinv as [Hn _]. now elim Hn.
  - destruct (tree_invariant_inv _ _ _ _ _ _ Hinv)
      as [(-> & -> & -> & ->) | (Hl & Hr & -> & -> & -> & ->)].
    + apply Hleaf.
    + apply Hnode; auto.
Qed.

Lemma leaves_nonempty (n : MerkleNode) : tree_invariant n -> leaves n <> [].
Proof.
  induction 1 as [h k | l r Hl Hr IHl IHr] using tree_invariant_ind.
  - discriminate.
  - destruct Hl as [Hl _]. destruct l as [|? ? ? ? ? ?]; [now elim Hl|].
    cbn [leaves]. intros E. apply app_eq_nil in E. tauto.
Qed.

Lemma leaves_parent (h s e : bytes) (l r : MerkleNode) (lv : Z) :
  l <> Nil -> leaves (Node h s e l r lv) = leaves l ++ leaves r.
Proof. destruct l; [intros H; now elim H | reflexivity]. Qed.

Lemma leaves_makeParent (l r : MerkleNode) :
  l <> Nil -> r <> Nil -> leaves (makeParent l r) = leaves l ++ leaves r.
Proof.
  intros Hl Hr. destruct l as [|hl sl el ll rl lvl]; [now elim Hl|].
  destruct r as [|hr sr er lr rr lvr]; [now elim Hr|]. reflexivity.
Qed.

Lemma nextLevel_leaves (nodes : list MerkleNode) :
  Forall tree_invariant nodes ->
  flat_map leaves (nextLevel nodes) = flat_map leaves nodes.
Proof.
  induction nodes as [|x|x y l IH] using list_pair_ind; intros H;
    [reflexivity|reflexivity|].
  inversion H as [|? ? Hx Hrest]; subst.
  inversion Hrest as [|? ? Hy Hl]; subst.
  cbn [nextLevel flat_map]. rewrite IH by assumption.
  rewrite leaves_makeParent by (apply Hx || apply Hy).
  now rewrite <- app_assoc.
Qed.

Lemma levelsLoop_leaves (fuel : nat) (nodes : list MerkleNode) :
  Forall tree_invariant nodes ->
  flat_map leaves (levelsLoop fuel nodes) = flat_map leaves nodes.
Proof.
  revert nodes. induction fuel as [|fuel IH]; intros nodes H; [reflexivity|].
  cbn [levelsLoop]. destruct (1 <? len nodes); [|reflexivity].
  rewrite IH by now apply nextLevel_invariant.
  now apply nextLevel_leaves.
Qed.

Lemma buildTreeLevels_leaves (nodes : list MerkleNode) (n : MerkleNode) :
  Forall tree_invariant nodes -> buildTreeLevels nodes = Ok n ->
  leaves n = flat_map leaves nodes.
Proof.
  intros Hall Hbuild.
  assert (Hne : nodes <> []).
  { intros ->. discriminate. }
  destruct (buildTreeLevels_returns nodes Hne) as [n' [Hn' Hloop]].
  rewrite Hbuild in Hn'. injection Hn' as <-.
  rewrite <- (levelsLoop_leaves (List.length nodes) nodes Hall), Hloop.
  cbn [flat_map]. now rewrite app_nil_r.
Qed.

Lemma flat_map_leaves_rowLeaf (rows : list Row) :
  flat_map leaves (map rowLeaf rows) = map rowLeaf rows.
Proof. induction rows as [|row rest IH]; [reflexivity|]. cbn. now rewrite IH. Qed.

Lemma flat_map_leaves_chunkLeaves (chunks : list bytes) (i : Z) :
  flat_map leaves (chunkLeaves i chunks) = chunkLeaves i chunks.
Proof.
  revert i. induction chunks as [|c rest IH]; intros i; [reflexivity|].
  cbn. now rewrite IH.
Qed.

Lemma chunkLeaves_enum (chunks : list bytes) (i : nat) :
  chunkLeaves (Z.of_nat i) chunks
  = map (fun p => leafNode (snd p) (chunkKey (Z.of_nat (fst p))))
        (combine (seq i (List.length chunks)) chunks).
Proof.
  revert i. induction chunks as [|c rest IH]; intros i; [reflexivity|].
  cbn [chunkLeaves List.length seq combine map fst snd].
  replace (Z.of_nat i + 1) with (Z.of_nat (S i)) by lia.
  now rewrite IH.
Qed.

(** X1: the leaves of the tree built from rows are the leaves of the rows,
    in the order of the rows: the builder drops, repeats and reorders
    nothing.  The leaves of the tree built from chunks carry the hash of
    each chunk under the keys chunk-0, chunk-1, ... in order. *)
Theorem built_tree_leaves_are_the_rows :
  (forall rows : list Row,
      exists t, NewMerkleTreeFromRows rows = Ok t
        /\ leaves (GetRoot t) = map rowLeaf rows)
  /\ (forall chunks : list bytes,
      exists t, NewMerkleTreeFromChunks chunks = Ok t
        /\ leaves (GetRoot t)
           = map (fun p => Node (Hash (snd p)) (chunkKey (Z.of_nat (fst p)))
                                (chunkKey (Z.of_nat (fst p))) Nil Nil 0)
                 (combine (seq 0 (List.length chunks)) chunks)).
Proof.
  split.
  - intros rows.
    destruct (NewMerkleTreeFromRows_returns rows) as [t [Ht [Hnil Hbuild]]].
    exists t. split; [exact Ht|].
    destruct rows as [|row rest].
    + now rewrite Hnil.
    + rewrite (buildTreeLevels_leaves (map rowLeaf (row :: rest)) (GetRoot t)).
      * apply flat_map_leaves_rowLeaf.
      * apply rowLeaves_invariant.
      * apply Hbuild. discriminate.
  - intros chunks.
    destruct (NewMerkleTreeFromChunks_returns chunks) as [t [Ht [Hnil Hbuild]]].
    exists t. split; [exact Ht|].
    change (map _ (combine (seq 0 (List.length chunks)) chunks))
      with (map (fun p => leafNode (snd p) (chunkKey (Z.of_nat (fst p))))
                (combine (seq 0 (List.length chunks)) chunks)).
    rewrite <- (chunkLeaves_enum chunks 0).
    destruct chunks as [|c rest].
    + now rewrite Hnil.
    + rewrite (buildTreeLevels_leaves (chunkLeaves 0 (c :: rest)) (GetRoot t)).
      * apply flat_map_leaves_chunkLeaves.
      * apply chunkLeaves_invariant.
      * apply Hbuild. discriminate.
Qed.

(** ** Facts about well-formed subtrees *)

Lemma last_app_nonempty {A : Type} (l1 l2 : list A) (d : A) :
  l2 <> [] -> last (l1 ++ l2) d = last l2 d.
Proof.
  intros H. induction l1 as [|x l1 IH]; [reflexivity|].
  cbn [app last]. rewrite IH.
  destruct (l1 ++ l2) eqn:E; [|reflexivity].
  apply app_eq_nil in E. destruct E as [_ E]. now elim H.
Qed.

Lemma invariant_key_range (n : MerkleNode) :
  tree_invariant n ->
  GetStartKey n = GetStartKey (hd Nil (leaves n))
  /\ GetEndKey n = GetEndKey (last (leaves n) Nil).
Proof.
  induction 1 as [h k | l r Hl Hr [IHls IHle] [IHrs IHre]] using tree_invariant_ind.
  - split; reflexivity.
  - rewrite leaves_parent by apply Hl.
    pose proof (leaves_nonempty l Hl) as Hnl.
    pose proof (leaves_nonempty r Hr) as Hnr.
    cbn [GetStartKey GetEndKey]. split.
    + rewrite IHls. destruct (leaves l); [now elim Hnl | reflexivity].
    + rewrite IHre. now rewrite last_app_nonempty.
Qed.

Lemma invariant_nodeCount (n : MerkleNode) :
  tree_invariant n -> nodeCount n = 2 * len (leaves n) - 1.
Proof.
  induction 1 as [h k | l r Hl Hr IHl IHr] using tree_invariant_ind.
  - reflexivity.
  - rewrite leaves_parent by apply Hl. cbn [nodeCount].
    unfold len in *. rewrite length_app. lia.
Qed.

Lemma invariant_leaf_or_internal (m : MerkleNode) :
  node_invariant m -> IsLeaf m = negb (IsInternal m).
Proof.
  destruct m as [|h s e [|? ? ? ? ? ?] [|? ? ? ? ? ?] lv]; cbn; tauto.
Qed.

(** ** Height *)

Lemma GetLevel_makeParent (l r : MerkleNode) :
  GetLevel (makeParent l r) = 1 + Z.max (GetLevel l) (GetLevel r).
Proof.
  unfold makeParent, NewNode. cbn [SetLeft SetRight SetLevel GetLevel].
  destruct (Z.ltb_spec (GetLevel l) (GetLevel r)); lia.
Qed.

Lemma nextLevel_levelsBelow_tail (k : Z) (nodes : list MerkleNode) :
  Forall (fun n => GetLevel n <= k) nodes ->
  Forall (fun n => GetLevel n <= k + 1) (nextLevel nodes).
Proof.
  induction nodes as [|x|x y l IH] using list_pair_ind; intros H; cbn [nextLevel].
  - constructor.
  - inversion H; subst. constructor; [lia|constructor].
  - inversion H as [|? ? Hx Hrest]; subst. inversion Hrest as [|? ? Hy Hl]; subst.
    constructor; [|now apply IH].
    rewrite GetLevel_makeParent. lia.
Qed.

Lemma nextLevel_levelsBelow (k : Z) (x y : MerkleNode) (l : list MerkleNode) :
  levelsBelow k (x :: y :: l) -> levelsBelow (k + 1) (nextLevel (x :: y :: l)).
Proof.
  intros [Hhd Hall]. split; [|now apply nextLevel_levelsBelow_tail].
  cbn [nextLevel hd] in *. rewrite GetLevel_makeParent.
  inversion Hall as [|? ? Hx Hrest]; subst. inversion Hrest as [|? ? Hy Hl]; subst. lia.
Qed.

Lemma levelsLoop_height (fuel : nat) :
  forall (nodes : list MerkleNode) (k : Z),
  (List.length nodes <= fuel)%nat -> nodes <> [] -> levelsBelow k nodes ->
  exists (root : MerkleNode) (p : nat),
    levelsLoop fuel nodes = [root]
    /\ GetLevel root = k + Z.of_nat p
    /\ (len nodes = 1 -> p = O)
    /\ (1 < len nodes -> 2 ^ (Z.of_nat p - 1) < len nodes <= 2 ^ Z.of_nat p /\ (1 <= p)%nat).
Proof.
  induction fuel as [|fuel IH]; intros nodes k Hfuel Hne Hlv.
  - destruct nodes; [now elim Hne | simpl in Hfuel; lia].
  - cbn [levelsLoop]. unfold len in *.
    destruct (Z.ltb_spec 1 (Z.of_nat (List.length nodes))) as [Hgt|Hle].
    + destruct nodes as [|x [|y l]]; [simpl in Hgt; lia | simpl in Hgt; lia |].
      pose proof (nextLevel_length (x :: y :: l)) as Hlen.
      pose proof (Nat.div2_odd (S (List.length (x :: y :: l)))) as Hdiv.
      assert (Hb : (Nat.b2n (Nat.odd (S (List.length (x :: y :: l)))) <= 1)%nat)
        by (destruct (Nat.odd _); simpl; lia).
      destruct (IH (nextLevel (x :: y :: l)) (k + 1)) as (root & p & Hloop & Hroot & H1 & Hmany).
      { rewrite Hlen. simpl List.length in *. lia. }
      { now apply nextLevel_nonempty. }
      { now apply nextLevel_levelsBelow. }
      exists root, (S p). split; [exact Hloop|]. split; [lia|].
      split; [intros E; lia|]. intros _. split; [|lia].
      rewrite Hlen in H1, Hmany.
      set (m := List.length (x :: y :: l)) in *.
      set (m' := Nat.div2 (S m)) in *.
      destruct (Nat.eq_dec m' 1) as [E1|N1].
      * rewrite H1 by lia. change (Z.of_nat 1 - 1) with 0. change (2 ^ 0) with 1.
        change (2 ^ Z.of_nat 1) with 2. lia.
      * assert (Hm' : 1 < Z.of_nat m') by (subst m m'; simpl in *; lia).
        destruct (Hmany Hm') as [[Hlo Hhi] Hp].
        replace (Z.of_nat (S p) - 1) with (Z.succ (Z.of_nat p - 1)) by lia.
        replace (Z.of_nat (S p)) with (Z.succ (Z.succ (Z.of_nat p - 1))) by lia.
        replace (Z.of_nat p) with (Z.succ (Z.of_nat p - 1)) in Hhi by lia.
        rewrite !Z.pow_succ_r in * by lia. lia.
    + destruct nodes as [|x [|y l]]; [now elim Hne | | simpl in Hle; lia].
      exists x, O. destruct Hlv as [Hhd _]. cbn [hd] in Hhd.
      split; [reflexivity|]. split; [lia|]. split; [reflexivity|].
      simpl. lia.
Qed.

Lemma buildTreeLevels_height (nodes : list MerkleNode) (root : MerkleNode) :
  nodes <> [] -> Forall (fun n => GetLevel n = 0) nodes ->
  buildTreeLevels nodes = Ok root ->
  GetLevel root = Z.log2_up (len nodes).
Proof.
  intros Hne Hzero Hbuild.
  destruct (levelsLoop_height (List.length nodes) nodes 0 (le_n _) Hne)
    as (root' & p & Hloop & Hroot & H1 & Hmany).
  { split.
    - destruct nodes; [now elim Hne|]. now inversion Hzero.
    - eapply Forall_impl; [|exact Hzero]. intros n Hn. simpl in Hn. lia. }
  unfold buildTreeLevels in Hbuild. rewrite Hloop in Hbuild. injection Hbuild as <-.
  rewrite Hroot. unfold len in *.
  destruct (Z.eq_dec (Z.of_nat (List.length nodes)) 1) as [E|N].
  - rewrite E, (H1 E). reflexivity.
  - assert (Hgt : 1 < Z.of_nat (List.length nodes)).
    { destruct nodes; [now elim Hne|]. simpl List.length in *. lia. }
    destruct (Hmany Hgt) as [Hbounds Hp].
    symmetry. rewrite Z.add_0_l. apply Z.log2_up_unique; [lia|].
    replace (Z.pred (Z.of_nat p)) with (Z.of_nat p - 1) by lia. exact Hbounds.
Qed.

(** ** The tree built from rows or chunks *)

Lemma rows_root (rows : list Row) :
  rows <> [] ->
  exists t, NewMerkleTreeFromRows rows = Ok t
    /\ buildTreeLevels (map rowLeaf rows) = Ok (GetRoot t)
    /\ tree_invariant (GetRoot t)
    /\ leaves (GetRoot t) = map rowLeaf rows.
Proof.
  intros Hne.
  destruct (NewMerkleTreeFromRows_returns rows) as [t [Ht [_ Hbuild]]].
  specialize (Hbuild Hne). exists t.
  split; [exact Ht|]. split; [exact Hbuild|]. split.
  - eapply buildTreeLevels_invariant; [apply rowLeaves_invariant | exact Hbuild].
  - rewrite (buildTreeLevels_leaves _ _ (rowLeaves_invariant rows) Hbuild).
    apply flat_map_leaves_rowLeaf.
Qed.

Lemma chunks_root (chunks : list bytes) :
  chunks <> [] ->
  exists t, NewMerkleTreeFromChunks chunks = Ok t
    /\ buildTreeLevels (chunkLeaves 0 chunks) = Ok (GetRoot t)
    /\ tree_invariant (GetRoot t)
    /\ leaves (GetRoot t) = chunkLeaves 0 chunks.
Proof.
  intros Hne.
  destruct (NewMerkleTreeFromChunks_returns chunks) as [t [Ht [_ Hbuild]]].
  specialize (Hbuild Hne). exists t.
  split; [exact Ht|]. split; [exact Hbuild|]. split.
  - eapply buildTreeLevels_invariant; [apply chunkLeaves_invariant | exact Hbuild].
  - rewrite (buildTreeLevels_leaves _ _ (chunkLeaves_invariant chunks 0) Hbuild).
    apply flat_map_leaves_chunkLeaves.
Qed.

Lemma chunkLeaves_last (chunks : list bytes) (c : bytes) (i : Z) :
  GetEndKey (last (chunkLeaves i (c :: chunks)) Nil) = chunkKey (i + len chunks).
Proof.
  revert c i. induction chunks as [|c' rest IH]; intros c i.
  - cbn. now rewrite Z.add_0_r.
  - change (chunkLeaves i (c :: c' :: rest))
      with (SetLevel 0 (NewNode c (chunkKey i) (chunkKey i)) :: chunkLeaves (i + 1) (c' :: rest)).
    cbn [last]. destruct (chunkLeaves (i + 1) (c' :: rest)) eqn:E; [discriminate|].
    rewrite <- E, IH. f_equal. unfold len. cbn [List.length]. lia.
Qed.

Lemma last_cons_default {A : Type} (l : list A) (x d : A) :
  last (x :: l) d = last l x.
Proof.
  revert x d. induction l as [|y l IH]; intros x d; [reflexivity|].
  change (last (x :: y :: l) d) with (last (y :: l) d).
  now rewrite (IH y d), (IH y x).
Qed.

Lemma map_last {A B : Type} (f : A -> B) (l : list A) (a : A) (d : B) :
  last (map f (a :: l)) d = f (last l a).
Proof.
  revert a. induction l as [|x l IH]; intros a; [reflexivity|].
  change (map f (a :: x :: l)) with (f a :: map f (x :: l)).
  change (last (f a :: map f (x :: l)) d) with (last (map f (x :: l)) d).
  rewrite IH. now rewrite <- (last_cons_default l x a).
Qed.

(** X2: the root of the tree built from a non-empty list of rows has the key of
    the first row as start key and the key of the last row as end key; for
    chunks these are chunk-0 and chunk-(n-1). *)
Theorem root_spans_first_to_last_key :
  (forall (a : Row) (rest : list Row),
      exists t, NewMerkleTreeFromRows (a :: rest) = Ok t
        /\ GetStartKey (GetRoot t) = Key a
        /\ GetEndKey (GetRoot t) = Key (last rest a))
  /\ (forall (c : bytes) (rest : list bytes),
      exists t, NewMerkleTreeFromChunks (c :: rest) = Ok t
        /\ GetStartKey (GetRoot t) = chunkKey 0
        /\ GetEndKey (GetRoot t) = chunkKey (len rest)).
Proof.
  split.
  - intros a rest.
    destruct (rows_root (a :: rest)) as (t & Ht & _ & Hinv & Hleaves); [discriminate|].
    exists t. split; [exact Ht|].
    destruct (invariant_key_range _ Hinv) as [Hs He].
    rewrite Hs, He, Hleaves. split; [reflexivity|].
    now rewrite map_last.
  - intros c rest.
    destruct (chunks_root (c :: rest)) as (t & Ht & _ & Hinv & Hleaves); [discriminate|].
    exists t. split; [exact Ht|].
    destruct (invariant_key_range _ Hinv) as [Hs He].
    rewrite Hs, He, Hleaves. split; [reflexivity|].
    now rewrite chunkLeaves_last.
Qed.

(** X3: the tree built from n >= 1 rows or chunks has exactly 2n - 1 nodes. *)
Theorem built_tree_has_2n_minus_1_nodes :
  (forall (a : Row) (rest : list Row),
      exists t, NewMerkleTreeFromRows (a :: rest) = Ok t
        /\ nodeCount (GetRoot t) = 2 * len (a :: rest) - 1)
  /\ (forall (c : bytes) (rest : list bytes),
      exists t, NewMerkleTreeFromChunks (c :: rest) = Ok t
        /\ nodeCount (GetRoot t) = 2 * len (c :: rest) - 1).
Proof.
  split.
  - intros a rest.
    destruct (rows_root (a :: rest)) as (t & Ht & _ & Hinv & Hleaves); [discriminate|].
    exists t. split; [exact Ht|].
    rewrite (invariant_nodeCount _ Hinv), Hleaves. unfold len. now rewrite length_map.
  - intros c rest.
    destruct (chunks_root (c :: rest)) as (t & Ht & _ & Hinv & Hleaves); [discriminate|].
    exists t. split; [exact Ht|].
    rewrite (invariant_nodeCount _ Hinv), Hleaves. unfold len.
    now rewrite chunkLeaves_length.
Qed.

Lemma chunkLeaves_level (chunks : list bytes) (i : Z) :
  Forall (fun n => GetLevel n = 0) (chunkLeaves i chunks).
Proof. revert i. induction chunks; intros i; cbn; constructor; auto. Qed.

Lemma rowLeaves_level (rows : list Row) :
  Forall (fun n => GetLevel n = 0) (map rowLeaf rows).
Proof. induction rows; cbn; constructor; auto. Qed.

(** X4: the level of the root of the tree built from n >= 1 rows or chunks is
    the ceiling of log2 n. *)
Theorem root_level_is_log2_up :
  (forall (a : Row) (rest : list Row),
      exists t, NewMerkleTreeFromRows (a :: rest) = Ok t
        /\ GetLevel (GetRoot t) = Z.log2_up (len (a :: rest)))
  /\ (forall (c : bytes) (rest : list bytes),
      exists t, NewMerkleTreeFromChunks (c :: rest) = Ok t
        /\ GetLevel (GetRoot t) = Z.log2_up (len (c :: rest))).
Proof.
  split.
  - intros a rest.
    destruct (rows_root (a :: rest)) as (t & Ht & Hbuild & _ & _); [discriminate|].
    exists t. split; [exact Ht|].
    assert (Hne : map rowLeaf (a :: rest) <> []) by discriminate.
    rewrite (buildTreeLevels_height _ _ Hne (rowLeaves_level _) Hbuild).
    unfold len. now rewrite length_map.
  - intros c rest.
    destruct (chunks_root (c :: rest)) as (t & Ht & Hbuild & _ & _); [discriminate|].
    exists t. split; [exact Ht|].
    assert (Hne : chunkLeaves 0 (c :: rest) <> []) by discriminate.
    rewrite (buildTreeLevels_height _ _ Hne (chunkLeaves_level _ _) Hbuild).
    unfold len. now rewrite chunkLeaves_length.
Qed.

Lemma childless_subnode_is_leaf (n m : MerkleNode) :
  tree_invariant n -> subnode m n -> IsLeaf m = true -> In m (leaves n).
Proof.
  induction 1 as [h k | l r Hl Hr IHl IHr] using tree_invariant_ind; intros Hm Hleaf.
  - inversion Hm as [? ? ? ? ? ? E|? ? ? ? ? ? Hsub|? ? ? ? ? ? Hsub]; subst.
    + now left.
    + inversion Hsub.
    + inversion Hsub.
  - rewrite leaves_parent by apply Hl. apply in_or_app.
    inversion Hm as [? ? ? ? ? ? E|? ? ? ? ? ? Hsub|? ? ? ? ? ? Hsub]; subst.
    + exfalso. destruct Hl as [Hl _]. destruct l; [now elim Hl | discriminate Hleaf].
    + left. now apply IHl.
    + right. now apply IHr.
Qed.

(** X5: in the tree built from rows every node is either a leaf or
    internal (IsLeaf and IsInternal never agree), every leaf is the leaf of
    one of the rows, and every hash is 32 bytes long. *)
Theorem built_tree_nodes_are_leaf_or_internal (rows : list Row) :
  exists t, NewMerkleTreeFromRows rows = Ok t
    /\ forall m, subnode m (GetRoot t) ->
         IsLeaf m = negb (IsInternal m)
         /\ (IsLeaf m = true -> In m (map rowLeaf rows))
         /\ len (GetHash m) = 32.
Proof.
  destruct (NewMerkleTreeFromRows_returns rows) as [t [Ht [Hnil Hbuild]]].
  exists t. split; [exact Ht|]. intros m Hm.
  destruct rows as [|row rest]; [rewrite Hnil in Hm by reflexivity; inversion Hm|].
  destruct (rows_root (row :: rest)) as (t' & Ht' & _ & Hinv & Hleaves); [discriminate|].
  rewrite Ht in Ht'. injection Ht' as <-.
  pose proof (proj2 Hinv m Hm) as Hnode.
  assert (Hin : IsLeaf m = true -> In m (map rowLeaf (row :: rest))).
  { intros Hleaf. rewrite <- Hleaves. now apply childless_subnode_is_leaf. }
  split; [now apply invariant_leaf_or_internal|]. split; [exact Hin|].
  destruct m as [|h s e [|? ? ? ? ? ?] [|? ? ? ? ? ?] lv];
    cbn [node_invariant] in Hnode; try contradiction.
  - specialize (Hin eq_refl). apply in_map_iff in Hin. destruct Hin as (x & E & _).
    unfold rowLeaf, leafNode in E. injection E as <- _ _.
    unfold len. cbn [GetHash]. now rewrite Hash_length.
  - destruct Hnode as (-> & _). unfold len. cbn [GetHash]. now rewrite Hash_length.
Qed.

Lemma built_tree_nodes_are_leaf_or_internal_witness :
  exists t, NewMerkleTreeFromRows sampleRows = Ok t
    /\ IsLeaf (GetRoot t) = negb (IsInternal (GetRoot t))
    /\ len (GetHash (GetRoot t)) = 32.
Proof.
  destruct (built_tree_nodes_are_leaf_or_internal sampleRows) as [t [Ht Hall]].
  exists t. split; [exact Ht|].
  assert (Hsub : subnode (GetRoot t) (GetRoot t)).
  { pose proof Ht as E. vm_compute in E. injection E as <-.
    now apply subnode_here. }
  destruct (Hall _ Hsub) as (H1 & _ & H3). now split.
Defined.

(** ** The recursive comparison *)

Lemma compareTreesRecursive_app (a b : MerkleNode) (differences : list KeyRange) :
  compareTreesRecursive a b differences
  = differences ++ compareTreesRecursive a b [].
Proof.
  revert b differences.
  induction a as [|ha sa ea la IHl ra IHr lva]; intros b differences.
  - destruct b; cbn [compareTreesRecursive]; [now rewrite app_nil_r | reflexivity].
  - destruct b as [|hb sb eb lb rb lvb]; cbn [compareTreesRecursive]; [reflexivity|].
    destruct (bytes_Equal _ _); [now rewrite app_nil_r|].
    destruct (IsLeaf _ && IsLeaf _); [reflexivity|].
    destruct (negb _); [reflexivity|].
    rewrite (IHr rb (compareTreesRecursive la lb differences)).
    rewrite (IHr rb (compareTreesRecursive la lb [])).
    rewrite (IHl lb differences). now rewrite app_assoc.
Qed.

Lemma bytes_Equal_sym (a b : bytes) : bytes_Equal a b = bytes_Equal b a.
Proof.
  destruct (bytes_Equal a b) eqn:E.
  - apply bytes_Equal_eq in E. subst. now rewrite bytes_Equal_refl.
  - destruct (bytes_Equal b a) eqn:E'; [|reflexivity].
    apply bytes_Equal_eq in E'. subst. now rewrite bytes_Equal_refl in E.
Qed.

(** X6: comparing the trees the other way round gives the same sequence of
    range kinds with added and removed exchanged. *)
Theorem compare_swapped_trees (a b : MerkleNode) :
  map KR_Type (compareTreesRecursive b a [])
  = map swapType (map KR_Type (compareTreesRecursive a b [])).
Proof.
  revert b. induction a as [|ha sa ea la IHl ra IHr lva]; intros b.
  - destruct b; reflexivity.
  - destruct b as [|hb sb eb lb rb lvb]; [reflexivity|].
    cbn [compareTreesRecursive].
    rewrite (bytes_Equal_sym (GetHash (Node hb sb eb lb rb lvb))).
    destruct (bytes_Equal _ _); [reflexivity|].
    rewrite (andb_comm (IsLeaf (Node hb sb eb lb rb lvb))).
    destruct (IsLeaf _ && IsLeaf _); [reflexivity|].
    replace (Bool.eqb (IsLeaf (Node hb sb eb lb rb lvb)) (IsLeaf (Node ha sa ea la ra lva)))
      with (Bool.eqb (IsLeaf (Node ha sa ea la ra lva)) (IsLeaf (Node hb sb eb lb rb lvb)))
      by (destruct (IsLeaf (Node ha sa ea la ra lva)), (IsLeaf (Node hb sb eb lb rb lvb));
          reflexivity).
    destruct (negb _); [reflexivity|].
    rewrite (compareTreesRecursive_app rb ra), (compareTreesRecursive_app ra rb).
    rewrite !map_app, IHl, IHr. reflexivity.
Qed.

Lemma compare_leaf_leaf (ha ka hb kb : bytes) :
  compareTreesRecursive (Node ha ka ka Nil Nil 0) (Node hb kb kb Nil Nil 0) []
  = if bytes_Equal ha hb then [] else [mkKeyRange ka ka DiffTypeChanged].
Proof. cbn. destruct (bytes_Equal ha hb); reflexivity. Qed.

(** Between two present, well-formed subtrees every range is a changed
    range, there are no more ranges than leaves on either side, and there
    is none only if the two hashes agree. *)
Lemma compare_invariant_trees (a : MerkleNode) :
  tree_invariant a -> forall b, tree_invariant b ->
  Forall (fun r => KR_Type r = DiffTypeChanged) (compareTreesRecursive a b [])
  /\ (List.length (compareTreesRecursive a b []) <= List.length (leaves a))%nat
  /\ (List.length (compareTreesRecursive a b []) <= List.length (leaves b))%nat
  /\ (compareTreesRecursive a b [] = [] -> GetHash a = GetHash b).
Proof.
  induction 1 as [ha ka | la ra Hla Hra IHl IHr] using tree_invariant_ind;
    intros b Hb; pose proof (leaves_nonempty b Hb) as Hnb.
  - destruct b as [|hb sb eb lb rb lvb]; [destruct Hb as [Hb _]; now elim Hb|].
    cbn [compareTreesRecursive GetHash GetStartKey GetEndKey].
    destruct (bytes_Equal ha hb) eqn:E.
    + apply bytes_Equal_eq in E. repeat split; auto; cbn; lia.
    + assert (Hlen : (1 <= List.length (leaves (Node hb sb eb lb rb lvb)))%nat).
      { destruct (leaves (Node hb sb eb lb rb lvb)); [now elim Hnb | cbn; lia]. }
      change (IsLeaf (Node ha ka ka Nil Nil 0)) with true.
      destruct (IsLeaf (Node hb sb eb lb rb lvb)); cbn [andb negb Bool.eqb app];
        (split; [constructor; [reflexivity | constructor]|]);
        (split; [cbn; lia|]); (split; [cbn [List.length]; lia | discriminate]).
  - destruct Hb as [Hb Hball].
    destruct b as [|hb sb eb lb rb lvb]; [now elim Hb|].
    assert (Hb' : tree_invariant (Node hb sb eb lb rb lvb)) by (split; assumption).
    pose proof (leaves_nonempty _ (proj1 (conj Hla I))) as Hnla.
    assert (HleafA : IsLeaf (Node (Hash (GetHash la ++ GetHash ra)) (GetStartKey la)
                                  (GetEndKey ra) la ra
                                  (1 + Z.max (GetLevel la) (GetLevel ra))) = false).
    { destruct Hla as [Hla _]. destruct la; [now elim Hla | reflexivity]. }
    assert (HlenA : (1 <= List.length (leaves la ++ leaves ra))%nat).
    { rewrite length_app. destruct (leaves la); [now elim Hnla | cbn; lia]. }
    rewrite (leaves_parent _ _ _ la ra _ (proj1 Hla)).
    cbn [compareTreesRecursive]. rewrite HleafA.
    cbn [GetHash GetStartKey GetEndKey andb].
    destruct (bytes_Equal (Hash (GetHash la ++ GetHash ra)) hb) eqn:E.
    + apply bytes_Equal_eq in E. repeat split; auto; cbn; lia.
    + destruct (tree_invariant_inv _ _ _ _ _ _ Hb')
        as [(-> & -> & -> & ->) | (Hlb & Hrb & Ehb & -> & -> & ->)].
      * cbn [IsLeaf GetLeft GetRight is_nil andb Bool.eqb negb app leaves List.length].
        split; [constructor; [reflexivity | constructor]|].
        split; [lia|]. split; [lia|discriminate].
      * assert (HleafB : IsLeaf (Node hb (GetStartKey lb) (GetEndKey rb) lb rb
                                      (1 + Z.max (GetLevel lb) (GetLevel rb))) = false).
        { destruct Hlb as [Hlb _]. destruct lb; [now elim Hlb | reflexivity]. }
        rewrite HleafB. cbn [Bool.eqb negb].
        rewrite (leaves_parent _ _ _ lb rb _ (proj1 Hlb)).
        rewrite (compareTreesRecursive_app ra rb).
        destruct (IHl lb Hlb) as (Tl & Al & Bl & Zl).
        destruct (IHr rb Hrb) as (Tr & Ar & Br & Zr).
        rewrite !length_app. split; [now apply Forall_app|].
        split; [lia|]. split; [lia|].
        intros Enil. apply app_eq_nil in Enil. destruct Enil as [E1 E2].
        exfalso. rewrite Ehb, (Zl E1), (Zr E2), bytes_Equal_refl in E. discriminate.
Qed.

(** ** Trees of the same shape *)

Lemma subseq_nil_l {A : Type} (m : list A) : subseq [] m.
Proof. induction m; constructor; auto. Qed.

Lemma subseq_refl {A : Type} (m : list A) : subseq m m.
Proof. induction m; [apply subseq_nil | now apply subseq_take]. Qed.

Lemma subseq_app {A : Type} (l1 m1 l2 m2 : list A) :
  subseq l1 m1 -> subseq l2 m2 -> subseq (l1 ++ l2) (m1 ++ m2).
Proof.
  induction 1 as [|x l m H IH|x l m H IH]; intros H2; cbn [app].
  - exact H2.
  - apply subseq_skip. now apply IH.
  - apply subseq_take. now apply IH.
Qed.

Lemma subseq_length {A : Type} (l m : list A) :
  subseq l m -> (List.length l <= List.length m)%nat.
Proof. induction 1; cbn; lia. Qed.

Lemma sameShape_leaves_length (a b : MerkleNode) :
  sameShape a b -> List.length (leaves a) = List.length (leaves b).
Proof.
  induction 1 as [|ha sa ea la ra lva hb sb eb lb rb lvb Hl IHl Hr IHr]; [reflexivity|].
  assert (Hla : la <> Nil) by (inversion Hl; discriminate).
  assert (Hlb : lb <> Nil) by (inversion Hl; discriminate).
  rewrite !leaves_parent by assumption. rewrite !length_app. lia.
Qed.

Lemma combine_app_same_length {A B : Type} (l1 l2 : list A) (m1 m2 : list B) :
  List.length l1 = List.length m1 ->
  combine (l1 ++ l2) (m1 ++ m2) = combine l1 m1 ++ combine l2 m2.
Proof.
  revert m1. induction l1 as [|x l1 IH]; intros [|y m1] H; try discriminate.
  - reflexivity.
  - cbn. f_equal. apply IH. now injection H.
Qed.

Lemma changedLeaves_app (la1 la2 lb1 lb2 : list MerkleNode) :
  List.length la1 = List.length lb1 ->
  changedLeaves (la1 ++ la2) (lb1 ++ lb2)
  = changedLeaves la1 lb1 ++ changedLeaves la2 lb2.
Proof.
  intros Hlen. unfold changedLeaves.
  rewrite combine_app_same_length by assumption. apply flat_map_app.
Qed.

Lemma compare_sameShape (a b : MerkleNode) :
  sameShape a b -> tree_invariant a -> tree_invariant b ->
  subseq (compareTreesRecursive a b []) (changedLeaves (leaves a) (leaves b)).
Proof.
  induction 1 as [|ha sa ea la ra lva hb sb eb lb rb lvb Hl IHl Hr IHr];
    intros Ha Hb.
  - destruct (tree_invariant_inv _ _ _ _ _ _ Ha)
      as [(_ & _ & -> & ->) | (Hbad & _)]; [|destruct Hbad as [Hbad _]; now elim Hbad].
    destruct (tree_invariant_inv _ _ _ _ _ _ Hb)
      as [(_ & _ & -> & ->) | (Hbad & _)]; [|destruct Hbad as [Hbad _]; now elim Hbad].
    rewrite compare_leaf_leaf. cbn.
    destruct (bytes_Equal ha hb); apply subseq_refl.
  - assert (Hla : la <> Nil) by (inversion Hl; discriminate).
    assert (Hlb : lb <> Nil) by (inversion Hl; discriminate).
    destruct (tree_invariant_inv _ _ _ _ _ _ Ha)
      as [(-> & _) | (Hia & Hira & _)]; [now elim Hla|].
    destruct (tree_invariant_inv _ _ _ _ _ _ Hb)
      as [(-> & _) | (Hib & Hirb & _)]; [now elim Hlb|].
    rewrite !leaves_parent by assumption.
    rewrite changedLeaves_app by now apply sameShape_leaves_length.
    cbn [compareTreesRecursive].
    destruct (bytes_Equal _ _); [apply subseq_nil_l|].
    assert (EA : IsLeaf (Node ha sa ea la ra lva) = false)
      by (destruct la; [now elim Hla | reflexivity]).
    assert (EB : IsLeaf (Node hb sb eb lb rb lvb) = false)
      by (destruct lb; [now elim Hlb | reflexivity]).
    rewrite EA, EB. cbn [andb Bool.eqb negb].
    rewrite compareTreesRecursive_app. apply subseq_app; auto.
Qed.

Lemma makeParent_sameShape (l r l' r' : MerkleNode) :
  sameShape l l' -> sameShape r r' -> sameShape (makeParent l r) (makeParent l' r').
Proof.
  intros Hl Hr.
  assert (Hn : l <> Nil /\ l' <> Nil /\ r <> Nil /\ r' <> Nil)
    by (inversion Hl; inversion Hr; repeat split; discriminate).
  destruct Hn as (H1 & H2 & H3 & H4).
  destruct l; [now elim H1|]. destruct l'; [now elim H2|].
  destruct r; [now elim H3|]. destruct r'; [now elim H4|].
  unfold makeParent. cbn. now constructor.
Qed.

Lemma nextLevel_sameShape (xs ys : list MerkleNode) :
  Forall2 sameShape xs ys -> Forall2 sameShape (nextLevel xs) (nextLevel ys).
Proof.
  revert ys. induction xs as [|x|x x' l IH] using list_pair_ind; intros ys H.
  - inversion H; subst. constructor.
  - inversion H as [|? ? ? ? Hx Hrest]; subst. inversion Hrest; subst.
    cbn. now constructor.
  - inversion H as [|? y ? ys1 Hx Hrest]; subst.
    inversion Hrest as [|? y' ? ys2 Hx' Hl]; subst.
    cbn [nextLevel]. constructor; [now apply makeParent_sameShape | now apply IH].
Qed.

Lemma levelsLoop_sameShape (fuel : nat) (xs ys : list MerkleNode) :
  Forall2 sameShape xs ys ->
  Forall2 sameShape (levelsLoop fuel xs) (levelsLoop fuel ys).
Proof.
  revert xs ys. induction fuel as [|fuel IH]; intros xs ys H; [exact H|].
  cbn [levelsLoop]. unfold len. rewrite <- (Forall2_length H).
  destruct (1 <? Z.of_nat (List.length xs)); [|exact H].
  apply IH. now apply nextLevel_sameShape.
Qed.

Lemma buildTreeLevels_sameShape (xs ys : list MerkleNode) (a b : MerkleNode) :
  Forall2 sameShape xs ys ->
  buildTreeLevels xs = Ok a -> buildTreeLevels ys = Ok b -> sameShape a b.
Proof.
  intros H. unfold buildTreeLevels.
  pose proof (levelsLoop_sameShape (List.length xs) xs ys H) as Hloop.
  rewrite <- (Forall2_length H).
  destruct (levelsLoop (List.length xs) xs) as [|a' ra]; [discriminate|].
  destruct (levelsLoop (List.length xs) ys) as [|b' rb]; [discriminate|].
  intros Ea Eb. injection Ea as <-. injection Eb as <-. now inversion Hloop.
Qed.

Lemma rowLeaves_sameShape (ra rb : list Row) :
  List.length ra = List.length rb ->
  Forall2 sameShape (map rowLeaf ra) (map rowLeaf rb).
Proof.
  revert rb. induction ra as [|a ra IH]; intros [|b rb] H; try discriminate.
  - constructor.
  - cbn [map]. constructor; [constructor | apply IH; now injection H].
Qed.

(** ** Compare on two present roots *)

Lemma Compare_present (tA tB : MerkleTree) :
  GetRoot tA <> Nil -> GetRoot tB <> Nil ->
  Compare (NewDiff tA tB)
  = if len (GetStartKey (GetRoot tA)) =? len (GetStartKey (GetRoot tB))
    then (Ok tt, mkDiff tA tB (compareTreesRecursive (GetRoot tA) (GetRoot tB) []))
    else (Panic (chunkSizeMismatch (len (GetStartKey (GetRoot tA)))
                                   (len (GetStartKey (GetRoot tB)))),
          NewDiff tA tB).
Proof.
  intros HA HB. unfold Compare, NewDiff, GetChunkSize, Node_GetChunkSize, GetRoot in *.
  cbn [treeA treeB].
  destruct (root tA); [now elim HA|]. destruct (root tB); [now elim HB|].
  cbn [is_nil]. destruct (_ =? _); reflexivity.
Qed.

(** X7: for two non-empty lists of rows, Compare returns normally exactly when
    the keys of the two first rows have the same length, and panics with
    the chunk-size mismatch of these two lengths otherwise; no other key is
    looked at. *)
Theorem Compare_guard_checks_first_keys (a b : Row) (ra rb : list Row) :
  exists tA tB,
    NewMerkleTreeFromRows (a :: ra) = Ok tA
    /\ NewMerkleTreeFromRows (b :: rb) = Ok tB
    /\ fst (Compare (NewDiff tA tB))
       = if len (Key a) =? len (Key b) then Ok tt
         else Panic (chunkSizeMismatch (len (Key a)) (len (Key b))).
Proof.
  destruct (rows_root (a :: ra)) as (tA & HtA & _ & HiA & HlA); [discriminate|].
  destruct (rows_root (b :: rb)) as (tB & HtB & _ & HiB & HlB); [discriminate|].
  exists tA, tB. split; [exact HtA|]. split; [exact HtB|].
  rewrite Compare_present by (apply HiA || apply HiB).
  rewrite (proj1 (invariant_key_range _ HiA)), (proj1 (invariant_key_range _ HiB)).
  rewrite HlA, HlB. cbn [map hd rowLeaf leafNode GetStartKey].
  destruct (_ =? _); reflexivity.
Qed.

(** X8: two trees built from non-empty chunk lists always pass the guard of
    Compare (both roots start at chunk-0), and every range reported is a
    changed range. *)
Theorem Compare_chunk_trees_never_panics (c c' : bytes) (rc rc' : list bytes) :
  exists tA tB,
    NewMerkleTreeFromChunks (c :: rc) = Ok tA
    /\ NewMerkleTreeFromChunks (c' :: rc') = Ok tB
    /\ Compare (NewDiff tA tB)
       = (Ok tt, mkDiff tA tB (compareTreesRecursive (GetRoot tA) (GetRoot tB) []))
    /\ Forall (fun r => KR_Type r = DiffTypeChanged)
              (GetRanges (snd (Compare (NewDiff tA tB)))).
Proof.
  destruct (chunks_root (c :: rc)) as (tA & HtA & _ & HiA & HlA); [discriminate|].
  destruct (chunks_root (c' :: rc')) as (tB & HtB & _ & HiB & HlB); [discriminate|].
  exists tA, tB. split; [exact HtA|]. split; [exact HtB|].
  rewrite Compare_present by (apply HiA || apply HiB).
  rewrite (proj1 (invariant_key_range _ HiA)), (proj1 (invariant_key_range _ HiB)).
  rewrite HlA, HlB. cbn [chunkLeaves hd SetLevel NewNode GetStartKey].
  rewrite Z.eqb_refl. split; [reflexivity|].
  cbn [snd GetRanges ranges]. apply (compare_invariant_trees _ HiA _ HiB).
Qed.

(** X9: between the trees of two non-empty lists of rows Compare reports only
    changed ranges, never added or removed ones, and no more ranges than
    either side has rows. *)
Theorem Compare_reports_only_changed (a b : Row) (ra rb : list Row) :
  exists tA tB,
    NewMerkleTreeFromRows (a :: ra) = Ok tA
    /\ NewMerkleTreeFromRows (b :: rb) = Ok tB
    /\ Forall (fun r => KR_Type r = DiffTypeChanged)
              (GetRanges (snd (Compare (NewDiff tA tB))))
    /\ len (GetRanges (snd (Compare (NewDiff tA tB)))) <= len (a :: ra)
    /\ len (GetRanges (snd (Compare (NewDiff tA tB)))) <= len (b :: rb).
Proof.
  destruct (rows_root (a :: ra)) as (tA & HtA & _ & HiA & HlA); [discriminate|].
  destruct (rows_root (b :: rb)) as (tB & HtB & _ & HiB & HlB); [discriminate|].
  exists tA, tB. split; [exact HtA|]. split; [exact HtB|].
  rewrite Compare_present by (apply HiA || apply HiB).
  destruct (compare_invariant_trees _ HiA _ HiB) as (Hty & HnA & HnB & _).
  rewrite HlA in HnA. rewrite HlB in HnB. rewrite length_map in HnA, HnB.
  destruct (_ =? _); cbn [snd GetRanges ranges NewDiff].
  - unfold len. split; [exact Hty|]. split; lia.
  - unfold len. cbn [List.length]. split; [constructor|]. split; lia.
Qed.

(** X10: when the first keys have the same length, Compare on the trees of two
    non-empty lists of rows reports no range if and only if the two root
    hashes are equal. *)
Theorem no_ranges_iff_equal_root_hashes (a b : Row) (ra rb : list Row) :
  len (Key a) = len (Key b) ->
  exists tA tB,
    NewMerkleTreeFromRows (a :: ra) = Ok tA
    /\ NewMerkleTreeFromRows (b :: rb) = Ok tB
    /\ fst (Compare (NewDiff tA tB)) = Ok tt
    /\ (GetRanges (snd (Compare (NewDiff tA tB))) = []
        <-> GetHash (GetRoot tA) = GetHash (GetRoot tB)).
Proof.
  intros Hlen.
  destruct (rows_root (a :: ra)) as (tA & HtA & _ & HiA & HlA); [discriminate|].
  destruct (rows_root (b :: rb)) as (tB & HtB & _ & HiB & HlB); [discriminate|].
  exists tA, tB. split; [exact HtA|]. split; [exact HtB|].
  rewrite Compare_present by (apply HiA || apply HiB).
  rewrite (proj1 (invariant_key_range _ HiA)), (proj1 (invariant_key_range _ HiB)).
  rewrite HlA, HlB. cbn [map hd rowLeaf leafNode GetStartKey].
  rewrite Hlen, Z.eqb_refl. cbn [fst snd GetRanges ranges].
  split; [reflexivity|]. split.
  - apply (compare_invariant_trees _ HiA _ HiB).
  - intros Eh. destruct HiA as [HnA _], HiB as [HnB _].
    destruct (GetRoot tA); [now elim HnA|]. destruct (GetRoot tB); [now elim HnB|].
    cbn in Eh. subst. cbn [compareTreesRecursive GetHash]. now rewrite bytes_Equal_refl.
Qed.

(** X11: for two lists with the same number of rows (and first keys of the same
    length) the ranges Compare reports are, in order, changed ranges
    [key, key] of positions at which the two rows hash differently: a
    subsequence of the list of all such positions. *)
Theorem equal_length_diff_is_sound (a b : Row) (ra rb : list Row) :
  List.length ra = List.length rb -> len (Key a) = len (Key b) ->
  exists tA tB,
    NewMerkleTreeFromRows (a :: ra) = Ok tA
    /\ NewMerkleTreeFromRows (b :: rb) = Ok tB
    /\ fst (Compare (NewDiff tA tB)) = Ok tt
    /\ subseq (GetRanges (snd (Compare (NewDiff tA tB))))
              (changedRows (a :: ra) (b :: rb)).
Proof.
  intros Hrows Hlen.
  destruct (rows_root (a :: ra)) as (tA & HtA & HbA & HiA & HlA); [discriminate|].
  destruct (rows_root (b :: rb)) as (tB & HtB & HbB & HiB & HlB); [discriminate|].
  exists tA, tB. split; [exact HtA|]. split; [exact HtB|].
  rewrite Compare_present by (apply HiA || apply HiB).
  rewrite (proj1 (invariant_key_range _ HiA)), (proj1 (invariant_key_range _ HiB)).
  rewrite HlA, HlB. cbn [map hd rowLeaf leafNode GetStartKey].
  rewrite Hlen, Z.eqb_refl. cbn [fst snd GetRanges ranges].
  split; [reflexivity|].
  unfold changedRows. rewrite <- HlA, <- HlB.
  apply compare_sameShape; [|assumption|assumption].
  eapply buildTreeLevels_sameShape; [|exact HbA|exact HbB].
  apply rowLeaves_sameShape. cbn [List.length]. now rewrite Hrows.
Qed.

Lemma changedLeaves_same (l : list MerkleNode) : changedLeaves l l = [].
Proof.
  unfold changedLeaves. induction l as [|x l IH]; [reflexivity|].
  cbn [combine flat_map fst snd]. now rewrite bytes_Equal_refl, IH.
Qed.

Lemma subseq_singleton {A : Type} (l : list A) (x : A) :
  subseq l [x] -> l = [] \/ l = [x].
Proof.
  intros H. inversion H as [|? ? ? H'|? ? ? H']; subst.
  - inversion H'; subst. now left.
  - inversion H'; subst. now right.
Qed.

Lemma subseq_of_nil {A : Type} (l : list A) : subseq l [] -> l = [].
Proof. intros H. now inversion H. Qed.

(** X12: when two lists of rows differ in one position only and the root hashes
    differ, Compare reports exactly one range: the changed range of that
    row's key. *)
Theorem single_changed_row_is_reported (pre post : list Row) (a b : Row)
  (tA tB : MerkleTree) :
  NewMerkleTreeFromRows (pre ++ a :: post) = Ok tA ->
  NewMerkleTreeFromRows (pre ++ b :: post) = Ok tB ->
  len (Key a) = len (Key b) ->
  GetHash (GetRoot tA) <> GetHash (GetRoot tB) ->
  Compare (NewDiff tA tB)
  = (Ok tt, mkDiff tA tB [mkKeyRange (Key a) (Key a) DiffTypeChanged]).
Proof.
  intros HtA HtB Hlen Hhash.
  assert (HneA : pre ++ a :: post <> []) by (destruct pre; discriminate).
  assert (HneB : pre ++ b :: post <> []) by (destruct pre; discriminate).
  destruct (rows_root _ HneA) as (tA' & HtA' & HbA & HiA & HlA).
  destruct (rows_root _ HneB) as (tB' & HtB' & HbB & HiB & HlB).
  rewrite HtA in HtA'. injection HtA' as <-.
  rewrite HtB in HtB'. injection HtB' as <-.
  rewrite Compare_present by (apply HiA || apply HiB).
  rewrite (proj1 (invariant_key_range _ HiA)), (proj1 (invariant_key_range _ HiB)).
  rewrite HlA, HlB.
  assert (Hkeys : len (GetStartKey (hd Nil (map rowLeaf (pre ++ a :: post))))
                  = len (GetStartKey (hd Nil (map rowLeaf (pre ++ b :: post))))).
  { destruct pre; cbn; [exact Hlen | reflexivity]. }
  rewrite Hkeys, Z.eqb_refl. do 2 f_equal.
  assert (Hsub : subseq (compareTreesRecursive (GetRoot tA) (GetRoot tB) [])
                        (changedLeaves (leaves (GetRoot tA)) (leaves (GetRoot tB)))).
  { apply compare_sameShape; [|assumption|assumption].
    eapply buildTreeLevels_sameShape; [|exact HbA|exact HbB].
    apply rowLeaves_sameShape. rewrite !length_app. reflexivity. }
  rewrite HlA, HlB, !map_app in Hsub. cbn [map] in Hsub.
  rewrite changedLeaves_app in Hsub by reflexivity.
  change (rowLeaf a :: map rowLeaf post) with ([rowLeaf a] ++ map rowLeaf post) in Hsub.
  change (rowLeaf b :: map rowLeaf post) with ([rowLeaf b] ++ map rowLeaf post) in Hsub.
  rewrite changedLeaves_app in Hsub by reflexivity.
  rewrite !changedLeaves_same in Hsub. rewrite app_nil_r in Hsub. cbn in Hsub.
  assert (Hnonempty : compareTreesRecursive (GetRoot tA) (GetRoot tB) [] <> []).
  { intros E. apply Hhash. now apply (compare_invariant_trees _ HiA _ HiB). }
  destruct (bytes_Equal _ _).
  - apply subseq_of_nil in Hsub. now elim Hnonempty.
  - apply subseq_singleton in Hsub. destruct Hsub as [E|E]; [now elim Hnonempty|exact E].
Qed.

(** X13: a second Compare on the same diff gives the outcome and the ranges of
    the first: ranges are replaced, never appended to. *)
Theorem Compare_twice (d : Diff) : Compare (snd (Compare d)) = Compare d.
Proof.
  rewrite (Compare_sizes d _ _ (GetChunkSize_returns _) (GetChunkSize_returns _)).
  destruct (negb (_ =? _)) eqn:E; cbn [snd];
    rewrite (Compare_sizes _ _ _ (GetChunkSize_returns _) (GetChunkSize_returns _));
    cbn [treeA treeB]; now rewrite E.
Qed.

(** ** Key order *)

Lemma byteZ_inj (x y : byte) : byteZ x = byteZ y -> x = y.
Proof.
  unfold byteZ. intros H. apply N2Z.inj in H.
  pose proof (Byte.of_to_N x) as Hx. rewrite H, Byte.of_to_N in Hx. now injection Hx.
Qed.

Lemma bytes_Compare_antisym (a b : bytes) : bytes_Compare b a = - bytes_Compare a b.
Proof.
  revert b. induction a as [|x a IH]; intros [|y b]; try reflexivity.
  cbn [bytes_Compare].
  destruct (Z.ltb_spec (byteZ x) (byteZ y)), (Z.ltb_spec (byteZ y) (byteZ x));
    try lia; try reflexivity. apply IH.
Qed.

Lemma bytes_Compare_eq (a b : bytes) : bytes_Compare a b = 0 -> a = b.
Proof.
  revert b. induction a as [|x a IH]; intros [|y b]; cbn [bytes_Compare];
    try discriminate; [reflexivity|].
  destruct (Z.ltb_spec (byteZ x) (byteZ y)); [discriminate|].
  destruct (Z.ltb_spec (byteZ y) (byteZ x)); [discriminate|].
  intros E. f_equal; [apply byteZ_inj; lia | now apply IH].
Qed.

Lemma bytes_Compare_refl (a : bytes) : bytes_Compare a a = 0.
Proof.
  induction a as [|x a IH]; [reflexivity|]. cbn [bytes_Compare].
  now rewrite Z.ltb_irrefl.
Qed.

(** X14: minKey and maxKey return one of their arguments, minKey is below both
    and maxKey above both in the order of bytes.Compare, and neither
    depends on the order of the arguments. *)
Theorem minKey_maxKey_bounds (a b : bytes) :
  (minKey a b = a \/ minKey a b = b)
  /\ (maxKey a b = a \/ maxKey a b = b)
  /\ bytes_Compare (minKey a b) a <= 0 /\ bytes_Compare (minKey a b) b <= 0
  /\ 0 <= bytes_Compare (maxKey a b) a /\ 0 <= bytes_Compare (maxKey a b) b
  /\ minKey a b = minKey b a /\ maxKey a b = maxKey b a.
Proof.
  unfold minKey, maxKey.
  pose proof (bytes_Compare_antisym a b) as Hanti.
  pose proof (bytes_Compare_refl a) as Ha. pose proof (bytes_Compare_refl b) as Hb.
  pose proof (bytes_Compare_eq a b) as Heq.
  destruct (Z.ltb_spec (bytes_Compare a b) 0), (Z.ltb_spec 0 (bytes_Compare a b)),
    (Z.ltb_spec (bytes_Compare b a) 0), (Z.ltb_spec 0 (bytes_Compare b a));
    try lia; repeat split; auto; try lia;
    try (rewrite Heq by lia; reflexivity); try (symmetry; apply Heq; lia).
Qed.

(** ** Fixed-width big-endian fields *)

Lemma byteZ_Zbyte (z : Z) : byteZ (Zbyte z) = z mod 256.
Proof.
  unfold byteZ, Zbyte.
  assert (Hr : 0 <= z mod 256 < 256) by (apply Z.mod_pos_bound; lia).
  destruct (Byte.of_N (Z.to_N (z mod 256))) as [b|] eqn:E.
  - apply Byte.to_of_N in E. rewrite E. apply Z2N.id. lia.
  - apply Byte.of_N_None_iff in E. lia.
Qed.

Lemma be_bytes_length (n : nat) (x : Z) : List.length (be_bytes n x) = n.
Proof. induction n; cbn [be_bytes List.length]; auto. Qed.

(** Reading the bytes back gives the value modulo the field width. *)
Lemma be_value_be_bytes (n : nat) (x acc : Z) :
  SHA256.be_value acc (be_bytes n x) = acc * 2 ^ (8 * Z.of_nat n) + x mod 2 ^ (8 * Z.of_nat n).
Proof.
  revert acc. induction n as [|n IH]; intros acc.
  - cbn [be_bytes SHA256.be_value]. change (2 ^ (8 * Z.of_nat 0)) with 1.
    rewrite Z.mod_1_r. lia.
  - cbn [be_bytes SHA256.be_value]. rewrite IH, byteZ_Zbyte.
    rewrite Z.shiftr_div_pow2 by lia.
    replace (8 * Z.of_nat (S n)) with (8 * Z.of_nat n + 8) by lia.
    rewrite Z.pow_add_r by lia. change (2 ^ 8) with 256.
    assert (Hp : 0 < 2 ^ (8 * Z.of_nat n)) by (apply Z.pow_pos_nonneg; lia).
    rewrite (Z.rem_mul_r x (2 ^ (8 * Z.of_nat n)) 256) by lia.
    ring.
Qed.

Lemma be_bytes_inj (n : nat) (x y : Z) :
  be_bytes n x = be_bytes n y -> x mod 2 ^ (8 * Z.of_nat n) = y mod 2 ^ (8 * Z.of_nat n).
Proof.
  intros H. pose proof (be_value_be_bytes n x 0) as Hx.
  rewrite H, be_value_be_bytes in Hx. lia.
Qed.

Lemma app_inj_same_length {A : Type} (a c b d : list A) :
  List.length a = List.length c -> a ++ b = c ++ d -> a = c /\ b = d.
Proof.
  revert c. induction a as [|x a IH]; intros [|y c] Hlen H; try discriminate.
  - now split.
  - cbn in H. injection H as -> H. destruct (IH c) as [-> ->]; auto.
Qed.

Lemma fixed64_inj (x y : Z) (r1 r2 : bytes) :
  PutUint64 x ++ r1 = PutUint64 y ++ r2 -> x mod 2 ^ 64 = y mod 2 ^ 64 /\ r1 = r2.
Proof.
  intros H. apply app_inj_same_length in H.
  - destruct H as [H ->]. split; [|reflexivity]. exact (be_bytes_inj 8 x y H).
  - unfold PutUint64. now rewrite !be_bytes_length.
Qed.

Lemma int64_mod_inj (x y : Z) :
  - 2 ^ 63 <= x < 2 ^ 63 -> - 2 ^ 63 <= y < 2 ^ 63 ->
  uint64 x mod 2 ^ 64 = uint64 y mod 2 ^ 64 -> x = y.
Proof.
  unfold uint64. rewrite !Z.mod_mod by lia.
  intros Hx Hy H. rewrite (Z.mod_eq x), (Z.mod_eq y) in H by lia.
  change (2 ^ 63) with 9223372036854775808 in *.
  change (2 ^ 64) with 18446744073709551616 in *. lia.
Qed.

Lemma prefixed_inj (s1 s2 r1 r2 : bytes) :
  len s1 < 2 ^ 32 -> len s2 < 2 ^ 32 ->
  PutUint32 (uint32 (len s1)) ++ s1 ++ r1 = PutUint32 (uint32 (len s2)) ++ s2 ++ r2 ->
  s1 = s2 /\ r1 = r2.
Proof.
  intros H1 H2 H. apply app_inj_same_length in H.
  - destruct H as [Hlen H]. apply (be_bytes_inj 4) in Hlen.
    unfold uint32 in Hlen. change (2 ^ (8 * Z.of_nat 4)) with (2 ^ 32) in Hlen.
    rewrite !Z.mod_mod in Hlen by lia.
    unfold len in *. rewrite !Z.mod_small in Hlen by lia.
    apply app_inj_same_length in H; [exact H | lia].
  - unfold PutUint32. now rewrite !be_bytes_length.
Qed.

(** ** The encoding of a row *)

Ltac ser_unfold :=
  cbv beta iota zeta delta
    [encodeValue serializeValue writeType writeBytes writeInt64 writeFloat64
     ser_bind buf_WriteByte buf_Write NewSerializer buf snd];
  cbn [app].

Ltac ser_unfold_in H :=
  cbv beta iota zeta delta
    [encodeValue serializeValue writeType writeBytes writeInt64 writeFloat64
     ser_bind buf_WriteByte buf_Write NewSerializer buf snd] in H;
  cbn [app] in H.

Lemma serializeValue_appends (v : Value) (s : Serializer) :
  serializeValue v s = (tt, mkSerializer (buf s ++ encodeValue v)).
Proof.
  destruct s as [b0].
  destruct v as [| | | | | | |b| | |]; try destruct b; ser_unfold;
    rewrite <- ?app_assoc; reflexivity.
Qed.

Lemma serializeValues_appends (values : list Value) (s : Serializer) :
  serializeValues values s
  = (tt, mkSerializer (buf s ++ flat_map encodeValue values)).
Proof.
  revert s. induction values as [|v rest IH]; intros s.
  - cbn. rewrite app_nil_r. now destruct s.
  - change (serializeValues (v :: rest) s)
      with (ser_bind (serializeValue v) (fun _ => serializeValues rest) s).
    unfold ser_bind. rewrite serializeValue_appends, IH.
    cbn [buf flat_map]. now rewrite app_assoc.
Qed.

Lemma SerializeRow_encodes (values : list Value) (s : Serializer) :
  fst (SerializeRow values s) = flat_map encodeValue values.
Proof.
  unfold SerializeRow, ser_bind, buf_Reset, buf_Bytes, ser_ret.
  now rewrite serializeValues_appends.
Qed.

(** X15: the serialization of a list of values is the concatenation of the
    serializations of its parts, whatever state the serializers are in. *)
Theorem SerializeRow_app (vs1 vs2 : list Value) (s s1 s2 : Serializer) :
  fst (SerializeRow (vs1 ++ vs2) s)
  = fst (SerializeRow vs1 s1) ++ fst (SerializeRow vs2 s2).
Proof. rewrite !SerializeRow_encodes. apply flat_map_app. Qed.

Lemma wrap64_small (z : Z) : - 2 ^ 63 <= z < 2 ^ 63 -> wrap64 z = z.
Proof.
  intros H. unfold wrap64. rewrite Z.mod_small; [lia|].
  change (2 ^ 64) with (2 * 2 ^ 63). lia.
Qed.

Lemma wrap64_range (z : Z) : - 2 ^ 63 <= wrap64 z < 2 ^ 63.
Proof.
  unfold wrap64. pose proof (Z.mod_pos_bound (z + 2 ^ 63) (2 ^ 64) ltac:(lia)) as H.
  change (2 ^ 64) with (2 * 2 ^ 63) in *. lia.
Qed.

Lemma UnixNano_range (t : Time) : - 2 ^ 63 <= UnixNano t < 2 ^ 63.
Proof. apply wrap64_range. Qed.

(** The canonical time has the UnixNano of the time it stands for. *)
Lemma UnixNano_canonTime (t : Time) : UnixNano (canonTime t) = UnixNano t.
Proof.
  unfold canonTime. unfold UnixNano at 1. cbn [unixSec nsec].
  rewrite (Z.mul_comm (UnixNano t / 1000000000)), <- Z.div_mod by lia.
  apply wrap64_small, UnixNano_range.
Qed.

(** Two times have the same canonical form exactly when they have the
    same UnixNano. *)
Lemma canon_time (t1 t2 : Time) :
  canon (VTime t1) = canon (VTime t2) <-> UnixNano t1 = UnixNano t2.
Proof.
  cbn [canon]. split.
  - intros H. assert (H' : canonTime t1 = canonTime t2) by congruence.
    apply (f_equal UnixNano) in H'. now rewrite !UnixNano_canonTime in H'.
  - intros H. unfold canonTime. now rewrite H.
Qed.

Lemma encodeValue_canon (v : Value) : encodeValue (canon v) = encodeValue v.
Proof.
  destruct v; try reflexivity; cbn [canon]; ser_unfold;
    first [ rewrite UnixNano_canonTime; reflexivity
          | unfold Float64bits; cbn [bits64]; rewrite Z.mod_mod by lia; reflexivity ].
Qed.

Lemma cons_eq_inv {A : Type} (x y : A) (l m : list A) :
  x :: l = y :: m -> x = y /\ l = m.
Proof. intros H. now injection H. Qed.

Lemma encodeValue_canon_inj (v1 v2 : Value) (r1 r2 : bytes) :
  wfValue v1 -> wfValue v2 ->
  encodeValue v1 ++ r1 = encodeValue v2 ++ r2 ->
  canon v1 = canon v2 /\ r1 = r2.
Proof.
  intros W1 W2 H.
  destruct v1 as [|s1|z1|z1|z1|f1|f1|b1|s1|z1|s1], v2 as [|s2|z2|z2|z2|f2|f2|b2|s2|z2|s2];
    try destruct b1; try destruct b2;
    ser_unfold_in H;
    apply cons_eq_inv in H; destruct H as [Htag H];
    try discriminate Htag; clear Htag;
    cbn [canon wfValue] in *;
    lazymatch type of H with
    | PutUint64 (uint64 (UnixNano _)) ++ _ = PutUint64 (uint64 (UnixNano _)) ++ _ =>
        apply fixed64_inj in H; destruct H as [H ->];
        apply int64_mod_inj in H; [|apply UnixNano_range|apply UnixNano_range];
        unfold canonTime; rewrite H; split; reflexivity
    | PutUint64 (uint64 _) ++ _ = PutUint64 (uint64 _) ++ _ =>
        apply fixed64_inj in H; destruct H as [H ->];
        apply int64_mod_inj in H; [subst; split; reflexivity | lia | lia]
    | PutUint64 (Float64bits _) ++ _ = PutUint64 (Float64bits _) ++ _ =>
        apply fixed64_inj in H; destruct H as [H ->];
        unfold Float64bits in *; cbn [bits64] in *;
        rewrite !Z.mod_mod in H by lia; rewrite H; split; reflexivity
    | (PutUint32 _ ++ _) ++ _ = (PutUint32 _ ++ _) ++ _ =>
        rewrite <- !app_assoc in H; apply prefixed_inj in H; [|assumption|assumption];
        destruct H as [-> ->]; split; reflexivity
    | _ :: _ = _ :: _ =>
        apply cons_eq_inv in H; destruct H as [Hb ->];
        first [ discriminate Hb | split; reflexivity ]
    | _ => split; [reflexivity | exact H]
    end.
Qed.

Lemma encodeValue_nonempty (v : Value) (r : bytes) : encodeValue v ++ r <> [].
Proof.
  destruct v as [| | | | | | |b| | |]; try destruct b; discriminate.
Qed.

Lemma encodeValues_canon (vs : list Value) :
  flat_map encodeValue vs = flat_map encodeValue (map canon vs).
Proof.
  induction vs as [|v vs IH]; [reflexivity|].
  cbn [map flat_map]. now rewrite encodeValue_canon, IH.
Qed.

(** X16: for values Go can hold, two lists serialize to the same bytes if and
    only if they agree after integers of the three widths with a case are
    read as 64-bit, float32 as the float64 it converts to, values of
    unlisted types as their text, and times as their UnixNano (so two
    times of the same UnixNano are not told apart, whatever their
    location or monotonic reading, nor are instants 2^64 ns apart). *)
Theorem SerializeRow_injective_up_to_canon (vs1 vs2 : list Value) (s1 s2 : Serializer) :
  Forall wfValue vs1 -> Forall wfValue vs2 ->
  (fst (SerializeRow vs1 s1) = fst (SerializeRow vs2 s2)
   <-> map canon vs1 = map canon vs2).
Proof.
  intros W1 W2. rewrite !SerializeRow_encodes. split.
  - revert vs2 W2. induction W1 as [|v1 vs1 Wv1 W1 IH]; intros vs2 W2 H.
    + destruct vs2 as [|v2 vs2]; [reflexivity|].
      cbn [flat_map] in H. symmetry in H. now apply encodeValue_nonempty in H.
    + destruct W2 as [|v2 vs2 Wv2 W2].
      * cbn [flat_map] in H. now apply encodeValue_nonempty in H.
      * cbn [flat_map] in H. apply encodeValue_canon_inj in H; try assumption.
        destruct H as [Hc Hrest]. cbn [map]. rewrite Hc. f_equal. now apply IH.
  - intros H. now rewrite (encodeValues_canon vs1), (encodeValues_canon vs2), H.
Qed.

(** ** Chunker *)

Lemma firstn_add {A : Type} (a b : nat) (l : list A) :
  firstn (a + b) l = firstn a l ++ firstn b (skipn a l).
Proof.
  revert l. induction a as [|a IH]; intros l; [reflexivity|].
  destruct l as [|x l]; [now rewrite !firstn_nil|].
  cbn. now rewrite IH.
Qed.

Lemma concat_windows (cs : nat) (data : bytes) (n : nat) :
  List.concat (map (window cs data) (seq 0 n)) = firstn (n * cs) data.
Proof.
  induction n as [|n IH]; [reflexivity|].
  rewrite seq_S, map_app, concat_app, IH. cbn [map List.concat plus].
  rewrite app_nil_r. unfold window.
  replace (S n * cs)%nat with (n * cs + cs)%nat by lia.
  now rewrite firstn_add.
Qed.

Lemma chunkLoop_windows (c : Chunker) (data : bytes) (n k : nat) :
  0 < chunkSize c -> len data + chunkSize c <= 2 ^ 63 ->
  (Z.of_nat (k + n) - 1) * chunkSize c < len data \/ n = O ->
  chunkLoop c data (Z.of_nat k) n
  = Ok (map (window (Z.to_nat (chunkSize c)) data) (seq k n)).
Proof.
  intros Hcs Hbound. revert k. induction n as [|n IH]; intros k Hfit; [reflexivity|].
  destruct Hfit as [Hfit|Hfit]; [|discriminate].
  cbn [chunkLoop seq map].
  assert (Hlen : 0 <= len data) by (unfold len; lia).
  assert (Hk : Z.of_nat k * chunkSize c < len data) by nia.
  rewrite (wrap64_small (Z.of_nat k * chunkSize c)) by nia.
  rewrite (Z.min_l (Z.of_nat k * chunkSize c)) by lia.
  rewrite wrap64_small by nia.
  unfold slice.
  replace ((0 <=? Z.of_nat k * chunkSize c)
           && (Z.of_nat k * chunkSize c
               <=? Z.min (Z.of_nat k * chunkSize c + chunkSize c) (len data))
           && (Z.min (Z.of_nat k * chunkSize c + chunkSize c) (len data) <=? len data))
    with true
    by (symmetry; rewrite !andb_true_iff, !Z.leb_le; lia).
  replace (Z.of_nat k + 1) with (Z.of_nat (S k)) by lia.
  rewrite IH.
  - f_equal. f_equal. unfold window.
    replace (Z.to_nat (Z.of_nat k * chunkSize c)) with (k * Z.to_nat (chunkSize c))%nat by nia.
    set (rest := skipn (k * Z.to_nat (chunkSize c)) data).
    assert (Hrest : Z.of_nat (List.length rest) = len data - Z.of_nat k * chunkSize c).
    { subst rest. rewrite length_skipn. unfold len in *. nia. }
    destruct (Z.min_spec (Z.of_nat k * chunkSize c + chunkSize c) (len data))
      as [[_ ->]|[Hge ->]].
    + f_equal. lia.
    + rewrite !firstn_all2; [reflexivity | lia | lia].
  - destruct n as [|n]; [now right|]. left.
    replace (Z.of_nat (S k + S n)) with (Z.of_nat (k + S (S n))) by lia. exact Hfit.
Qed.

Lemma chunkCount_bounds (n cs : Z) :
  0 < n -> 0 < cs ->
  let q := (n + cs - 1) / cs in
  0 < q /\ (q - 1) * cs < n <= q * cs.
Proof.
  intros Hn Hcs q. subst q.
  pose proof (Z.div_mod (n + cs - 1) cs ltac:(lia)) as Hdm.
  pose proof (Z.mod_pos_bound (n + cs - 1) cs Hcs) as Hr.
  nia.
Qed.

Lemma Chunk_windows (cs : Z) (data : bytes) :
  0 < cs -> len data + cs < 2 ^ 63 -> data <> [] ->
  Chunk (NewChunker cs) data
  = Ok (map (window (Z.to_nat cs) data)
            (seq 0 (Z.to_nat ((len data + cs - 1) / cs)))).
Proof.
  intros Hcs Hbound Hne.
  assert (Hlen : 0 < len data) by (destruct data; [now elim Hne | unfold len; cbn; lia]).
  destruct (chunkCount_bounds (len data) cs Hlen Hcs) as (Hq & Hlo & Hhi).
  unfold Chunk, NewChunker. cbn [chunkSize].
  replace (len data =? 0) with false by (symmetry; apply Z.eqb_neq; lia).
  replace (cs <=? 0) with false by (symmetry; apply Z.leb_gt; lia).
  rewrite (wrap64_small (len data + cs)) by lia.
  rewrite wrap64_small by lia.
  rewrite Z.quot_div_nonneg by lia.
  replace ((len data + cs - 1) / cs <? 0) with false by (symmetry; apply Z.ltb_ge; lia).
  apply (chunkLoop_windows (mkChunker cs) data _ 0); cbn [chunkSize]; [lia | lia |].
  left. rewrite Nat.add_0_l, Z2Nat.id by lia. exact Hlo.
Qed.

(** X17: for every chunk size, positive or not, Chunk returns chunks whose
    concatenation is the data, none of them empty (no chunk at all for
    empty data), as long as len(data) + chunkSize does not overflow. *)
Theorem Chunk_concat_is_data (cs : Z) (data : bytes) :
  len data + cs < 2 ^ 63 ->
  exists chunks, Chunk (NewChunker cs) data = Ok chunks
    /\ List.concat chunks = data
    /\ Forall (fun ch => ch <> []) chunks.
Proof.
  intros Hbound. destruct data as [|b data'] eqn:Edata.
  - exists []. repeat split. constructor.
  - rewrite <- Edata in *. assert (Hne : data <> []) by (subst; discriminate).
    destruct (Z.leb_spec cs 0) as [Hle|Hgt].
    + exists [data]. unfold Chunk, NewChunker. cbn [chunkSize].
      replace (len data =? 0) with false
        by (symmetry; apply Z.eqb_neq; subst; unfold len; cbn; lia).
      replace (cs <=? 0) with true by (symmetry; apply Z.leb_le; lia).
      split; [reflexivity|]. split; [cbn; apply app_nil_r|].
      constructor; [exact Hne | constructor].
    + assert (Hlen : 0 < len data) by (subst; unfold len; cbn; lia).
      destruct (chunkCount_bounds (len data) cs Hlen Hgt) as (Hq & Hlo & Hhi).
      eexists. split; [apply Chunk_windows; assumption|]. split.
      * rewrite concat_windows. apply firstn_all2. unfold len in *. nia.
      * apply Forall_forall. intros ch Hin. apply in_map_iff in Hin.
        destruct Hin as (j & <- & Hj). apply in_seq in Hj.
        unfold window. intros E. apply (f_equal (@List.length byte)) in E.
        rewrite length_firstn, length_skipn in E. cbn [List.length] in E.
        unfold len in *. nia.
Qed.

(** X18: for a positive chunk size Chunk returns ceil(len(data) / chunkSize)
    chunks, each of 1 to chunkSize bytes and all but the last of exactly
    chunkSize bytes. *)
Theorem Chunk_sizes (cs : Z) (data : bytes) :
  0 < cs -> len data + cs < 2 ^ 63 ->
  exists chunks, Chunk (NewChunker cs) data = Ok chunks
    /\ len chunks = (len data + cs - 1) / cs
    /\ Forall (fun ch => 0 < len ch <= cs) chunks
    /\ forall j, (S j < List.length chunks)%nat -> len (nth j chunks []) = cs.
Proof.
  intros Hcs Hbound. destruct data as [|b data'] eqn:Edata.
  - exists []. split; [reflexivity|]. split.
    + unfold len. cbn [List.length]. symmetry. apply Z.div_small. lia.
    + split; [constructor|]. intros j Hj. cbn in Hj. lia.
  - rewrite <- Edata in *. assert (Hne : data <> []) by (subst; discriminate).
    assert (Hlen : 0 < len data) by (subst; unfold len; cbn; lia).
    destruct (chunkCount_bounds (len data) cs Hlen Hcs) as (Hq & Hlo & Hhi).
    eexists. split; [apply Chunk_windows; assumption|].
    set (q := (len data + cs - 1) / cs) in *.
    split; [unfold len; rewrite length_map, length_seq; lia|]. split.
    + apply Forall_forall. intros ch Hin. apply in_map_iff in Hin.
      destruct Hin as (j & <- & Hj). apply in_seq in Hj.
      unfold window, len in *. rewrite length_firstn, length_skipn. nia.
    + intros j Hj. rewrite length_map, length_seq in Hj.
      rewrite (nth_indep _ [] (window (Z.to_nat cs) data O))
        by (rewrite length_map, length_seq; lia).
      rewrite map_nth, seq_nth by lia.
      unfold window, len in *. rewrite length_firstn, length_skipn. nia.
Qed.

Lemma Chunk_sizes_witness :
  exists chunks, Chunk (NewChunker 3) (bytes_of_string "abcdefg") = Ok chunks
    /\ len chunks = 3
    /\ Forall (fun ch => 0 < len ch <= 3) chunks
    /\ forall j, (S j < List.length chunks)%nat -> len (nth j chunks []) = 3.
Proof.
  apply (Chunk_sizes 3 (bytes_of_string "abcdefg")); [lia | vm_compute; reflexivity].
Defined.

(** ** Collecting rows and building from a reader *)





Lemma BuildTreeFromReader_root
  (R : Type) (RR : RowReader R) (r r' : R) (rows : list Row) (fuel : nat) :
  yields r rows r' -> Err r' = None -> (List.length rows < fuel)%nat ->
  exists t t',
    BuildTreeFromReader fuel r = Some (Ok (Some t, None), r')
    /\ NewMerkleTreeFromRows rows = Ok t'
    /\ GetRoot t = GetRoot t'.
Proof.
  intros Hy Herr Hfuel.
  destruct (readerLeaves_yields r r' rows Hy fuel NewNodeBuilder [] Hfuel) as [nb' Hread].
  destruct (NewMerkleTreeFromRows_returns rows) as [t' [Ht' [Hnil Hbuild]]].
  unfold BuildTreeFromReader. rewrite Hread, Herr. cbn [app].
  destruct rows as [|row rest].
  - cbn. eexists. exists t'. split; [reflexivity|]. split; [exact Ht'|].
    cbn. symmetry. now apply Hnil.
  - replace (len (map rowLeaf (row :: rest)) =? 0) with false by reflexivity.
    rewrite (Hbuild ltac:(discriminate)). cbn [result_map].
    eexists. exists t'. split; [reflexivity|]. split; [exact Ht'|reflexivity].
Qed.

Lemma eraseKeys_GetHash (n : MerkleNode) : GetHash (eraseKeys n) = GetHash n.
Proof. destruct n; reflexivity. Qed.

Lemma eraseKeys_GetLevel (n : MerkleNode) : GetLevel (eraseKeys n) = GetLevel n.
Proof. destruct n; reflexivity. Qed.

(** X20: for a reader that ends without error, BuildTreeFromReader returns a
    tree that has the shape of the tree NewMerkleTreeFromRows builds from
    the rows the reader yields, with the same hash and the same level at
    every node, and so the same root hash.  The keys are left out of the
    comparison: BuildTreeFromReader keeps the key slices the reader hands
    out, which the reader may overwrite later, while a collected row holds
    a copy. *)
Theorem BuildTreeFromReader_agrees_with_rows
  (R : Type) (RR : RowReader R) (r r' : R) (rows : list Row) (fuel : nat) :
  yields r rows r' -> Err r' = None -> (List.length rows < fuel)%nat ->
  exists t t',
    BuildTreeFromReader fuel r = Some (Ok (Some t, None), r')
    /\ NewMerkleTreeFromRows rows = Ok t'
    /\ eraseKeys (GetRoot t) = eraseKeys (GetRoot t')
    /\ GetHash (GetRoot t) = GetHash (GetRoot t')
    /\ GetLevel (GetRoot t) = GetLevel (GetRoot t').
Proof.
  intros Hy Herr Hfuel.
  destruct (BuildTreeFromReader_root R RR r r' rows fuel Hy Herr Hfuel)
    as (t & t' & Ht & Ht' & Hroot).
  exists t, t'. split; [exact Ht|]. split; [exact Ht'|].
  assert (He : eraseKeys (GetRoot t) = eraseKeys (GetRoot t')) by now rewrite Hroot.
  split; [exact He|]. split.
  - now rewrite <- (eraseKeys_GetHash (GetRoot t)), He, eraseKeys_GetHash.
  - now rewrite <- (eraseKeys_GetLevel (GetRoot t)), He, eraseKeys_GetLevel.
Qed.

Lemma BuildTreeFromReader_agrees_with_rows_witness :
  exists t t',
    BuildTreeFromReader 4 (mkSliceReader sampleRows (mkRow [] []) None)
    = Some (Ok (Some t, None),
            mkSliceReader [] (mkRow (bytes_of_string "k3") [VBool true]) None)
    /\ NewMerkleTreeFromRows sampleRows = Ok t'
    /\ eraseKeys (GetRoot t) = eraseKeys (GetRoot t')
    /\ GetHash (GetRoot t) = GetHash (GetRoot t')
    /\ GetLevel (GetRoot t) = GetLevel (GetRoot t').
Proof.
  refine (BuildTreeFromReader_agrees_with_rows SliceReader _
            (mkSliceReader sampleRows (mkRow [] []) None)
            (mkSliceReader [] (mkRow (bytes_of_string "k3") [VBool true]) None)
            sampleRows 4 _ _ _).
  - exact (SliceReader_yields sampleRows (mkRow [] []) None).
  - reflexivity.
  - simpl. lia.
Defined.

(** ** StreamingBuilder *)

Lemma AddRow_leaves (rows : list Row) (b : StreamingBuilder) :
  GetLeaves (fold_left (fun b row => AddRow row b) rows b)
  = GetLeaves b
    ++ map (fun row => mkLeafData (Key row) (fst (SerializeRow (Values row) NewSerializer)))
           rows.
Proof.
  revert b. induction rows as [|row rest IH]; intros b; cbn [fold_left map].
  - now rewrite app_nil_r.
  - rewrite IH. unfold AddRow.
    rewrite (SerializeRow_resets (Values row) (SB_serializer b)).
    destruct (SerializeRow (Values row) NewSerializer) as [ser s].
    cbn [GetLeaves SB_leaves fst]. now rewrite <- app_assoc.
Qed.

Lemma AddRow_batchSize (rows : list Row) (b : StreamingBuilder) :
  SB_batchSize (fold_left (fun b row => AddRow row b) rows b) = SB_batchSize b.
Proof.
  revert b. induction rows as [|row rest IH]; intros b; cbn [fold_left]; [reflexivity|].
  rewrite IH. unfold AddRow. now destruct (SerializeRow _ _).
Qed.

(** X21: after AddRow of each row in turn, GetLeaves holds one entry per row, in
    order, whose key and serialized data make the leaf the tree builder
    makes for that row; a batch size of 0 or less is replaced by 1000. *)
Theorem StreamingBuilder_collects_leaves (batchSize : Z) (rows : list Row) :
  map (fun ld => SetLevel 0 (NewNode (LD_SerializedData ld) (LD_Key ld) (LD_Key ld)))
      (GetLeaves (fold_left (fun b row => AddRow row b) rows
                            (NewStreamingBuilder batchSize)))
  = map rowLeaf rows
  /\ SB_batchSize (fold_left (fun b row => AddRow row b) rows
                             (NewStreamingBuilder batchSize))
     = (if batchSize <=? 0 then 1000 else batchSize).
Proof.
  split.
  - rewrite AddRow_leaves. cbn [NewStreamingBuilder GetLeaves SB_leaves app].
    rewrite map_map. reflexivity.
  - now rewrite AddRow_batchSize.
Qed.

Lemma no_ranges_iff_equal_root_hashes_witness :
  exists tA tB,
    NewMerkleTreeFromRows snapshotA = Ok tA
    /\ NewMerkleTreeFromRows snapshotB = Ok tB
    /\ fst (Compare (NewDiff tA tB)) = Ok tt
    /\ (GetRanges (snd (Compare (NewDiff tA tB))) = []
        <-> GetHash (GetRoot tA) = GetHash (GetRoot tB)).
Proof.
  apply (no_ranges_iff_equal_root_hashes
           (rowOf "id1" [VInt 1; VString (bytes_of_string "ann")])
           (rowOf "id1" [VInt 1; VString (bytes_of_string "ann")])).
  reflexivity.
Defined.

Lemma equal_length_diff_is_sound_witness :
  exists tA tB,
    NewMerkleTreeFromRows snapshotA = Ok tA
    /\ NewMerkleTreeFromRows snapshotB = Ok tB
    /\ fst (Compare (NewDiff tA tB)) = Ok tt
    /\ subseq (GetRanges (snd (Compare (NewDiff tA tB))))
              (changedRows snapshotA snapshotB).
Proof.
  apply (equal_length_diff_is_sound
           (rowOf "id1" [VInt 1; VString (bytes_of_string "ann")])
           (rowOf "id1" [VInt 1; VString (bytes_of_string "ann")]));
    reflexivity.
Defined.

Lemma single_changed_row_is_reported_witness :
  exists tA tB,
    NewMerkleTreeFromRows snapshotA = Ok tA
    /\ NewMerkleTreeFromRows snapshotB = Ok tB
    /\ Compare (NewDiff tA tB)
       = (Ok tt, mkDiff tA tB [mkKeyRange (bytes_of_string "id2") (bytes_of_string "id2")
                                          DiffTypeChanged]).
Proof.
  destruct (NewMerkleTreeFromRows_returns snapshotA) as [tA [HtA _]].
  destruct (NewMerkleTreeFromRows_returns snapshotB) as [tB [HtB _]].
  exists tA, tB. split; [exact HtA|]. split; [exact HtB|].
  apply (single_changed_row_is_reported
           [rowOf "id1" [VInt 1; VString (bytes_of_string "ann")]]
           [rowOf "id3" [VInt 3; VString (bytes_of_string "cy")]]
           (rowOf "id2" [VInt 2; VString (bytes_of_string "bob")])
           (rowOf "id2" [VInt 2; VString (bytes_of_string "rob")])
           tA tB HtA HtB eq_refl).
  pose proof HtA as EA. pose proof HtB as EB.
  vm_compute in EA. vm_compute in EB.
  injection EA as <-. injection EB as <-. vm_compute. discriminate.
Defined.

Lemma SerializeRow_injective_up_to_canon_witness :
  fst (SerializeRow [VInt 7; VOther (bytes_of_string "x");
                     VTime (mkTime 5 0 (Some 17) (bytes_of_string "Local"))]
                    NewSerializer)
  = fst (SerializeRow [VInt32 7; VString (bytes_of_string "x");
                       VTime (mkTime 5 0 None (bytes_of_string "UTC"))]
                      NewSerializer)
  <-> map canon [VInt 7; VOther (bytes_of_string "x");
                 VTime (mkTime 5 0 (Some 17) (bytes_of_string "Local"))]
      = map canon [VInt32 7; VString (bytes_of_string "x");
                   VTime (mkTime 5 0 None (bytes_of_string "UTC"))].
Proof.
  apply (SerializeRow_injective_up_to_canon
           [VInt 7; VOther (bytes_of_string "x");
            VTime (mkTime 5 0 (Some 17) (bytes_of_string "Local"))]
           [VInt32 7; VString (bytes_of_string "x");
            VTime (mkTime 5 0 None (bytes_of_string "UTC"))]);
    repeat constructor; vm_compute; congruence.
Defined.

Lemma Chunk_concat_is_data_witness :
  exists chunks, Chunk (NewChunker 3) (bytes_of_string "abcdefg") = Ok chunks
    /\ List.concat chunks = bytes_of_string "abcdefg"
    /\ Forall (fun ch => ch <> []) chunks.
Proof.
  apply (Chunk_concat_is_data 3 (bytes_of_string "abcdefg")). vm_compute. reflexivity.
Defined.

(** ** What the diff cannot see *)

Lemma Compare_same_root (tA tB : MerkleTree) :
  GetRoot tA = GetRoot tB -> Compare (NewDiff tA tB) = (Ok tt, mkDiff tA tB []).
Proof.
  intros E.
  rewrite (Compare_sizes (NewDiff tA tB) _ _
             (GetChunkSize_returns tA) (GetChunkSize_returns tB)).
  unfold NewDiff, GetRoot in *. cbn [treeA treeB].
  rewrite E, Z.eqb_refl. cbn [negb]. now rewrite compareTreesRecursive_same.
Qed.

Lemma rowLeaf_canon (a b : Row) :
  Key a = Key b -> map canon (Values a) = map canon (Values b) -> rowLeaf a = rowLeaf b.
Proof.
  intros Hk Hv. unfold rowLeaf. rewrite Hk, !SerializeRow_encodes.
  now rewrite (encodeValues_canon (Values a)), (encodeValues_canon (Values b)), Hv.
Qed.

(** X22: two lists of rows with the same keys whose values agree up to integer
    width, float width, text rendering of unlisted types and, for times,
    all but their UnixNano build trees with the same root, and Compare
    reports nothing. *)
Theorem diff_ignores_value_representation (ra rb : list Row) :
  map Key ra = map Key rb ->
  map (fun r => map canon (Values r)) ra = map (fun r => map canon (Values r)) rb ->
  exists tA tB,
    NewMerkleTreeFromRows ra = Ok tA
    /\ NewMerkleTreeFromRows rb = Ok tB
    /\ GetRoot tA = GetRoot tB
    /\ Compare (NewDiff tA tB) = (Ok tt, mkDiff tA tB []).
Proof.
  intros Hk Hv.
  assert (Hleaves : map rowLeaf ra = map rowLeaf rb).
  { revert rb Hk Hv. induction ra as [|a ra IH]; intros [|b rb] Hk Hv;
      try discriminate; [reflexivity|].
    cbn [map] in *. injection Hk as Hk1 Hk. injection Hv as Hv1 Hv.
    now rewrite (rowLeaf_canon a b Hk1 Hv1), (IH rb Hk Hv). }
  destruct (NewMerkleTreeFromRows_returns ra) as [tA [HtA [HnilA HbuildA]]].
  destruct (NewMerkleTreeFromRows_returns rb) as [tB [HtB [HnilB HbuildB]]].
  exists tA, tB. split; [exact HtA|]. split; [exact HtB|].
  assert (Hroot : GetRoot tA = GetRoot tB).
  { destruct ra as [|a ra'], rb as [|b rb']; try discriminate.
    - now rewrite HnilA, HnilB.
    - specialize (HbuildA ltac:(discriminate)). specialize (HbuildB ltac:(discriminate)).
      rewrite Hleaves, HbuildB in HbuildA. now injection HbuildA. }
  split; [exact Hroot | now apply Compare_same_root].
Qed.

Lemma diff_ignores_value_representation_witness :
  exists tA tB,
    NewMerkleTreeFromRows [rowOf "id1" [VInt 7; VOther (bytes_of_string "x")]] = Ok tA
    /\ NewMerkleTreeFromRows [rowOf "id1" [VInt32 7; VString (bytes_of_string "x")]] = Ok tB
    /\ GetRoot tA = GetRoot tB
    /\ Compare (NewDiff tA tB) = (Ok tt, mkDiff tA tB []).
Proof.
  apply (diff_ignores_value_representation
           [rowOf "id1" [VInt 7; VOther (bytes_of_string "x")]]
           [rowOf "id1" [VInt32 7; VString (bytes_of_string "x")]]); reflexivity.
Defined.

(** ** Chunking and building *)

(** X23: for a positive chunk size with len(data) + chunkSize below 2^63
    (no overflow of int in Chunk), chunking non-empty data and building the
    tree over the chunks gives ceil(len / chunkSize) leaves that hash the
    chunks in order, under a root of level ceil(log2) of that count. *)
Theorem chunked_data_tree (cs : Z) (data : bytes) :
  0 < cs -> len data + cs < 2 ^ 63 -> data <> [] ->
  exists chunks t,
    Chunk (NewChunker cs) data = Ok chunks
    /\ NewMerkleTreeFromChunks chunks = Ok t
    /\ map GetHash (leaves (GetRoot t)) = map Hash chunks
    /\ len (leaves (GetRoot t)) = (len data + cs - 1) / cs
    /\ GetLevel (GetRoot t) = Z.log2_up ((len data + cs - 1) / cs).
Proof.
  intros Hcs Hbound Hne.
  assert (Hlen : 0 < len data)
    by (destruct data; [now elim Hne | unfold len; cbn [List.length]; lia]).
  destruct (chunkCount_bounds (len data) cs Hlen Hcs) as (Hq & _ & _).
  pose proof (Chunk_windows cs data Hcs Hbound Hne) as Hchunk.
  set (chunks := map (window (Z.to_nat cs) data)
                     (seq 0 (Z.to_nat ((len data + cs - 1) / cs)))) in *.
  assert (Hcount : len chunks = (len data + cs - 1) / cs).
  { subst chunks. unfold len at 1. rewrite length_map, length_seq. lia. }
  assert (Hcne : chunks <> []).
  { intros E. rewrite E in Hcount. change (len (@nil bytes)) with 0 in Hcount. lia. }
  destruct (chunks_root chunks Hcne) as (t & Ht & Hbuild & Hinv & Hleaves).
  exists chunks, t. split; [exact Hchunk|]. split; [exact Ht|].
  split; [|split].
  - rewrite Hleaves. clear. generalize 0 at 1 as i.
    induction chunks as [|c rest IH]; intros i; [reflexivity|].
    cbn [chunkLeaves map SetLevel NewNode GetHash]. now rewrite IH.
  - rewrite Hleaves. unfold len in *. now rewrite chunkLeaves_length.
  - assert (Hlne : chunkLeaves 0 chunks <> []).
    { intros E. apply (f_equal (@List.length MerkleNode)) in E.
      rewrite chunkLeaves_length in E. destruct chunks; [now elim Hcne | discriminate E]. }
    rewrite (buildTreeLevels_height _ _ Hlne (chunkLeaves_level _ _) Hbuild).
    unfold len in *. now rewrite chunkLeaves_length, Hcount.
Qed.

Lemma chunked_data_tree_witness :
  exists chunks t,
    Chunk (NewChunker 3) (bytes_of_string "abcdefg") = Ok chunks
    /\ NewMerkleTreeFromChunks chunks = Ok t
    /\ map GetHash (leaves (GetRoot t)) = map Hash chunks
    /\ len (leaves (GetRoot t)) = 3
    /\ GetLevel (GetRoot t) = 2.
Proof.
  apply (chunked_data_tree 3 (bytes_of_string "abcdefg"));
    [lia | vm_compute; reflexivity | discriminate].
Defined.

(** ** Go maps as binding lists *)

Lemma bytes_Equal_spec (a b : bytes) : reflect (a = b) (bytes_Equal a b).
Proof.
  destruct (bytes_Equal a b) eqn:E; constructor.
  - now apply bytes_Equal_eq.
  - intros ->. now rewrite bytes_Equal_refl in E.
Qed.

Lemma mapGet_mapSet_same {V : Type} (m : GoMap V) (k : bytes) (v : V) :
  mapGet (mapSet m k v) k = Some v.
Proof.
  induction m as [|[k' v'] m IH]; cbn [mapSet mapGet].
  - now rewrite bytes_Equal_refl.
  - destruct (bytes_Equal_spec k' k) as [->|N]; cbn [mapGet].
    + now rewrite bytes_Equal_refl.
    + destruct (bytes_Equal_spec k' k); [contradiction | exact IH].
Qed.

Lemma mapGet_mapSet_other {V : Type} (m : GoMap V) (k k' : bytes) (v : V) :
  k <> k' -> mapGet (mapSet m k v) k' = mapGet m k'.
Proof.
  intros N. induction m as [|[k0 v0] m IH]; cbn [mapSet mapGet].
  - destruct (bytes_Equal_spec k k'); [contradiction | reflexivity].
  - destruct (bytes_Equal_spec k0 k) as [->|N0]; cbn [mapGet].
    + destruct (bytes_Equal_spec k k'); [contradiction | reflexivity].
    + destruct (bytes_Equal_spec k0 k'); [reflexivity | exact IH].
Qed.

Lemma mapKeys_mapSet {V : Type} (m : GoMap V) (k k' : bytes) (v : V) :
  In k' (mapKeys (mapSet m k v)) <-> k' = k \/ In k' (mapKeys m).
Proof.
  unfold mapKeys. induction m as [|[k0 v0] m IH]; cbn [mapSet map In fst].
  - intuition.
  - destruct (bytes_Equal_spec k0 k) as [->|N0]; cbn [map In fst]; intuition.
Qed.

Lemma mapSet_NoDup {V : Type} (m : GoMap V) (k : bytes) (v : V) :
  NoDup (mapKeys m) -> NoDup (mapKeys (mapSet m k v)).
Proof.
  unfold mapKeys. induction m as [|[k0 v0] m IH]; cbn [mapSet map fst]; intros H.
  - constructor; [intros [] | constructor].
  - inversion H as [|? ? Hnin Hrest]; subst.
    destruct (bytes_Equal_spec k0 k) as [->|N0]; cbn [map fst].
    + now constructor.
    + constructor; [|now apply IH].
      intros Hin. apply (mapKeys_mapSet m k k0 v) in Hin.
      destruct Hin as [E|Hin]; [now elim N0 | contradiction].
Qed.

Lemma mapGet_None {V : Type} (m : GoMap V) (k : bytes) :
  mapGet m k = None <-> ~ In k (mapKeys m).
Proof.
  unfold mapKeys. induction m as [|[k0 v0] m IH]; cbn [mapGet map In fst].
  - intuition.
  - destruct (bytes_Equal_spec k0 k) as [->|N0].
    + split; [discriminate | intros H; exfalso; apply H; now left].
    + rewrite IH. intuition.
Qed.

Lemma mapGet_In {V : Type} (m : GoMap V) (k : bytes) (v : V) :
  NoDup (mapKeys m) -> In (k, v) m -> mapGet m k = Some v.
Proof.
  unfold mapKeys. induction m as [|[k0 v0] m IH]; cbn [mapGet map In fst]; intros Hnd Hin.
  - contradiction.
  - inversion Hnd as [|? ? Hnin Hrest]; subst.
    destruct Hin as [E|Hin].
    + injection E as -> ->. now rewrite bytes_Equal_refl.
    + destruct (bytes_Equal_spec k0 k) as [->|N0]; [|now apply IH].
      exfalso. apply Hnin. apply in_map_iff. now exists (k, v).
Qed.

Lemma mapBool_mapSet_true (m : GoMap bool) (k k' : bytes) :
  mapBool (mapSet m k true) k' = true <-> k' = k \/ mapBool m k' = true.
Proof.
  unfold mapBool. destruct (bytes_Equal_spec k k') as [->|N].
  - rewrite mapGet_mapSet_same. intuition.
  - rewrite mapGet_mapSet_other by assumption. intuition congruence.
Qed.

(** ** Sorting by key *)

Lemma insertSorted_In {A : Type} (key : A -> bytes) (x y : A) (l : list A) :
  In y (insertSorted key x l) <-> y = x \/ In y l.
Proof.
  induction l as [|z l IH]; cbn [insertSorted In].
  - intuition.
  - destruct (_ <? 0); cbn [In]; [intuition | rewrite IH; intuition].
Qed.

Lemma sortByKey_In {A : Type} (key : A -> bytes) (y : A) (l : list A) :
  In y (sortByKey key l) <-> In y l.
Proof.
  induction l as [|x l IH]; cbn [sortByKey fold_right In]; [reflexivity|].
  fold (sortByKey key l). rewrite insertSorted_In, IH. intuition.
Qed.

Lemma insertSorted_length {A : Type} (key : A -> bytes) (x : A) (l : list A) :
  List.length (insertSorted key x l) = S (List.length l).
Proof.
  induction l as [|z l IH]; cbn [insertSorted List.length]; [reflexivity|].
  destruct (_ <? 0); cbn [List.length]; [reflexivity | now rewrite IH].
Qed.

Lemma sortByKey_length {A : Type} (key : A -> bytes) (l : list A) :
  List.length (sortByKey key l) = List.length l.
Proof.
  induction l as [|x l IH]; cbn [sortByKey fold_right List.length]; [reflexivity|].
  fold (sortByKey key l). now rewrite insertSorted_length, IH.
Qed.

(** Inserting into a strictly ascending list a key it does not hold keeps
    it strictly ascending. *)
Lemma insertSorted_keyLt {A : Type} (key : A -> bytes) (x : A) (l : list A) :
  Sorted (keyLt key) l -> ~ In (key x) (map key l) ->
  Sorted (keyLt key) (insertSorted key x l).
Proof.
  induction l as [|y l IH]; intros Hs Hnin; cbn [insertSorted].
  - constructor; constructor.
  - inversion Hs as [|? ? Hsl Hhd]; subst.
    destruct (Z.ltb_spec (bytes_Compare (key x) (key y)) 0) as [Hlt|Hge].
    + constructor; [exact Hs | constructor; exact Hlt].
    + assert (Hyx : keyLt key y x).
      { unfold keyLt. pose proof (bytes_Compare_antisym (key x) (key y)) as Ha.
        assert (bytes_Compare (key x) (key y) <> 0).
        { intros E. apply bytes_Compare_eq in E. apply Hnin. cbn [map In]. now left. }
        lia. }
      constructor.
      * apply IH; [exact Hsl|]. intros Hin. apply Hnin. cbn [map In]. now right.
      * destruct l as [|z l]; cbn [insertSorted].
        -- constructor. exact Hyx.
        -- destruct (_ <? 0); constructor; [exact Hyx | now inversion Hhd].
Qed.

Lemma sortByKey_keyLt {A : Type} (key : A -> bytes) (l : list A) :
  NoDup (map key l) -> Sorted (keyLt key) (sortByKey key l).
Proof.
  induction l as [|x l IH]; cbn [sortByKey fold_right map]; intros Hnd.
  - constructor.
  - fold (sortByKey key l). inversion Hnd as [|? ? Hnin Hrest]; subst.
    apply insertSorted_keyLt; [now apply IH|].
    intros Hin. apply Hnin. apply in_map_iff in Hin. destruct Hin as (y & E & Hy).
    apply sortByKey_In in Hy. apply in_map_iff. now exists y.
Qed.

(** ** keysInRange *)

Lemma keysInRange_step_eq (start end_ k : bytes) (keys : list bytes) (seen : GoMap bool) :
  keysInRange_step start end_ (keys, seen) k
  = if inKeyRange start end_ k && negb (mapBool seen k)
    then (keys ++ [k], mapSet seen k true) else (keys, seen).
Proof. reflexivity. Qed.

Lemma keysInRange_loop (start end_ : bytes) (ks : list bytes) :
  forall keys seen,
  (forall k, mapBool seen k = true <-> In k keys) -> NoDup keys ->
  (forall k, mapBool (snd (fold_left (keysInRange_step start end_) ks (keys, seen))) k = true
             <-> In k (fst (fold_left (keysInRange_step start end_) ks (keys, seen))))
  /\ NoDup (fst (fold_left (keysInRange_step start end_) ks (keys, seen)))
  /\ (forall k, In k (fst (fold_left (keysInRange_step start end_) ks (keys, seen)))
                <-> In k keys \/ (In k ks /\ inKeyRange start end_ k = true)).
Proof.
  induction ks as [|k0 ks IH]; intros keys seen Hseen Hnd; cbn [fold_left].
  - cbn [fst snd]. split; [exact Hseen|]. split; [exact Hnd|]. cbn [In]. intuition.
  - rewrite keysInRange_step_eq.
    destruct (inKeyRange start end_ k0) eqn:Hr; cbn [andb].
    + destruct (mapBool seen k0) eqn:Hs; cbn [negb].
      * destruct (IH keys seen Hseen Hnd) as (H1 & H2 & H3).
        split; [exact H1|]. split; [exact H2|]. intros k. rewrite H3. cbn [In].
        apply Hseen in Hs. intuition (subst; auto).
      * assert (Hnin : ~ In k0 keys).
        { intros Hin. apply Hseen in Hin. congruence. }
        destruct (IH (keys ++ [k0]) (mapSet seen k0 true)) as (H1 & H2 & H3).
        { intros k. rewrite mapBool_mapSet_true, in_app_iff, Hseen. cbn [In]. intuition. }
        { apply NoDup_app; [exact Hnd | constructor; [intros [] | constructor] |].
          intros k Hk [E|[]]. subst. contradiction. }
        split; [exact H1|]. split; [exact H2|]. intros k. rewrite H3, in_app_iff. cbn [In].
        intuition (subst; auto).
    + destruct (IH keys seen Hseen Hnd) as (H1 & H2 & H3).
      split; [exact H1|]. split; [exact H2|]. intros k. rewrite H3. cbn [In].
      intuition (subst; auto; congruence).
Qed.

Lemma keysInRange_spec (start end_ : bytes) (mapA mapB : GoMap Row) :
  (forall k, In k (keysInRange start end_ mapA mapB)
             <-> inKeyRange start end_ k = true
                 /\ (In k (mapKeys mapA) \/ In k (mapKeys mapB)))
  /\ Sorted (keyLt (fun k => k)) (keysInRange start end_ mapA mapB).
Proof.
  unfold keysInRange. cbv zeta.
  set (st0 := fold_left (keysInRange_step start end_) (mapKeys mapA) _).
  pose proof (keysInRange_loop start end_ (mapKeys mapA) [] []) as HA.
  change (fold_left (keysInRange_step start end_) (mapKeys mapA) ([], [])) with st0 in HA.
  destruct HA as (A1 & A2 & A3).
  { intros k. cbn. intuition discriminate. }
  { constructor. }
  clearbody st0. destruct st0 as [keys seen]. cbn [fst snd] in A1, A2, A3.
  destruct (keysInRange_loop start end_ (mapKeys mapB) keys seen A1 A2) as (B1 & B2 & B3).
  split.
  - intros k. rewrite sortByKey_In, B3, A3. cbn [In]. intuition.
  - apply sortByKey_keyLt. now rewrite map_id.
Qed.


(** ** collectChanges *)

Lemma mapGet_Some_In {V : Type} (m : GoMap V) (k : bytes) (v : V) :
  mapGet m k = Some v -> In (k, v) m.
Proof.
  induction m as [|[k0 v0] m IH]; cbn [mapGet In]; [discriminate|].
  destruct (bytes_Equal_spec k0 k) as [->|N0].
  - intros [= ->]. now left.
  - intros H. right. now apply IH.
Qed.

Lemma mapGet_Some_key {V : Type} (m : GoMap V) (k : bytes) (v : V) :
  mapGet m k = Some v -> In k (mapKeys m).
Proof.
  intros H. apply mapGet_Some_In in H. unfold mapKeys.
  apply in_map_iff. now exists (k, v).
Qed.

Section CollectChanges.
Variable render : Value -> bytes.
Variable schema : Schema.
Variables mapA mapB : GoMap Row.

Lemma changeFor_key (key : bytes) (c : Change) :
  changeFor render schema mapA mapB key = Some c -> Ch_Key c = key.
Proof.
  unfold changeFor. destruct (mapGet mapA key), (mapGet mapB key); try discriminate.
  - destruct (negb _); [|discriminate]. now intros [= <-].
  - now intros [= <-].
  - now intros [= <-].
Qed.

(** The three kinds of change, and where the key is found. *)
Lemma changeFor_cases (key : bytes) (c : Change) :
  changeFor render schema mapA mapB key = Some c ->
  (Ch_Type c = "added"%string /\ mapGet mapA key = None
   /\ exists rowB, mapGet mapB key = Some rowB /\ c = mkChange "added" key [] (Values rowB))
  \/ (Ch_Type c = "removed"%string /\ mapGet mapB key = None
      /\ exists rowA, mapGet mapA key = Some rowA /\ c = mkChange "removed" key [] (Values rowA))
  \/ (Ch_Type c = "changed"%string
      /\ exists rowA rowB, mapGet mapA key = Some rowA /\ mapGet mapB key = Some rowB
           /\ rowsEqual render rowA rowB = false
           /\ c = mkChange "changed" key (fieldDiff render schema rowA rowB) []).
Proof.
  unfold changeFor.
  destruct (mapGet mapA key) as [rowA|], (mapGet mapB key) as [rowB|]; try discriminate.
  - destruct (rowsEqual render rowA rowB) eqn:E; cbn [negb]; [discriminate|].
    intros [= <-]. right. right. split; [reflexivity|]. now exists rowA, rowB.
  - intros [= <-]. right. left. split; [reflexivity|]. split; [reflexivity|]. now exists rowA.
  - intros [= <-]. left. split; [reflexivity|]. split; [reflexivity|]. now exists rowB.
Qed.

Lemma collectChanges_key_eq (p : GoMap bool) (ch : list Change) (key : bytes) :
  collectChanges_key render schema mapA mapB (p, ch) key
  = if mapBool p key then (p, ch)
    else (mapSet p key true, ch ++ optList (changeFor render schema mapA mapB key)).
Proof.
  unfold collectChanges_key, changeFor. destruct (mapBool p key); [reflexivity|].
  destruct (mapGet mapA key), (mapGet mapB key); cbn [optList]; try reflexivity.
  - destruct (negb _); cbn [optList]; [reflexivity | now rewrite app_nil_r].
  - now rewrite app_nil_r.
Qed.

Lemma changesInv_step (p : GoMap bool) (ch : list Change) (key : bytes) :
  changesInv render schema mapA mapB (p, ch) -> mapBool p key = false ->
  changesInv render schema mapA mapB
    (mapSet p key true, ch ++ optList (changeFor render schema mapA mapB key)).
Proof.
  intros (Ha & Hb & Hc) Hp. cbn [fst snd] in *. split; [|split]; cbn [fst snd].
  - intros c Hin. apply in_app_iff in Hin. destruct Hin as [Hin|Hin].
    + destruct (Ha c Hin) as [Hx Hy]. split; [|exact Hy].
      apply mapBool_mapSet_true. now right.
    + destruct (changeFor render schema mapA mapB key) as [c0|] eqn:Ec;
        cbn [optList In] in Hin; [|contradiction].
      destruct Hin as [<-|[]]. rewrite (changeFor_key _ _ Ec).
      split; [|exact Ec]. apply mapBool_mapSet_true. now left.
  - rewrite map_app. apply NoDup_app; [exact Hb | |].
    + destruct (changeFor render schema mapA mapB key); cbn [optList map];
        repeat constructor. intros [].
    + intros k Hk Hk'. apply in_map_iff in Hk. destruct Hk as (c & <- & Hin).
      destruct (changeFor render schema mapA mapB key) as [c0|] eqn:Ec;
        cbn [optList map In] in Hk'; [|contradiction].
      destruct Hk' as [E|[]]. rewrite (changeFor_key _ _ Ec) in E.
      destruct (Ha c Hin) as [Hx _]. congruence.
  - intros k c Hk Hck. apply in_app_iff. apply mapBool_mapSet_true in Hk.
    destruct Hk as [->|Hk].
    + right. rewrite Hck. now left.
    + left. now apply (Hc k).
Qed.

Lemma collectChanges_keys_loop (ks : list bytes) :
  forall st, changesInv render schema mapA mapB st ->
  changesInv render schema mapA mapB
    (fold_left (collectChanges_key render schema mapA mapB) ks st)
  /\ forall k,
       mapBool (fst (fold_left (collectChanges_key render schema mapA mapB) ks st)) k = true
       <-> mapBool (fst st) k = true \/ In k ks.
Proof.
  induction ks as [|k0 ks IH]; intros [p ch] Hinv; cbn [fold_left].
  - split; [exact Hinv|]. cbn [In]. intuition.
  - rewrite collectChanges_key_eq. destruct (mapBool p k0) eqn:Hp.
    + destruct (IH (p, ch) Hinv) as [H1 H2]. split; [exact H1|].
      intros k. rewrite H2. cbn [fst In]. intuition (subst; auto).
    + destruct (IH _ (changesInv_step p ch k0 Hinv Hp)) as [H1 H2]. split; [exact H1|].
      intros k. rewrite H2. cbn [fst In]. rewrite mapBool_mapSet_true.
      intuition (subst; auto).
Qed.

Lemma collectChanges_ranges_loop (ranges : list KeyRange) :
  forall st, changesInv render schema mapA mapB st ->
  changesInv render schema mapA mapB
    (fold_left (collectChanges_range render schema mapA mapB) ranges st)
  /\ forall k,
       mapBool (fst (fold_left (collectChanges_range render schema mapA mapB) ranges st)) k
         = true
       <-> mapBool (fst st) k = true
           \/ (inSomeRange ranges k = true
               /\ (In k (mapKeys mapA) \/ In k (mapKeys mapB))).
Proof.
  induction ranges as [|r ranges IH]; intros st Hinv; cbn [fold_left].
  - split; [exact Hinv|]. cbn [inSomeRange existsb]. intuition discriminate.
  - unfold collectChanges_range at 2 4.
    destruct (collectChanges_keys_loop
                (keysInRange (KR_Start r) (KR_End r) mapA mapB) st Hinv) as [K1 K2].
    destruct (IH _ K1) as [H1 H2]. split; [exact H1|].
    intros k. rewrite H2, K2.
    rewrite (proj1 (keysInRange_spec (KR_Start r) (KR_End r) mapA mapB)).
    unfold inSomeRange. cbn [existsb]. rewrite orb_true_iff. tauto.
Qed.

Lemma collectChanges_only_eq (kind : string) (p : GoMap bool) (other : GoMap Row)
  (ch : list Change) (b : bytes * Row) :
  collectChanges_only kind p other ch b = ch ++ onlyChange kind p other b.
Proof.
  unfold collectChanges_only, onlyChange. destruct b as [key row]. cbn [fst snd].
  destruct (negb _); [|now rewrite app_nil_r].
  destruct (mapGet other key); [now rewrite app_nil_r | reflexivity].
Qed.

Lemma collectChanges_only_loop (kind : string) (p : GoMap bool) (other : GoMap Row)
  (bs : GoMap Row) :
  forall ch, fold_left (collectChanges_only kind p other) bs ch
             = ch ++ flat_map (onlyChange kind p other) bs.
Proof.
  induction bs as [|b bs IH]; intros ch; cbn [fold_left flat_map].
  - now rewrite app_nil_r.
  - rewrite collectChanges_only_eq, IH. now rewrite app_assoc.
Qed.

Lemma onlyChange_keys (kind : string) (p : GoMap bool) (other bs : GoMap Row) (k : bytes) :
  In k (map Ch_Key (flat_map (onlyChange kind p other) bs)) -> In k (mapKeys bs).
Proof.
  unfold mapKeys. intros H. apply in_map_iff in H. destruct H as (c & <- & Hc).
  apply in_flat_map in Hc. destruct Hc as (b & Hb & Hc).
  unfold onlyChange in Hc. destruct (negb _); [|contradiction].
  destruct (mapGet other (fst b)); [contradiction|].
  destruct Hc as [<-|[]]. cbn [Ch_Key]. now apply in_map.
Qed.

Lemma onlyChange_NoDup (kind : string) (p : GoMap bool) (other bs : GoMap Row) :
  NoDup (mapKeys bs) -> NoDup (map Ch_Key (flat_map (onlyChange kind p other) bs)).
Proof.
  induction bs as [|b bs IH]; cbn [flat_map map]; intros Hnd; [constructor|].
  unfold mapKeys in Hnd. cbn [map] in Hnd. inversion Hnd as [|? ? Hnin Hrest]; subst.
  rewrite map_app. apply NoDup_app; [| now apply IH |].
  - unfold onlyChange. destruct (negb _); [|constructor].
    destruct (mapGet other (fst b)); repeat constructor. intros [].
  - intros k Hk Hk'. apply onlyChange_keys in Hk'.
    unfold onlyChange in Hk. destruct (negb _); [|contradiction].
    destruct (mapGet other (fst b)); [contradiction|].
    destruct Hk as [<-|[]]. cbn [Ch_Key] in Hk'. contradiction.
Qed.

Lemma only_added_In (p : GoMap bool) (c : Change) :
  NoDup (mapKeys mapB) ->
  In c (flat_map (onlyChange "added" p mapA) mapB)
  <-> mapBool p (Ch_Key c) = false
      /\ changeFor render schema mapA mapB (Ch_Key c) = Some c
      /\ Ch_Type c = "added"%string.
Proof.
  intros Hnd. rewrite in_flat_map. split.
  - intros ([k row] & Hin & Hc). unfold onlyChange in Hc. cbn [fst snd] in Hc.
    destruct (mapBool p k) eqn:Hp; cbn [negb] in Hc; [contradiction|].
    destruct (mapGet mapA k) eqn:Ha; [contradiction|].
    destruct Hc as [<-|[]]. cbn [Ch_Key Ch_Type]. split; [exact Hp|]. split; [|reflexivity].
    unfold changeFor. now rewrite Ha, (mapGet_In mapB k row Hnd Hin).
  - intros (Hp & Hc & Ht).
    destruct (changeFor_cases _ _ Hc) as
      [(_ & Ha & rowB & Hb & E) | [(Ht' & _) | (Ht' & _)]];
      [| rewrite Ht in Ht'; discriminate | rewrite Ht in Ht'; discriminate].
    exists (Ch_Key c, rowB). split; [now apply mapGet_Some_In|].
    unfold onlyChange. cbn [fst snd]. rewrite Hp, Ha. cbn [negb]. left. now symmetry.
Qed.

Lemma only_removed_In (p : GoMap bool) (c : Change) :
  NoDup (mapKeys mapA) ->
  In c (flat_map (onlyChange "removed" p mapB) mapA)
  <-> mapBool p (Ch_Key c) = false
      /\ changeFor render schema mapA mapB (Ch_Key c) = Some c
      /\ Ch_Type c = "removed"%string.
Proof.
  intros Hnd. rewrite in_flat_map. split.
  - intros ([k row] & Hin & Hc). unfold onlyChange in Hc. cbn [fst snd] in Hc.
    destruct (mapBool p k) eqn:Hp; cbn [negb] in Hc; [contradiction|].
    destruct (mapGet mapB k) eqn:Hb; [contradiction|].
    destruct Hc as [<-|[]]. cbn [Ch_Key Ch_Type]. split; [exact Hp|]. split; [|reflexivity].
    unfold changeFor. now rewrite Hb, (mapGet_In mapA k row Hnd Hin).
  - intros (Hp & Hc & Ht).
    destruct (changeFor_cases _ _ Hc) as
      [(Ht' & _) | [(_ & Hb & rowA & Ha & E) | (Ht' & _)]];
      [rewrite Ht in Ht'; discriminate | | rewrite Ht in Ht'; discriminate].
    exists (Ch_Key c, rowA). split; [now apply mapGet_Some_In|].
    unfold onlyChange. cbn [fst snd]. rewrite Hp, Hb. cbn [negb]. left. now symmetry.
Qed.

(** collectChanges before the final sort, and what holds of it. *)
Lemma collectChanges_unsorted (ranges : list KeyRange) :
  NoDup (mapKeys mapA) -> NoDup (mapKeys mapB) ->
  exists l,
    collectChanges render ranges mapA mapB schema = sortByKey Ch_Key l
    /\ NoDup (map Ch_Key l)
    /\ forall c, In c l
         <-> changeFor render schema mapA mapB (Ch_Key c) = Some c
             /\ (Ch_Type c = "changed"%string -> inSomeRange ranges (Ch_Key c) = true).
Proof.
  intros HndA HndB. unfold collectChanges.
  set (st := fold_left (collectChanges_range render schema mapA mapB) ranges _).
  assert (H : changesInv render schema mapA mapB st
              /\ forall k, mapBool (fst st) k = true
                           <-> inSomeRange ranges k = true
                               /\ (In k (mapKeys mapA) \/ In k (mapKeys mapB))).
  { subst st.
    destruct (collectChanges_ranges_loop ranges ([], [])) as [H1 H2].
    - split; [|split]; cbn [fst snd].
      + intros c [].
      + constructor.
      + intros k c Hk. discriminate Hk.
    - split; [exact H1|]. intros k. rewrite H2. cbn [fst]. intuition discriminate. }
  clearbody st. destruct st as [p ch]. destruct H as ((Ha & Hb & Hc) & Hp).
  cbn [fst snd] in *.
  rewrite !collectChanges_only_loop.
  eexists. split; [reflexivity|].
  assert (Hmem : forall c,
    In c ((ch ++ flat_map (onlyChange "added" p mapA) mapB)
          ++ flat_map (onlyChange "removed" p mapB) mapA)
    <-> changeFor render schema mapA mapB (Ch_Key c) = Some c
        /\ (Ch_Type c = "changed"%string -> inSomeRange ranges (Ch_Key c) = true)).
  { intros c. rewrite !in_app_iff, (only_added_In p c HndB), (only_removed_In p c HndA).
    split.
    - intros [[Hin | (_ & Hcf & Ht)] | (_ & Hcf & Ht)].
      + destruct (Ha c Hin) as [Hx Hy]. split; [exact Hy|]. intros _. now apply Hp.
      + split; [exact Hcf|]. rewrite Ht. discriminate.
      + split; [exact Hcf|]. rewrite Ht. discriminate.
    - intros [Hcf Hr]. destruct (mapBool p (Ch_Key c)) eqn:Hpc.
      + left. left. now apply (Hc (Ch_Key c)).
      + destruct (changeFor_cases _ _ Hcf) as
          [(Ht & _) | [(Ht & _) | (Ht & rowA & rowB & HA & _)]].
        * left. right. tauto.
        * right. tauto.
        * exfalso. assert (mapBool p (Ch_Key c) = true); [|congruence].
          apply Hp. split; [now apply Hr|]. left. now apply mapGet_Some_key in HA. }
  split; [|exact Hmem].
  rewrite !map_app. apply NoDup_app; [apply NoDup_app | |].
  - exact Hb.
  - now apply onlyChange_NoDup.
  - intros k Hk Hk'. apply in_map_iff in Hk. destruct Hk as (c & <- & Hin).
    apply in_map_iff in Hk'. destruct Hk' as (c' & E & Hin').
    apply (only_added_In p c' HndB) in Hin'. destruct Hin' as (Hp' & _).
    destruct (Ha c Hin) as [Hx _]. congruence.
  - now apply onlyChange_NoDup.
  - intros k Hk Hk'. rewrite <- map_app in Hk.
    apply in_map_iff in Hk. destruct Hk as (c & <- & Hin).
    apply in_map_iff in Hk'. destruct Hk' as (c' & E & Hin').
    apply (only_removed_In p c' HndA) in Hin'. destruct Hin' as (Hp' & Hcf' & Ht').
    apply in_app_iff in Hin. destruct Hin as [Hin|Hin].
    + destruct (Ha c Hin) as [Hx _]. congruence.
    + apply (only_added_In p c HndB) in Hin. destruct Hin as (_ & Hcf & Ht).
      rewrite E in Hcf'. rewrite Hcf in Hcf'. injection Hcf' as ->.
      rewrite Ht in Ht'. discriminate.
Qed.

Lemma collectChanges_In (ranges : list KeyRange) (c : Change) :
  NoDup (mapKeys mapA) -> NoDup (mapKeys mapB) ->
  In c (collectChanges render ranges mapA mapB schema)
  <-> changeFor render schema mapA mapB (Ch_Key c) = Some c
      /\ (Ch_Type c = "changed"%string -> inSomeRange ranges (Ch_Key c) = true).
Proof.
  intros HndA HndB.
  destruct (collectChanges_unsorted ranges HndA HndB) as (l & -> & _ & Hmem).
  now rewrite sortByKey_In.
Qed.

Lemma collectChanges_Sorted (ranges : list KeyRange) :
  NoDup (mapKeys mapA) -> NoDup (mapKeys mapB) ->
  Sorted (keyLt Ch_Key) (collectChanges render ranges mapA mapB schema).
Proof.
  intros HndA HndB.
  destruct (collectChanges_unsorted ranges HndA HndB) as (l & -> & Hnd & _).
  now apply sortByKey_keyLt.
Qed.

End CollectChanges.


(** ** The order of keys *)

Lemma bytes_Compare_lt_trans (a b c : bytes) :
  bytes_Compare a b < 0 -> bytes_Compare b c < 0 -> bytes_Compare a c < 0.
Proof.
  revert b c. induction a as [|x a IH]; intros [|y b] [|z c]; cbn [bytes_Compare]; try lia.
  destruct (Z.ltb_spec (byteZ x) (byteZ y)), (Z.ltb_spec (byteZ y) (byteZ x)),
           (Z.ltb_spec (byteZ y) (byteZ z)), (Z.ltb_spec (byteZ z) (byteZ y)),
           (Z.ltb_spec (byteZ x) (byteZ z)), (Z.ltb_spec (byteZ z) (byteZ x));
    try lia. apply IH.
Qed.

Lemma keyLt_irrefl {A : Type} (key : A -> bytes) (x : A) : ~ keyLt key x x.
Proof. unfold keyLt. rewrite bytes_Compare_refl. lia. Qed.

Lemma keyLt_asym {A : Type} (key : A -> bytes) (x y : A) :
  keyLt key x y -> keyLt key y x -> False.
Proof. unfold keyLt. rewrite (bytes_Compare_antisym (key x) (key y)). lia. Qed.

Lemma keyLt_StronglySorted {A : Type} (key : A -> bytes) (l : list A) :
  Sorted (keyLt key) l -> StronglySorted (keyLt key) l.
Proof.
  apply Sorted_StronglySorted. intros x y z. unfold keyLt. apply bytes_Compare_lt_trans.
Qed.

(** Two strictly ascending lists with the same elements are the same list. *)
Lemma keyLt_sorted_unique {A : Type} (key : A -> bytes) (l1 l2 : list A) :
  Sorted (keyLt key) l1 -> Sorted (keyLt key) l2 ->
  (forall x, In x l1 <-> In x l2) -> l1 = l2.
Proof.
  intros S1 S2. apply keyLt_StronglySorted in S1, S2. revert l2 S2.
  induction S1 as [|x l1 S1 IH Hx]; intros l2 S2 Hmem.
  - destruct l2 as [|y l2]; [reflexivity|]. exfalso. apply (Hmem y). now left.
  - destruct S2 as [|y l2 S2 Hy]; [exfalso; apply (Hmem x); now left|].
    rewrite Forall_forall in Hx, Hy.
    assert (E : x = y).
    { destruct (proj1 (Hmem x) (or_introl eq_refl)) as [E|Hin]; [now symmetry|].
      destruct (proj2 (Hmem y) (or_introl eq_refl)) as [E|Hin']; [exact E|].
      exfalso. exact (keyLt_asym key x y (Hx _ Hin') (Hy _ Hin)). }
    subst y. f_equal. apply IH; [exact S2|]. intros z. split; intros Hz.
    + destruct (proj1 (Hmem z) (or_intror Hz)) as [E|H']; [|exact H'].
      subst z. exfalso. exact (keyLt_irrefl key x (Hx _ Hz)).
    + destruct (proj2 (Hmem z) (or_intror Hz)) as [E|H']; [|exact H'].
      subst z. exfalso. exact (keyLt_irrefl key x (Hy _ Hz)).
Qed.

(** ** Maps in another order of iteration *)

Lemma mapKeys_Permutation {V : Type} (m m' : GoMap V) :
  Permutation m m' -> Permutation (mapKeys m) (mapKeys m').
Proof. apply Permutation_map. Qed.

Lemma mapGet_Permutation {V : Type} (m m' : GoMap V) (k : bytes) :
  NoDup (mapKeys m) -> Permutation m m' -> mapGet m' k = mapGet m k.
Proof.
  intros Hnd Hp.
  assert (Hnd' : NoDup (mapKeys m')).
  { eapply Permutation_NoDup; [apply mapKeys_Permutation; exact Hp | exact Hnd]. }
  destruct (mapGet m k) as [v|] eqn:E.
  - apply mapGet_In; [exact Hnd'|]. eapply Permutation_in; [exact Hp|].
    now apply mapGet_Some_In.
  - apply mapGet_None. apply mapGet_None in E. intros Hin. apply E.
    eapply Permutation_in; [apply Permutation_sym, mapKeys_Permutation; exact Hp | exact Hin].
Qed.

Lemma changeFor_Permutation (render : Value -> bytes) (schema : Schema)
  (mapA mapB mapA' mapB' : GoMap Row) (k : bytes) :
  NoDup (mapKeys mapA) -> NoDup (mapKeys mapB) ->
  Permutation mapA mapA' -> Permutation mapB mapB' ->
  changeFor render schema mapA' mapB' k = changeFor render schema mapA mapB k.
Proof.
  intros HA HB PA PB. unfold changeFor.
  now rewrite (mapGet_Permutation mapA mapA' k HA PA), (mapGet_Permutation mapB mapB' k HB PB).
Qed.

Lemma collectChanges_Permutation (render : Value -> bytes) (rs : list KeyRange)
  (mapA mapB mapA' mapB' : GoMap Row) (schema : Schema) :
  NoDup (mapKeys mapA) -> NoDup (mapKeys mapB) ->
  Permutation mapA mapA' -> Permutation mapB mapB' ->
  collectChanges render rs mapA' mapB' schema = collectChanges render rs mapA mapB schema.
Proof.
  intros HA HB PA PB.
  assert (HA' : NoDup (mapKeys mapA')).
  { eapply Permutation_NoDup; [apply mapKeys_Permutation; exact PA | exact HA]. }
  assert (HB' : NoDup (mapKeys mapB')).
  { eapply Permutation_NoDup; [apply mapKeys_Permutation; exact PB | exact HB]. }
  apply (keyLt_sorted_unique Ch_Key).
  - now apply collectChanges_Sorted.
  - now apply collectChanges_Sorted.
  - intros c. rewrite !collectChanges_In by assumption.
    now rewrite (changeFor_Permutation render schema mapA mapB mapA' mapB' _ HA HB PA PB).
Qed.

(** ** rowsEqual and fieldDiff *)

Lemma mapSet_not_nil {V : Type} (m : GoMap V) (k : bytes) (v : V) : mapSet m k v <> [].
Proof.
  destruct m as [|[k0 v0] m]; cbn [mapSet]; [discriminate|].
  destruct (bytes_Equal k0 k); discriminate.
Qed.

Lemma fieldDiffLoop_nil (render : Value -> bytes) (schema : Schema) (va : list Value) :
  forall vb i fields,
  fieldDiffLoop render schema i va vb fields = []
  <-> fields = [] /\ valuesEqual render va vb = true.
Proof.
  induction va as [|x va IH]; intros [|y vb] i fields;
    cbn [fieldDiffLoop valuesEqual]; try tauto.
  rewrite IH. destruct (negb (bytes_Equal (render x) (render y))).
  - split; [|intros [_ H]; discriminate H]. intros [H _]. now apply mapSet_not_nil in H.
  - tauto.
Qed.

Lemma valuesEqual_refl (render : Value -> bytes) (vs : list Value) :
  valuesEqual render vs vs = true.
Proof.
  induction vs as [|x vs IH]; cbn [valuesEqual]; [reflexivity|].
  now rewrite bytes_Equal_refl.
Qed.

Lemma rowsEqual_refl (render : Value -> bytes) (r : Row) : rowsEqual render r r = true.
Proof. unfold rowsEqual. rewrite Z.eqb_refl. cbn [negb]. apply valuesEqual_refl. Qed.

(** ** buildRowMap *)

Lemma buildRowMap_snoc (rows : list Row) (r : Row) :
  buildRowMap (rows ++ [r]) = mapSet (buildRowMap rows) (Key r) r.
Proof. unfold buildRowMap. now rewrite fold_left_app. Qed.

Lemma buildRowMap_NoDup (rows : list Row) : NoDup (mapKeys (buildRowMap rows)).
Proof.
  induction rows as [|r rows IH] using rev_ind; [constructor|].
  rewrite buildRowMap_snoc. now apply mapSet_NoDup.
Qed.

Lemma buildRowMap_mapGet (rows : list Row) (k : bytes) :
  mapGet (buildRowMap rows) k = find (fun r => bytes_Equal (Key r) k) (rev rows).
Proof.
  induction rows as [|r rows IH] using rev_ind; [reflexivity|].
  rewrite buildRowMap_snoc, rev_app_distr. cbn [rev app find].
  destruct (bytes_Equal_spec (Key r) k) as [<-|N].
  - apply mapGet_mapSet_same.
  - rewrite mapGet_mapSet_other by assumption. exact IH.
Qed.

Lemma buildRowMap_keys (rows : list Row) (k : bytes) :
  In k (mapKeys (buildRowMap rows)) <-> In k (map Key rows).
Proof.
  induction rows as [|r rows IH] using rev_ind; [reflexivity|].
  rewrite buildRowMap_snoc, mapKeys_mapSet, IH, map_app, in_app_iff. cbn [map In].
  intuition.
Qed.

(** ** summarize *)

Lemma summarize_loop (cs : list Change) :
  forall s, Forall knownType cs ->
  Added (fold_left summarize_step cs s) + Removed (fold_left summarize_step cs s)
  + Changed (fold_left summarize_step cs s)
  = Added s + Removed s + Changed s + len cs.
Proof.
  induction cs as [|c cs IH]; intros s Hk; cbn [fold_left].
  - unfold len. cbn. lia.
  - inversion Hk as [|? ? Hc Hcs]; subst. rewrite (IH _ Hcs).
    unfold len. cbn [List.length]. rewrite Nat2Z.inj_succ.
    unfold summarize_step.
    destruct Hc as [E|[E|E]]; rewrite E; cbn [String.eqb Ascii.eqb Bool.eqb];
      cbn [Added Removed Changed]; lia.
Qed.

Lemma summarize_total (cs : list Change) :
  Forall knownType cs ->
  Total (summarize cs) = len cs
  /\ Added (summarize cs) + Removed (summarize cs) + Changed (summarize cs)
     = Total (summarize cs).
Proof.
  intros Hk. unfold summarize. cbn [Total Added Removed Changed].
  rewrite (summarize_loop cs _ Hk). cbn [Total Added Removed Changed]. lia.
Qed.

Lemma collectChanges_knownType (render : Value -> bytes) (rs : list KeyRange)
  (mapA mapB : GoMap Row) (schema : Schema) :
  NoDup (mapKeys mapA) -> NoDup (mapKeys mapB) ->
  Forall knownType (collectChanges render rs mapA mapB schema).
Proof.
  intros HA HB. apply Forall_forall. intros c Hc.
  apply collectChanges_In in Hc; [|assumption..]. destruct Hc as [Hc _].
  unfold knownType.
  destruct (changeFor_cases _ _ _ _ _ _ Hc) as [(Ht & _) | [(Ht & _) | (Ht & _)]]; tauto.
Qed.

(** ** diffRows *)

Lemma toTreeRows_id (rows : list Row) : toTreeRows rows = rows.
Proof.
  unfold toTreeRows. induction rows as [|[k v] rows IH]; cbn [map]; [reflexivity|].
  now rewrite IH.
Qed.

Lemma tree_chunk_size (rows : list Row) :
  exists t, NewMerkleTreeFromRows rows = Ok t /\ GetChunkSize t = Ok (firstKeyLen rows).
Proof.
  destruct rows as [|a rest].
  - destruct (NewMerkleTreeFromRows_returns []) as (t & Ht & Hnil & _).
    exists t. split; [exact Ht|]. unfold GetChunkSize.
    unfold GetRoot in Hnil. now rewrite (Hnil eq_refl).
  - destruct (rows_root (a :: rest)) as (t & Ht & _ & Hinv & Hleaves); [discriminate|].
    exists t. split; [exact Ht|]. unfold GetChunkSize, Node_GetChunkSize.
    unfold GetRoot in *. pose proof (proj1 (invariant_key_range _ Hinv)) as Hs.
    rewrite Hleaves in Hs. cbn [map hd] in Hs. destruct Hinv as [Hne _].
    destruct (root t); [now elim Hne|]. cbn [is_nil]. cbn [GetStartKey] in Hs.
    rewrite Hs. reflexivity.
Qed.

Lemma collectChanges_same (render : Value -> bytes) (rs : list KeyRange)
  (m : GoMap Row) (schema : Schema) :
  NoDup (mapKeys m) -> collectChanges render rs m m schema = [].
Proof.
  intros Hnd. destruct (collectChanges render rs m m schema) as [|c l] eqn:E; [reflexivity|].
  exfalso. assert (Hin : In c (collectChanges render rs m m schema)) by (rewrite E; now left).
  apply collectChanges_In in Hin; [|assumption..]. destruct Hin as [Hc _].
  destruct (changeFor_cases _ _ _ _ _ _ Hc)
    as [(_ & Ha & r & Hb & _) | [(_ & Hb & r & Ha & _) | (_ & ra & rb & Ha & Hb & Hne & _)]];
    try congruence.
  assert (ra = rb) by congruence. subst rb. rewrite rowsEqual_refl in Hne. discriminate.
Qed.

Lemma diffRows_eq (render : Value -> bytes) (schema : Schema) (rowsA rowsB : list Row) :
  exists tA tB,
    NewMerkleTreeFromRows rowsA = Ok tA /\ NewMerkleTreeFromRows rowsB = Ok tB
    /\ diffRows render schema rowsA rowsB
       = if firstKeyLen rowsA =? firstKeyLen rowsB then
           let changes :=
             collectChanges render (compareTreesRecursive (GetRoot tA) (GetRoot tB) [])
                            (buildRowMap rowsA) (buildRowMap rowsB) schema in
           Ok (mkDiffResult (len rowsA) (len rowsB) (len changes =? 0) changes
                            (summarize changes))
         else Panic (chunkSizeMismatch (firstKeyLen rowsA) (firstKeyLen rowsB)).
Proof.
  destruct (tree_chunk_size rowsA) as (tA & HtA & HcA).
  destruct (tree_chunk_size rowsB) as (tB & HtB & HcB).
  exists tA, tB. split; [exact HtA|]. split; [exact HtB|].
  unfold diffRows. rewrite !toTreeRows_id, HtA, HtB.
  rewrite (Compare_sizes (NewDiff tA tB) _ _ HcA HcB).
  destruct (firstKeyLen rowsA =? firstKeyLen rowsB); reflexivity.
Qed.

Lemma diffRows_returns (render : Value -> bytes) (schema : Schema) (rowsA rowsB : list Row) :
  firstKeyLen rowsA = firstKeyLen rowsB ->
  exists res, diffRows render schema rowsA rowsB = Ok res.
Proof.
  intros Heq. destruct (diffRows_eq render schema rowsA rowsB) as (tA & tB & _ & _ & E).
  rewrite E, Heq, Z.eqb_refl. eexists. reflexivity.
Qed.

Lemma len_zero_iff {A : Type} (l : list A) : (len l =? 0) = true <-> l = [].
Proof.
  split; [apply len_zero_nil | now intros ->].
Qed.

(** ** Properties of the change report *)

(** X24: with maps that hold each key once, collectChanges reports a key
    found only in B as added with B's values and a key found only in A as
    removed with A's values, whatever the ranges are; a key found in both
    is reported as changed, with the fields of fieldDiff, exactly when
    rowsEqual fails and the key lies in one of the ranges; and it reports
    nothing else. *)
Theorem collectChanges_reports (render : Value -> bytes) (rs : list KeyRange)
  (mapA mapB : GoMap Row) (schema : Schema) :
  NoDup (mapKeys mapA) -> NoDup (mapKeys mapB) ->
  (forall key rowB, mapGet mapA key = None -> mapGet mapB key = Some rowB ->
     In (mkChange "added" key [] (Values rowB)) (collectChanges render rs mapA mapB schema))
  /\ (forall key rowA, mapGet mapA key = Some rowA -> mapGet mapB key = None ->
     In (mkChange "removed" key [] (Values rowA)) (collectChanges render rs mapA mapB schema))
  /\ (forall key rowA rowB, mapGet mapA key = Some rowA -> mapGet mapB key = Some rowB ->
     (In (mkChange "changed" key (fieldDiff render schema rowA rowB) [])
         (collectChanges render rs mapA mapB schema)
      <-> rowsEqual render rowA rowB = false /\ inSomeRange rs key = true))
  /\ (forall c, In c (collectChanges render rs mapA mapB schema) ->
     changeFor render schema mapA mapB (Ch_Key c) = Some c).
Proof.
  intros HA HB. split; [|split; [|split]].
  - intros key rowB Ha Hb. apply collectChanges_In; [assumption..|]. cbn [Ch_Key Ch_Type].
    unfold changeFor. rewrite Ha, Hb. split; [reflexivity | discriminate].
  - intros key rowA Ha Hb. apply collectChanges_In; [assumption..|]. cbn [Ch_Key Ch_Type].
    unfold changeFor. rewrite Ha, Hb. split; [reflexivity | discriminate].
  - intros key rowA rowB Ha Hb. rewrite collectChanges_In by assumption.
    cbn [Ch_Key Ch_Type]. unfold changeFor. rewrite Ha, Hb.
    destruct (rowsEqual render rowA rowB); cbn [negb].
    + split; [intros [H _]; discriminate H | intros [H _]; discriminate H].
    + split; [intros [_ H]; split; [reflexivity | now apply H] | intros [_ H]; now split].
  - intros c Hin. now apply collectChanges_In in Hin.
Qed.

Lemma collectChanges_reports_witness :
  In (mkChange "added" (bytes_of_string "id4") [] [VInt 4])
     (collectChanges renderSample [] (buildRowMap snapshotA)
        (buildRowMap (snapshotA ++ [rowOf "id4" [VInt 4]])) sampleSchema).
Proof.
  refine (proj1 (collectChanges_reports renderSample [] (buildRowMap snapshotA)
                   (buildRowMap (snapshotA ++ [rowOf "id4" [VInt 4]])) sampleSchema _ _)
                (bytes_of_string "id4") (rowOf "id4" [VInt 4]) _ _).
  - vm_compute. repeat constructor; cbn; intuition discriminate.
  - vm_compute. repeat constructor; cbn; intuition discriminate.
  - reflexivity.
  - reflexivity.
Defined.

(** X25: the changes come out in strictly ascending order of their keys,
    one change per key at most, and they do not depend on the order in
    which the two maps are iterated. *)
Theorem collectChanges_order_independent (render : Value -> bytes) (rs : list KeyRange)
  (mapA mapB mapA' mapB' : GoMap Row) (schema : Schema) :
  NoDup (mapKeys mapA) -> NoDup (mapKeys mapB) ->
  Permutation mapA mapA' -> Permutation mapB mapB' ->
  collectChanges render rs mapA' mapB' schema = collectChanges render rs mapA mapB schema
  /\ Sorted (keyLt Ch_Key) (collectChanges render rs mapA mapB schema).
Proof.
  intros HA HB PA PB. split.
  - now apply collectChanges_Permutation.
  - now apply collectChanges_Sorted.
Qed.

Lemma collectChanges_order_independent_witness :
  collectChanges renderSample [] (rev (buildRowMap snapshotA)) (rev (buildRowMap snapshotB))
    sampleSchema
  = collectChanges renderSample [] (buildRowMap snapshotA) (buildRowMap snapshotB)
      sampleSchema
  /\ Sorted (keyLt Ch_Key)
       (collectChanges renderSample [] (buildRowMap snapshotA) (buildRowMap snapshotB)
          sampleSchema).
Proof.
  apply collectChanges_order_independent.
  - apply buildRowMap_NoDup.
  - apply buildRowMap_NoDup.
  - apply Permutation_rev.
  - apply Permutation_rev.
Defined.

(** X26: rowsEqual holds exactly when the two rows have the same number of
    values and fieldDiff finds no differing field.  So a changed row whose
    two versions are equally long names at least one field, and two rows
    of different lengths that agree where both have a value are reported
    as changed with no field. *)
Theorem rowsEqual_fieldDiff (render : Value -> bytes) (schema : Schema) (a b : Row) :
  rowsEqual render a b
  = (len (Values a) =? len (Values b)) && (len (fieldDiff render schema a b) =? 0).
Proof.
  unfold rowsEqual, fieldDiff.
  destruct (len (Values a) =? len (Values b)); cbn [negb andb]; [|reflexivity].
  destruct (valuesEqual render (Values a) (Values b)) eqn:E.
  - symmetry. apply len_zero_iff. now apply fieldDiffLoop_nil.
  - symmetry. destruct (len _ =? 0) eqn:E0; [|reflexivity].
    apply len_zero_iff, fieldDiffLoop_nil in E0. destruct E0 as [_ E0]. congruence.
Qed.

(** X27: buildRowMap holds every key of the rows once, and under a key
    the last row that carries it. *)
Theorem buildRowMap_last_row_wins (rows : list Row) :
  NoDup (mapKeys (buildRowMap rows))
  /\ (forall k, In k (mapKeys (buildRowMap rows)) <-> In k (map Key rows))
  /\ (forall k, mapGet (buildRowMap rows) k
                = find (fun r => bytes_Equal (Key r) k) (rev rows)).
Proof.
  split; [apply buildRowMap_NoDup|]. split.
  - apply buildRowMap_keys.
  - apply buildRowMap_mapGet.
Qed.

(** X28: a data set compared with itself is reported as identical: no
    panic, no change, a summary of zeros. *)
Theorem diffRows_identical (render : Value -> bytes) (schema : Schema) (rows : list Row) :
  diffRows render schema rows rows
  = Ok (mkDiffResult (len rows) (len rows) true [] (mkDiffSummary 0 0 0 0)).
Proof.
  destruct (diffRows_eq render schema rows rows) as (tA & tB & _ & _ & E).
  rewrite E, Z.eqb_refl. cbv zeta.
  rewrite collectChanges_same by apply buildRowMap_NoDup. reflexivity.
Qed.

(** X29: the comparison of two row lists ends in a panic exactly when the
    first keys of the two lists differ in length, an empty list counting
    as length 0; the panic carries the chunk-size-mismatch message.
    Otherwise it returns a result with the two row counts. *)
Theorem diffRows_panics_iff (render : Value -> bytes) (schema : Schema)
  (rowsA rowsB : list Row) :
  match diffRows render schema rowsA rowsB with
  | Ok res =>
      firstKeyLen rowsA = firstKeyLen rowsB
      /\ RowCountA res = len rowsA /\ RowCountB res = len rowsB
  | Panic e =>
      firstKeyLen rowsA <> firstKeyLen rowsB
      /\ e = chunkSizeMismatch (firstKeyLen rowsA) (firstKeyLen rowsB)
  end.
Proof.
  destruct (diffRows_eq render schema rowsA rowsB) as (tA & tB & _ & _ & E).
  rewrite E. destruct (Z.eqb_spec (firstKeyLen rowsA) (firstKeyLen rowsB)) as [Heq|Hne].
  - cbv zeta. cbn [RowCountA RowCountB]. auto.
  - split; [exact Hne | reflexivity].
Qed.

(** X30: in a result the comparison returns, the changes are in strictly
    ascending key order, the summary's total is the number of changes and
    the sum of its three counts, Identical says that there is no change,
    and every key that only one of the two row lists holds is reported:
    as added when only B holds it, as removed when only A holds it. *)
Theorem diffRows_result (render : Value -> bytes) (schema : Schema)
  (rowsA rowsB : list Row) (res : DiffResult) :
  diffRows render schema rowsA rowsB = Ok res ->
  Sorted (keyLt Ch_Key) (Changes res)
  /\ Total (Summary res) = len (Changes res)
  /\ Added (Summary res) + Removed (Summary res) + Changed (Summary res)
     = Total (Summary res)
  /\ (Identical res = true <-> Changes res = [])
  /\ (forall r, In r rowsB -> ~ In (Key r) (map Key rowsA) ->
        exists c, In c (Changes res)
                  /\ Ch_Type c = "added"%string /\ Ch_Key c = Key r)
  /\ (forall r, In r rowsA -> ~ In (Key r) (map Key rowsB) ->
        exists c, In c (Changes res)
                  /\ Ch_Type c = "removed"%string /\ Ch_Key c = Key r).
Proof.
  destruct (diffRows_eq render schema rowsA rowsB) as (tA & tB & _ & _ & E).
  rewrite E. destruct (firstKeyLen rowsA =? firstKeyLen rowsB); [|discriminate].
  cbv zeta. intros [= <-]. cbn [Changes Summary Identical].
  set (rs := compareTreesRecursive (GetRoot tA) (GetRoot tB) []).
  pose proof (buildRowMap_NoDup rowsA) as HA.
  pose proof (buildRowMap_NoDup rowsB) as HB.
  pose proof (summarize_total _ (collectChanges_knownType render rs _ _ schema HA HB))
    as [Ht Hs].
  split; [now apply collectChanges_Sorted|]. split; [exact Ht|]. split; [exact Hs|].
  split; [apply len_zero_iff|]. split.
  - intros r Hr Hnot.
    assert (Ha : mapGet (buildRowMap rowsA) (Key r) = None).
    { apply mapGet_None. now rewrite buildRowMap_keys. }
    destruct (mapGet (buildRowMap rowsB) (Key r)) as [rowB|] eqn:Hb.
    + exists (mkChange "added" (Key r) [] (Values rowB)).
      split; [|split; reflexivity].
      apply collectChanges_In; [assumption..|]. cbn [Ch_Key Ch_Type].
      unfold changeFor. rewrite Ha, Hb. split; [reflexivity | discriminate].
    + exfalso. apply mapGet_None in Hb. apply Hb. rewrite buildRowMap_keys.
      now apply in_map.
  - intros r Hr Hnot.
    assert (Hb : mapGet (buildRowMap rowsB) (Key r) = None).
    { apply mapGet_None. now rewrite buildRowMap_keys. }
    destruct (mapGet (buildRowMap rowsA) (Key r)) as [rowA|] eqn:Ha.
    + exists (mkChange "removed" (Key r) [] (Values rowA)).
      split; [|split; reflexivity].
      apply collectChanges_In; [assumption..|]. cbn [Ch_Key Ch_Type].
      unfold changeFor. rewrite Ha, Hb. split; [reflexivity | discriminate].
    + exfalso. apply mapGet_None in Ha. apply Ha. rewrite buildRowMap_keys.
      now apply in_map.
Qed.

Lemma diffRows_result_witness :
  exists res,
    diffRows renderSample sampleSchema snapshotA snapshotB = Ok res
    /\ Total (Summary res) = len (Changes res)
    /\ (Identical res = true <-> Changes res = []).
Proof.
  destruct (diffRows_returns renderSample sampleSchema snapshotA snapshotB eq_refl)
    as [res E].
  exists res. split; [exact E|].
  pose proof (diffRows_result renderSample sampleSchema snapshotA snapshotB res E)
    as (_ & Ht & _ & Hi & _).
  split; [exact Ht | exact Hi].
Defined.
